(** * A* escape-route planner ([backend/ai/a_star.py]): shallow embedding

    The planner works on a 2-D occupancy grid (a Python list of rows of
    integers, 0 = free, 1 = obstacle), float costs, a [heapq] priority
    queue holding references to mutable [Node] objects, a dictionary
    [all_nodes] from coordinates to those objects and a [closed_set].

    - floats are IEEE binary64, embedded as Rocq's primitive floats;
    - a [Node] object is identified with its coordinates: [all_nodes]
      holds exactly one object per coordinate pair and the heap stores
      references to these very objects, so the heap is a list of
      coordinates and every comparison [a < b] made by [heapq] reads the
      *current* [f] fields from the store (this is the aliasing the
      source has: a node updated in place changes the key of the
      entries already sitting in the heap);
    - Python exceptions ([IndexError]) and the fuel of the [while]
      loops are explicit in the [outcome] type. *)

From Stdlib Require Import ZArith Floats.
From stdpp Require Import gmap list.

Set Warnings "-inexact-float,-clear-no-such-hyp".

(** ** Outcomes: normal return, raised [IndexError], fuel exhausted *)

Inductive outcome (A : Type) : Type :=
  | Done (a : A)
  | IndexError
  | OutOfFuel.
Arguments Done {A} a.
Arguments IndexError {A}.
Arguments OutOfFuel {A}.

Definition obind {A B} (m : outcome A) (k : A → outcome B) : outcome B :=
  match m with
  | Done a => k a
  | IndexError => IndexError
  | OutOfFuel => OutOfFuel
  end.

#[global] Instance outcome_bind : MBind outcome := fun A B k m => obind m k.
#[global] Instance outcome_ret : MRet outcome := fun A a => Done a.

(** Python's [l[i]] on a list: negative indices count from the end,
    anything outside raises [IndexError]. *)
Definition py_index {A} (l : list A) (i : Z) : outcome A :=
  let n := Z.of_nat (length l) in
  let j := if (i <? 0)%Z then (n + i)%Z else i in
  if (j <? 0)%Z then IndexError
  else match l !! Z.to_nat j with
       | Some a => Done a
       | None => IndexError
       end.

(** ** Floats *)

Abbreviation float := PrimFloat.float.

Definition fzero : float := 0%float.
Definition finf : float := PrimFloat.infinity.

(** Conversion of a Python [int] to a [float] (round to nearest even),
    as done implicitly by [math.sqrt] on an integer argument. *)
Definition float_of_Z (z : Z) : float :=
  SF2Prim (binary_normalize prec emax z 0 false).

(** Python's [a >= b] on floats. *)
Definition fge (a b : float) : bool := PrimFloat.leb b a.

(** ** The [heapq] module (CPython's algorithm), over an arbitrary
    "less than" test.  The list is the Python list holding the heap. *)

Module Heapq.
Section WithLt.
Context {A : Type}.
Variable lt : A → A → bool.

(** [_siftdown(heap, startpos, pos)] after [newitem = heap[pos]];
    [n] bounds the number of iterations of its [while] loop. *)
Fixpoint siftdown_loop (n : nat) (heap : list A) (newitem : A)
    (startpos pos : nat) : list A :=
  match n with
  | O => <[pos := newitem]> heap
  | S n' =>
      if decide (startpos < pos) then
        let parentpos := (pos - 1) / 2 in
        match heap !! parentpos with
        | Some parent =>
            if lt newitem parent
            then siftdown_loop n' (<[pos := parent]> heap) newitem startpos parentpos
            else <[pos := newitem]> heap
        | None => <[pos := newitem]> heap
        end
      else <[pos := newitem]> heap
  end.

Definition siftdown (heap : list A) (startpos pos : nat) : list A :=
  match heap !! pos with
  | Some newitem => siftdown_loop pos heap newitem startpos pos
  | None => heap
  end.

(** The [while childpos < endpos] loop of [_siftup]: bubbles the
    smaller child up until a leaf is hit; returns the list and the
    final position of the hole. *)
Fixpoint siftup_loop (n : nat) (heap : list A) (pos : nat) : list A * nat :=
  match n with
  | O => (heap, pos)
  | S n' =>
      let endpos := length heap in
      let childpos := 2 * pos + 1 in
      if decide (childpos < endpos) then
        let rightpos := childpos + 1 in
        let childpos' :=
          match heap !! childpos, heap !! rightpos with
          | Some c, Some r => if negb (lt c r) then rightpos else childpos
          | _, _ => childpos
          end in
        match heap !! childpos' with
        | Some c => siftup_loop n' (<[pos := c]> heap) childpos'
        | None => (heap, pos)
        end
      else (heap, pos)
  end.

Definition siftup (heap : list A) (pos : nat) : list A :=
  match heap !! pos with
  | Some newitem =>
      let '(heap', pos') := siftup_loop (length heap) heap pos in
      siftdown (<[pos' := newitem]> heap') pos pos'
  | None => heap
  end.

(** [heappush(heap, item)] *)
Definition heappush (heap : list A) (item : A) : list A :=
  let heap' := heap ++ [item] in
  siftdown heap' 0 (length heap' - 1).

(** [heappop(heap)]: [None] stands for the [IndexError] on an empty
    heap (the callers test [while open_set] first). *)
Definition heappop (heap : list A) : option (A * list A) :=
  match reverse heap with
  | [] => None
  | lastelt :: rest_rev =>
      let heap' := reverse rest_rev in
      match heap' with
      | [] => Some (lastelt, [])
      | returnitem :: _ =>
          Some (returnitem, siftup (<[0 := lastelt]> heap') 0)
      end
  end.

(** [heapify(x)]: [for i in reversed(range(n//2)): _siftup(x, i)]. *)
Definition heapify (x : list A) : list A :=
  foldl (fun acc i => siftup acc i) x (reverse (seq 0 (length x / 2))).
End WithLt.
End Heapq.

(** ** Data model *)

(** A cell position [(x, y)]: row index and column index. *)
Definition pos : Type := (Z * Z)%type.

(** The fields of a [Node] object other than its coordinates, which are
    its key in [all_nodes]; [parent] is a reference to another node. *)
Record Node : Type := mkNode {
  g : float;
  h : float;
  f : float;
  parent : option pos
}.

Definition grid_t : Type := list (list Z).
Definition risk_map_t : Type := list (list float).

(** The mutable state of one search run. *)
Record search_state : Type := mkState {
  open_set : list pos;
  closed_set : gset pos;
  all_nodes : gmap pos Node
}.

(** Field reads through a reference; a reference held by the heap or a
    parent link always points into [all_nodes]. *)
Definition node_g (nodes : gmap pos Node) (p : pos) : float :=
  match nodes !! p with Some n => g n | None => fzero end.
Definition node_f (nodes : gmap pos Node) (p : pos) : float :=
  match nodes !! p with Some n => f n | None => fzero end.

(** [Node.__lt__]: [self.f < other.f], on the objects as they are now. *)
Definition node_lt (nodes : gmap pos Node) (a b : pos) : bool :=
  PrimFloat.ltb (node_f nodes a) (node_f nodes b).

(** ** [AStarPlanner] *)

(** [_heuristic]: [math.sqrt((x2 - x1) ** 2 + (y2 - y1) ** 2)] *)
Definition heuristic (x1 y1 x2 y2 : Z) : float :=
  PrimFloat.sqrt (float_of_Z ((x2 - x1) ^ 2 + (y2 - y1) ^ 2)).

Definition directions : list (Z * Z) :=
  [(-1, -1); (-1, 0); (-1, 1);
   (0, -1);           (0, 1);
   (1, -1);  (1, 0);  (1, 1)]%Z.

Definition rows_of (grid : grid_t) : Z := Z.of_nat (length grid).

(** [len(grid[0]) if rows > 0 else 0] *)
Definition cols_of (grid : grid_t) : Z :=
  match grid with
  | [] => 0
  | row0 :: _ => Z.of_nat (length row0)
  end.

Definition in_bounds (rows cols : Z) (p : pos) : bool :=
  (0 <=? p.1)%Z && (p.1 <? rows)%Z && (0 <=? p.2)%Z && (p.2 <? cols)%Z.

(** [grid[x][y]] *)
Definition grid_at (grid : grid_t) (p : pos) : outcome Z :=
  row ← py_index grid p.1 ; py_index row p.2.

(** [_get_neighbors]: the in-bounds cells around [node] that are not in
    [blocked] and hold 0, in the order of [directions]. *)
Fixpoint get_neighbors_from (dirs : list (Z * Z)) (node : pos)
    (grid : grid_t) (blocked : gset pos) : outcome (list pos) :=
  match dirs with
  | [] => Done []
  | (dx, dy) :: dirs' =>
      let new := ((node.1 + dx)%Z, (node.2 + dy)%Z) in
      keep ←
        (if in_bounds (rows_of grid) (cols_of grid) new then
           if bool_decide (new ∉ blocked) then
             v ← grid_at grid new ; Done (bool_decide (v = 0%Z))
           else Done false
         else Done false) ;
      rest ← get_neighbors_from dirs' node grid blocked ;
      Done (if keep : bool then new :: rest else rest)
  end.

Definition get_neighbors (node : pos) (grid : grid_t) (blocked : gset pos)
    : outcome (list pos) :=
  get_neighbors_from directions node grid blocked.

(** [_calculate_cost] *)
Definition calculate_cost (x1 y1 x2 y2 : Z) : float :=
  let dx := Z.abs (x2 - x1) in
  let dy := Z.abs (y2 - y1) in
  if bool_decide (dx = 1%Z) && bool_decide (dy = 1%Z)
  then 1.414%float
  else 1.0%float.

(** [{(b[0], b[1]) for b in blocked}], with the [None] default. *)
Definition blocked_set_of (blocked : option (list pos)) : gset pos :=
  list_to_set (default [] blocked).

(** The walk along the [parent] references that rebuilds the path
    ([while node is not None]); the accumulator is the Python list
    [path] before [path.reverse()], newest element first. *)
Fixpoint walk_parents (n : nat) (nodes : gmap pos Node) (node : option pos)
    (acc : list pos) : outcome (list pos) :=
  match node with
  | None => Done acc
  | Some p =>
      match n with
      | O => OutOfFuel
      | S n' =>
          walk_parents n' nodes (nodes !! p ≫= parent) (acc ++ [p])
      end
  end.

(** The result triple of [find_path]: path, total cost, length. *)
Definition path_result : Type := (list pos * float * Z)%type.

Definition no_path : path_result := ([], finf, 0%Z).

(** One pass of the body of [for nx, ny in neighbors] in [find_path]. *)
Definition relax (goal current : pos) (st : search_state) (n : pos)
    : search_state :=
  if bool_decide (n ∈ closed_set st) then st
  else
    let move_cost := calculate_cost current.1 current.2 n.1 n.2 in
    let tentative_g := (node_g (all_nodes st) current + move_cost)%float in
    let skip :=
      match all_nodes st !! n with
      | Some neighbor_node => fge tentative_g (g neighbor_node)
      | None => false
      end in
    if skip then st
    else
      let h' := heuristic n.1 n.2 goal.1 goal.2 in
      let node' := {| g := tentative_g; h := h';
                      f := (tentative_g + h')%float;
                      parent := Some current |} in
      let nodes' := <[n := node']> (all_nodes st) in
      {| open_set := Heapq.heappush (node_lt nodes') (open_set st) n;
         closed_set := closed_set st;
         all_nodes := nodes' |}.

(** The [while open_set] loop of [find_path].  [fuel] bounds the number
    of iterations still allowed; [budget] bounds the parent walk. *)
Fixpoint find_path_loop (fuel budget : nat) (grid : grid_t)
    (blocked : gset pos) (goal : pos) (st : search_state)
    : outcome path_result :=
  match fuel with
  | O => OutOfFuel
  | S fuel' =>
      match Heapq.heappop (node_lt (all_nodes st)) (open_set st) with
      | None => Done no_path
      | Some (current, open') =>
          if bool_decide (current = goal) then
            rpath ← walk_parents budget (all_nodes st) (Some current) [] ;
            let path := reverse rpath in
            Done (path, node_g (all_nodes st) current,
                  (Z.of_nat (length path) - 1)%Z)
          else
            let st1 := {| open_set := open';
                          closed_set := closed_set st ∪ {[current]};
                          all_nodes := all_nodes st |} in
            neighbors ← get_neighbors current grid blocked ;
            find_path_loop fuel' budget grid blocked goal
              (foldl (relax goal current) st1 neighbors)
      end
  end.

(** The state of [find_path] after [n] passes through the loop body
    (or as it was when the goal was popped or the heap ran empty). *)
Fixpoint find_path_iterate (n : nat) (grid : grid_t) (blocked : gset pos)
    (goal : pos) (st : search_state) : outcome search_state :=
  match n with
  | O => Done st
  | S n' =>
      match Heapq.heappop (node_lt (all_nodes st)) (open_set st) with
      | None => Done st
      | Some (current, open') =>
          if bool_decide (current = goal) then Done st
          else
            let st1 := {| open_set := open';
                          closed_set := closed_set st ∪ {[current]};
                          all_nodes := all_nodes st |} in
            neighbors ← get_neighbors current grid blocked;
            find_path_iterate n' grid blocked goal
              (foldl (relax goal current) st1 neighbors)
      end
  end.

(** The state [find_path] enters its loop with: the start node, with
    [h] and [f] set, alone in the heap and in [all_nodes]. *)
Definition find_path_init (start goal : pos) : search_state :=
  let h0 := heuristic start.1 start.2 goal.1 goal.2 in
  let start_node := {| g := fzero; h := h0;
                       f := (fzero + h0)%float; parent := None |} in
  let nodes := {[ start := start_node ]} in
  {| open_set := Heapq.heapify (node_lt nodes) [start];
     closed_set := ∅;
     all_nodes := nodes |}.

(** [find_path(grid, start, goal, blocked=None)] *)
Definition find_path (fuel : nat) (grid : grid_t) (start goal : pos)
    (blocked : option (list pos)) : outcome path_result :=
  let blocked_set := blocked_set_of blocked in
  let rows := rows_of grid in
  if bool_decide (rows = 0%Z) then Done no_path
  else
    row0 ← py_index grid 0 ;
    let cols := Z.of_nat (length row0) in
    if negb (in_bounds rows cols start) then Done no_path
    else if negb (in_bounds rows cols goal) then Done no_path
    else
      start_bad ←
        (if bool_decide (start ∈ blocked_set) then Done true
         else v ← grid_at grid start ; Done (bool_decide (v = 1%Z))) ;
      if start_bad : bool then Done no_path
      else
        goal_bad ←
          (if bool_decide (goal ∈ blocked_set) then Done true
           else v ← grid_at grid goal ; Done (bool_decide (v = 1%Z))) ;
        if goal_bad : bool then Done no_path
        else
          find_path_loop fuel fuel grid blocked_set goal
            (find_path_init start goal).

(** The result of [find_path_with_risk]: path, distance cost, risk
    cost, length. *)
Definition risk_result : Type := (list pos * float * float * Z)%type.

Definition no_path_risk : risk_result := ([], finf, finf, 0%Z).

(** [risk_map[x][y]] *)
Definition risk_at (risk_map : risk_map_t) (p : pos) : outcome float :=
  row ← py_index risk_map p.1; py_index row p.2.

(** [[[0.0 for _ in range(len(grid[0]))] for _ in range(len(grid))]]:
    [grid[0]] is evaluated once per iteration of the outer
    comprehension, [n] counting the iterations left. *)
Fixpoint default_risk_rows (n : nat) (grid : grid_t) : outcome risk_map_t :=
  match n with
  | O => Done []
  | S n' =>
      row0 ← py_index grid 0;
      rest ← default_risk_rows n' grid;
      Done (repeat fzero (length row0) :: rest)
  end.

Definition default_risk_map (grid : grid_t) : outcome risk_map_t :=
  default_risk_rows (length grid) grid.

(** [if risk_map is None: risk_map = ...]: the map the search reads. *)
Definition effective_risk_map (grid : grid_t) (risk_map : option risk_map_t)
    : outcome risk_map_t :=
  match risk_map with
  | None => default_risk_map grid
  | Some rm => Done rm
  end.

(** The closure [risk_heuristic] of [find_path_with_risk]. *)
Definition risk_heuristic (risk_map : risk_map_t) (rows cols : Z)
    (safety_weight : float) (x1 y1 x2 y2 : Z) : outcome float :=
  let base_dist :=
    PrimFloat.sqrt (float_of_Z ((x2 - x1) ^ 2 + (y2 - y1) ^ 2)) in
  avg_risk ←
    (if in_bounds rows cols (x1, y1) && in_bounds rows cols (x2, y2) then
       r1 ← risk_at risk_map (x1, y1);
       r2 ← risk_at risk_map (x2, y2);
       Done ((r1 + r2) / 2)%float
     else Done fzero);
  let risk_penalty := (avg_risk * 10.0)%float in
  Done (base_dist * (1 - safety_weight) + risk_penalty * safety_weight)%float.

(** One pass of the body of [for nx, ny in neighbors] in
    [find_path_with_risk]. *)
Definition relax_risk (risk_map : risk_map_t) (rows cols : Z)
    (safety_weight : float) (goal current : pos)
    (st : search_state) (n : pos) : outcome search_state :=
  if bool_decide (n ∈ closed_set st) then Done st
  else
    let move_cost := calculate_cost current.1 current.2 n.1 n.2 in
    risk_cost ←
      (if in_bounds rows cols n then
         r ← risk_at risk_map n; Done (r * 10.0)%float
       else Done fzero);
    let combined_cost :=
      (move_cost * (1 - safety_weight) + risk_cost * safety_weight)%float in
    let tentative_g := (node_g (all_nodes st) current + combined_cost)%float in
    let skip :=
      match all_nodes st !! n with
      | Some neighbor_node => fge tentative_g (g neighbor_node)
      | None => false
      end in
    if skip then Done st
    else
      h' ← risk_heuristic risk_map rows cols safety_weight n.1 n.2 goal.1 goal.2;
      let node' := {| g := tentative_g; h := h';
                      f := (tentative_g + h')%float;
                      parent := Some current |} in
      let nodes' := <[n := node']> (all_nodes st) in
      Done {| open_set := Heapq.heappush (node_lt nodes') (open_set st) n;
              closed_set := closed_set st;
              all_nodes := nodes' |}.

Fixpoint relax_risk_all (risk_map : risk_map_t) (rows cols : Z)
    (safety_weight : float) (goal current : pos)
    (st : search_state) (neighbors : list pos) : outcome search_state :=
  match neighbors with
  | [] => Done st
  | n :: rest =>
      st' ← relax_risk risk_map rows cols safety_weight goal current st n;
      relax_risk_all risk_map rows cols safety_weight goal current st' rest
  end.

(** The parent walk of [find_path_with_risk], which also accumulates
    [total_risk += risk_map[node.x][node.y]] for in-bounds nodes. *)
Fixpoint walk_parents_risk (n : nat) (risk_map : risk_map_t) (rows cols : Z)
    (nodes : gmap pos Node) (node : option pos)
    (acc : list pos) (total_risk : float) : outcome (list pos * float) :=
  match node with
  | None => Done (acc, total_risk)
  | Some p =>
      match n with
      | O => OutOfFuel
      | S n' =>
          total_risk' ←
            (if in_bounds rows cols p then
               r ← risk_at risk_map p; Done (total_risk + r)%float
             else Done total_risk);
          walk_parents_risk n' risk_map rows cols nodes
            (nodes !! p ≫= parent) (acc ++ [p]) total_risk'
      end
  end.

(** The [while open_set] loop of [find_path_with_risk]. *)
Fixpoint find_path_with_risk_loop (fuel budget : nat) (grid : grid_t)
    (risk_map : risk_map_t) (rows cols : Z) (safety_weight : float)
    (blocked : gset pos) (goal : pos) (st : search_state)
    : outcome risk_result :=
  match fuel with
  | O => OutOfFuel
  | S fuel' =>
      match Heapq.heappop (node_lt (all_nodes st)) (open_set st) with
      | None => Done no_path_risk
      | Some (current, open') =>
          if bool_decide (current = goal) then
            '(rpath, total_risk) ←
              walk_parents_risk budget risk_map rows cols (all_nodes st)
                (Some current) [] fzero;
            let path := reverse rpath in
            Done (path, node_g (all_nodes st) current, total_risk,
                  (Z.of_nat (length path) - 1)%Z)
          else
            let st1 := {| open_set := open';
                          closed_set := closed_set st ∪ {[current]};
                          all_nodes := all_nodes st |} in
            neighbors ← get_neighbors current grid blocked;
            st2 ← relax_risk_all risk_map rows cols safety_weight goal
                    current st1 neighbors;
            find_path_with_risk_loop fuel' budget grid risk_map rows cols
              safety_weight blocked goal st2
      end
  end.

(** [find_path_with_risk(grid, start, goal, risk_map=None, blocked=None,
    safety_weight=0.5)]; the caller passes the default weight itself. *)
Definition find_path_with_risk (fuel : nat) (grid : grid_t) (start goal : pos)
    (risk_map : option risk_map_t) (blocked : option (list pos))
    (safety_weight : float) : outcome risk_result :=
  risk_map ← effective_risk_map grid risk_map;
  let blocked_set := blocked_set_of blocked in
  let rows := rows_of grid in
  if bool_decide (rows = 0%Z) then Done no_path_risk
  else
    row0 ← py_index grid 0;
    let cols := Z.of_nat (length row0) in
    if negb (in_bounds rows cols start) then Done no_path_risk
    else if negb (in_bounds rows cols goal) then Done no_path_risk
    else
      h0 ← risk_heuristic risk_map rows cols safety_weight
              start.1 start.2 goal.1 goal.2;
      let start_node := {| g := fzero; h := h0;
                           f := (fzero + h0)%float; parent := None |} in
      let nodes := {[ start := start_node ]} in
      find_path_with_risk_loop fuel fuel grid risk_map rows cols
        safety_weight blocked_set goal
        {| open_set := Heapq.heapify (node_lt nodes) [start];
           closed_set := ∅;
           all_nodes := nodes |}.

(** ** [round(x, 2)]

    Python's built-in [round] is not part of the repository; it is
    embedded from its documented behaviour on floats: the exact binary
    value is rounded half-to-even to two decimals and the decimal
    result is converted back to the nearest float; infinities and NaN
    are returned unchanged. *)
Definition round_half_even_div (n d : Z) : Z :=
  let q := (n / d)%Z in
  let r := (n mod d)%Z in
  if (d <? 2 * r)%Z then (q + 1)%Z
  else if (2 * r =? d)%Z then (if Z.even q then q else (q + 1)%Z)
  else q.

Definition py_round2 (x : float) : float :=
  match Prim2SF x with
  | S754_finite s m e =>
      if (0 <=? e)%Z then x
      else
        let q := round_half_even_div (Z.pos m * 100) (2 ^ (- e)) in
        match q with
        | Z.pos qm =>
            SF2Prim (SFdiv prec emax (S754_finite s qm 0)
                                     (S754_finite false 100 0))
        | _ => SF2Prim (S754_zero s)
        end
  | _ => x
  end.

(** ** [compare_routes] *)

Record route_entry : Type := mkEntry {
  entry_path : list pos;
  entry_distance : float;
  entry_risk : float;
  entry_length : Z
}.

Record comparison : Type := mkComparison {
  shortest : route_entry;
  safest : route_entry;
  balanced : route_entry
}.

(** The planner methods [compare_routes] calls, as a trace. *)
Inductive call : Type :=
  | CallFindPath
  | CallFindPathWithRisk (safety_weight : float).

(** Truth value of [risk_map] in [if risk_map:]: neither [None] nor
    an empty list. *)
Definition risk_map_truthy (risk_map : option risk_map_t) : bool :=
  match risk_map with
  | None | Some [] => false
  | Some (_ :: _) => true
  end.

(** [len(path) - 1 if path else 0] *)
Definition route_length (path : list pos) : Z :=
  match path with
  | [] => 0%Z
  | _ => (Z.of_nat (length path) - 1)%Z
  end.

(** [compare_routes(grid, start, goal, risk_map=None, blocked=None)];
    the second component lists the planner calls made, in order. *)
Definition compare_routes (fuel : nat) (grid : grid_t) (start goal : pos)
    (risk_map : option risk_map_t) (blocked : option (list pos))
    : outcome (comparison * list call) :=
  '(shortest_path, shortest_cost, _) ← find_path fuel grid start goal blocked;
  '(safest_path, safest_dist, safest_risk, calls1) ←
    (if risk_map_truthy risk_map then
       '(p, d, r, _) ←
         find_path_with_risk fuel grid start goal risk_map blocked 0.8%float;
       Done (p, d, r, [CallFindPathWithRisk 0.8%float])
     else Done (shortest_path, shortest_cost, fzero, []));
  '(balanced_path, balanced_dist, balanced_risk, calls2) ←
    (if risk_map_truthy risk_map then
       '(p, d, r, _) ←
         find_path_with_risk fuel grid start goal risk_map blocked 0.5%float;
       Done (p, d, r, [CallFindPathWithRisk 0.5%float])
     else Done (shortest_path, shortest_cost, fzero, []));
  Done ({| shortest := {| entry_path := shortest_path;
                          entry_distance := py_round2 shortest_cost;
                          entry_risk := fzero;
                          entry_length := route_length shortest_path |};
           safest := {| entry_path := safest_path;
                        entry_distance := py_round2 safest_dist;
                        entry_risk := py_round2 safest_risk;
                        entry_length := route_length safest_path |};
           balanced := {| entry_path := balanced_path;
                          entry_distance := py_round2 balanced_dist;
                          entry_risk := py_round2 balanced_risk;
                          entry_length := route_length balanced_path |} |},
        CallFindPath :: calls1 ++ calls2).

(** ** Vocabulary of the specification *)

(** One 8-connected step: row and column change by at most one, not
    both by zero. *)
Definition eight_connected (p q : pos) : Prop :=
  (Z.abs (q.1 - p.1) ≤ 1)%Z ∧ (Z.abs (q.2 - p.2) ≤ 1)%Z ∧
  ¬ (q.1 = p.1 ∧ q.2 = p.2).

(** A cell the search may step on: in bounds, not blocked, holding 0. *)
Definition traversable (grid : grid_t) (blocked : gset pos) (p : pos) : Prop :=
  in_bounds (rows_of grid) (cols_of grid) p = true ∧
  (p ∉ blocked) ∧ grid_at grid p = Done 0%Z.

(** A cell that passed the validation of [find_path]. *)
Definition admissible (grid : grid_t) (blocked : gset pos) (p : pos) : Prop :=
  in_bounds (rows_of grid) (cols_of grid) p = true ∧
  (∃ v, grid_at grid p = Done v ∧ v ≠ 1%Z) ∧
  (p ∉ blocked).

(** An in-bounds cell that is blocked or holds an obstacle (value 1). *)
Definition obstructed (grid : grid_t) (blocked : gset pos) (p : pos) : Prop :=
  p ∈ blocked ∨ grid_at grid p = Done 1%Z.

(** [p] is one of the cells [_get_neighbors] yields around [q]. *)
Definition neighbor_of (grid : grid_t) (blocked : gset pos) (q p : pos) : Prop :=
  (∃ d, d ∈ directions ∧ p = ((q.1 + d.1)%Z, (q.2 + d.2)%Z)) ∧
  traversable grid blocked p.

(** The edges of a path, and the sum of the per-edge distance costs
    accumulated from the start, in float arithmetic. *)
Definition edges_of (path : list pos) : list (pos * pos) :=
  zip path (tail path).

Definition path_cost (path : list pos) : float :=
  foldl (fun acc e => (acc + calculate_cost e.1.1 e.1.2 e.2.1 e.2.2)%float)
        fzero (edges_of path).

(** The entry [risk_map[x][y]] of a cell, where the map has one. *)
Definition risk_value (risk_map : risk_map_t) (p : pos) : float :=
  match risk_at risk_map p with
  | Done r => r
  | _ => fzero
  end.

(** The unscaled risk of the cells of a path, added up in the order of
    the parent walk (goal first, start last). *)
Definition path_risk (risk_map : risk_map_t) (path : list pos) : float :=
  foldl (fun acc p => (acc + risk_value risk_map p)%float) fzero (reverse path).

(** A risk map all of whose entries are [0.0]. *)
Definition uniformly_zero (risk_map : risk_map_t) : Prop :=
  Forall (Forall (fun r => r = fzero)) risk_map.

(** What every non-empty entry of a comparison is, when the risk map is
    uniformly zero. *)
Definition zero_risk_entry (start goal : pos) (e : route_entry) : Prop :=
  entry_path e ≠ [] →
  head (entry_path e) = Some start ∧ last (entry_path e) = Some goal ∧
  (∀ i p q, entry_path e !! i = Some p → entry_path e !! S i = Some q →
            eight_connected p q) ∧
  entry_risk e = fzero.

(** [chain nodes p l]: following [parent] references from [p] visits
    exactly the cells [l] ([p] first) and ends at a node without
    parent. *)
Inductive chain (nodes : gmap pos Node) : pos → list pos → Prop :=
  | chain_root p n :
      nodes !! p = Some n → parent n = None → chain nodes p [p]
  | chain_link p n q l :
      nodes !! p = Some n → parent n = Some q → chain nodes q l →
      chain nodes p (p :: l).

(** The invariant of both search loops.  [edge_g q p gq gp] is what the
    loop guarantees about the [g] of a node [p] and of its parent [q]. *)
Record search_inv (grid : grid_t) (blocked : gset pos) (start : pos)
    (edge_g : pos → pos → float → float → Prop) (st : search_state) : Prop :=
  mkInv {
    inv_open : ∀ p, p ∈ open_set st → is_Some (all_nodes st !! p);
    inv_root : ∀ p n,
      all_nodes st !! p = Some n → parent n = None →
      p = start ∧ g n = fzero;
    inv_link : ∀ p n q,
      all_nodes st !! p = Some n → parent n = Some q →
      q ∈ closed_set st ∧ neighbor_of grid blocked q p ∧
      ∃ nq, all_nodes st !! q = Some nq ∧ edge_g q p (g nq) (g n);
    inv_chain : ∀ p,
      is_Some (all_nodes st !! p) →
      ∃ l, chain (all_nodes st) p l ∧
           Forall (fun q => q ∈ closed_set st) (tail l)
  }.

(** Cells that can be reached from [start] by neighbour steps. *)
Inductive reachable (grid : grid_t) (blocked : gset pos) (start : pos)
    : pos → Prop :=
  | reach_start : reachable grid blocked start start
  | reach_step q p :
      reachable grid blocked start q → neighbor_of grid blocked q p →
      reachable grid blocked start p.

(** The bookkeeping that makes the searches exhaustive: every neighbour
    of a closed cell has a node (while [current] is being expanded, its
    neighbours still [pending] are excused), and every node is closed
    or still in the heap. *)
Record frontier_inv (grid : grid_t) (blocked : gset pos) (start goal : pos)
    (current : pos) (pending : list pos) (st : search_state) : Prop :=
  mkFrontier {
    fr_start : is_Some (all_nodes st !! start);
    fr_closed : ∀ q, q ∈ closed_set st → is_Some (all_nodes st !! q);
    fr_neighbors : ∀ q p,
      q ∈ closed_set st → neighbor_of grid blocked q p →
      is_Some (all_nodes st !! p) ∨ (q = current ∧ p ∈ pending);
    fr_open : ∀ p,
      is_Some (all_nodes st !! p) → p ∈ closed_set st ∨ p ∈ open_set st;
    fr_goal : goal ∉ closed_set st
  }.

(** The [g] relation of [find_path]: parent's [g] plus the move cost. *)
Definition distance_edge (q p : pos) (gq gp : float) : Prop :=
  gp = (gq + calculate_cost q.1 q.2 p.1 p.2)%float.

(** [find_path_with_risk] promises nothing the proofs below need. *)
Definition any_edge (q p : pos) (gq gp : float) : Prop := True.

(** The state after a node [n] has been created or updated in place
    and pushed on the heap. *)
Definition push_update (st : search_state) (n : pos) (node' : Node)
    : search_state :=
  let nodes' := <[n := node']> (all_nodes st) in
  {| open_set := Heapq.heappush (node_lt nodes') (open_set st) n;
     closed_set := closed_set st;
     all_nodes := nodes' |}.

(** The grid is an R×C matrix: every row is as long as row 0. *)
Definition rectangular (grid : grid_t) : Prop :=
  ∀ row, row ∈ grid → Z.of_nat (length row) = cols_of grid.

(** The risk map has an entry for every cell of the grid. *)
Definition risk_covers (grid : grid_t) (risk_map : risk_map_t) : Prop :=
  ∀ p, in_bounds (rows_of grid) (cols_of grid) p = true →
       ∃ v, risk_at risk_map p = Done v.

(** A risk-map argument that is absent or covers the grid. *)
Definition risk_map_ok (grid : grid_t) (risk_map : option risk_map_t) : Prop :=
  match risk_map with
  | None => True
  | Some rm => risk_covers grid rm
  end.

(** The in-bounds cells, and the two quantities that decrease along
    the search loops: the cells not yet closed, and the heap entries
    that refer to closed cells. *)
Definition all_cells (grid : grid_t) : gset pos :=
  list_to_set (x ← seqZ 0 (rows_of grid);
               (fun y => (x, y)) <$> seqZ 0 (cols_of grid)).

Definition unclosed (grid : grid_t) (st : search_state) : nat :=
  size (all_cells grid ∖ closed_set st).

Definition stale (st : search_state) : nat :=
  length (filter (fun p => p ∈ closed_set st) (open_set st)).

(** Executable versions of [neighbor_of] and of "every step of the path
    is a neighbour step", to check concrete routes. *)
Definition neighbor_of_b (grid : grid_t) (blocked : gset pos) (q p : pos)
    : bool :=
  bool_decide (((p.1 - q.1)%Z, (p.2 - q.2)%Z) ∈ directions) &&
  in_bounds (rows_of grid) (cols_of grid) p &&
  bool_decide (p ∉ blocked) &&
  match grid_at grid p with
  | Done v => bool_decide (v = 0%Z)
  | _ => false
  end.

Fixpoint is_walk_b (grid : grid_t) (blocked : gset pos) (path : list pos)
    : bool :=
  match path with
  | p :: (q :: _) as rest => neighbor_of_b grid blocked p q && is_walk_b grid blocked rest
  | _ => true
  end.

(** The cost [find_path_with_risk] charges for the move from [q] to an
    in-bounds cell [p]: [move_cost * (1 - safety_weight) + risk_cost *
    safety_weight] with [risk_cost = risk_map[p] * 10.0]; and its sum
    along a path, accumulated from the start. *)
Definition combined_cost (risk_map : risk_map_t) (safety_weight : float)
    (q p : pos) : float :=
  (calculate_cost q.1 q.2 p.1 p.2 * (1 - safety_weight) +
   (risk_value risk_map p * 10.0) * safety_weight)%float.

Definition path_combined_cost (risk_map : risk_map_t) (safety_weight : float)
    (path : list pos) : float :=
  foldl (fun acc e => (acc + combined_cost risk_map safety_weight e.1 e.2)%float)
        fzero (edges_of path).

(** The [g] relation of [find_path_with_risk]. *)
Definition risk_edge (risk_map : risk_map_t) (safety_weight : float)
    (q p : pos) (gq gp : float) : Prop :=
  gp = (gq + combined_cost risk_map safety_weight q p)%float.

(** ** The planner methods on their Python arguments

    [start], [goal] and the entries of [blocked] reach the planner as
    Python lists, which it indexes at 0 and 1. *)

(** [l[0], l[1]] *)
Definition endpoint (l : list Z) : outcome pos :=
  x ← py_index l 0; y ← py_index l 1; Done (x, y).

(** [{(b[0], b[1]) for b in blocked}], entry by entry. *)
Fixpoint blocked_entries (blocked : list (list Z)) : outcome (list pos) :=
  match blocked with
  | [] => Done []
  | b :: rest =>
      p ← endpoint b; ps ← blocked_entries rest; Done (p :: ps)
  end.

(** [find_path(grid, start, goal, blocked)] as it is called: the
    entries of [blocked] are indexed first, [start] and [goal] after
    the test for an empty grid. *)
Definition find_path_call (fuel : nat) (grid : grid_t) (start goal : list Z)
    (blocked : option (list (list Z))) : outcome path_result :=
  bs ← blocked_entries (default [] blocked);
  if bool_decide (rows_of grid = 0%Z) then Done no_path
  else
    s ← endpoint start; g ← endpoint goal;
    find_path fuel grid s g (Some bs).

(** [find_path_with_risk(grid, start, goal, risk_map, blocked,
    safety_weight)] as it is called; building the default risk map,
    which comes first, raises nothing. *)
Definition find_path_with_risk_call (fuel : nat) (grid : grid_t)
    (start goal : list Z) (risk_map : option risk_map_t)
    (blocked : option (list (list Z))) (safety_weight : float)
    : outcome risk_result :=
  bs ← blocked_entries (default [] blocked);
  if bool_decide (rows_of grid = 0%Z) then Done no_path_risk
  else
    s ← endpoint start; g ← endpoint goal;
    find_path_with_risk fuel grid s g risk_map (Some bs) safety_weight.

(** ** The route endpoint ([plan_escape_route] in [main.py])

    The handler of [POST /route/astar], the one caller of the planner.
    The JSON payload is taken with the types its docstring gives; a
    field is [None] when [payload.get] returns [None] (key absent or
    null).  The timestamp every dictionary carries is left out. *)
Record route_request : Type := mkRequest {
  req_grid : option grid_t;
  req_start : option (list Z);
  req_goal : option (list Z);
  (** [payload.get("blocked", [])] *)
  req_blocked : option (list (list Z));
  req_risk_map : option risk_map_t;
  (** [None]: the key is absent, and [payload.get] yields 0.5 *)
  req_safety_weight : option float;
  (** truth value of [payload.get("compare_routes", False)] *)
  req_compare_routes : bool
}.

(** The dictionaries the handler returns. *)
Inductive route_response : Type :=
  | RespComparison (c : comparison)
  | RespRiskNoPath
  | RespRisk (path : list pos) (distance risk : float) (length : Z)
             (safety_weight : float)
  | RespNoPath
  | RespPath (path : list pos) (cost : float) (length : Z).

(** How the handler ends: it returns a dictionary, or an
    [HTTPException] with the given status leaves it.  What the
    framework then does with a returned dictionary (it cannot put the
    [float('inf')] of the no-path dictionaries into JSON) is outside
    the handler and not modelled. *)
Inductive handler_result : Type :=
  | Returned (body : route_response)
  | Raised (status : Z).

(** [not x] for a value that is [None] or a list. *)
Definition py_falsy {A} (x : option (list A)) : bool :=
  match x with
  | None | Some [] => true
  | Some (_ :: _) => false
  end.

(** The body of the [try] block.  [Done (inl status)] stands for
    [raise HTTPException(status_code=status)].  Each planner method
    the handler calls indexes the entries of [blocked], then [start]
    and [goal], before anything else of its can raise, the grid being
    non-empty by then. *)
Definition route_body (fuel : nat) (req : route_request)
    : outcome (Z + route_response) :=
  let risk_map := req_risk_map req in
  let safety_weight := default 0.5%float (req_safety_weight req) in
  if py_falsy (req_grid req) || py_falsy (req_start req)
     || py_falsy (req_goal req)
  then Done (inl 400%Z)
  else
    let grid := default [] (req_grid req) in
    bs ← blocked_entries (default [] (req_blocked req));
    let blocked := Some bs in
    start ← endpoint (default [] (req_start req));
    goal ← endpoint (default [] (req_goal req));
    if req_compare_routes req then
      '(c, _) ← compare_routes fuel grid start goal risk_map blocked;
      Done (inr (RespComparison c))
    else if risk_map_truthy risk_map then
      '(path, distance, risk_cost, length) ←
        find_path_with_risk fuel grid start goal risk_map blocked
          safety_weight;
      match path with
      | [] => Done (inr RespRiskNoPath)
      | _ => Done (inr (RespRisk path (py_round2 distance)
                          (py_round2 risk_cost) length safety_weight))
      end
    else
      '(path, cost, length) ← find_path fuel grid start goal blocked;
      match path with
      | [] => Done (inr RespNoPath)
      | _ => Done (inr (RespPath path (py_round2 cost) length))
      end.

(** The handler: [except Exception as e: raise HTTPException(500, ...)]
    catches whatever the body raises, the [HTTPException] of the body
    included, which is an [Exception]. *)
Definition plan_escape_route (fuel : nat) (req : route_request)
    : outcome handler_result :=
  match route_body fuel req with
  | Done (inr body) => Done (Returned body)
  | Done (inl _) => Done (Raised 500)
  | IndexError => Done (Raised 500)
  | OutOfFuel => OutOfFuel
  end.

(** ** Halved floats

    With a risk map that is 0.0 everywhere and safety weight 0.5, the
    costs of [find_path_with_risk] are those of [find_path] with the
    exponent lowered by one. *)
Definition SFhalf (x : spec_float) : spec_float :=
  match x with
  | S754_finite s m e => S754_finite s m (e - 1)
  | _ => x
  end.

(** What [g] can be in [find_path]: 0, or a positive number with a
    53-digit mantissa between 1 and 2^54. *)
Definition g_spec (x : spec_float) : Prop :=
  x = S754_zero false ∨
  ∃ m e, x = S754_finite false m e ∧ Z.pos (digits2_pos m) = 53%Z ∧
         (-52 ≤ e)%Z ∧
         (e ≤ 1 ∨ e = 2 ∧ m = 4503599627370496%positive)%Z.

(** The two move costs, 1.0 and 1.414. *)
Definition move_spec (c : spec_float) : Prop :=
  c = S754_finite false 4503599627370496 (-52) ∨
  c = S754_finite false 6368089873101881 (-52).

(** The values of the heuristic: 0, +infinity, or a positive number
    with a 53-digit mantissa far from the ends of the exponent range. *)
Definition h_spec (x : spec_float) : Prop :=
  x = S754_zero false ∨ x = S754_infinity false ∨
  ∃ m e, x = S754_finite false m e ∧ Z.pos (digits2_pos m) = 53%Z ∧
         (-52 ≤ e ≤ 500)%Z.

(** [x'] is [x] with the exponent lowered by one: exactly half of it. *)
Definition half_of (x x' : float) : Prop :=
  Prim2SF x' = SFhalf (Prim2SF x).

Definition g_value (x : float) : Prop := g_spec (Prim2SF x).

Definition h_value (x : float) : Prop := h_spec (Prim2SF x).

(** The node of a cell in [find_path_with_risk] against its node in
    [find_path]: same parent, [g] and [f] halved. *)
Definition node_half (n n' : Node) : Prop :=
  parent n' = parent n ∧ half_of (g n) (g n') ∧ half_of (f n) (f n') ∧
  g_value (g n).

(** A state of [find_path_with_risk] that mirrors a state of
    [find_path]: same heap list, same closed set, nodes for the same
    cells, each the halved one. *)
Definition halved (st st' : search_state) : Prop :=
  open_set st' = open_set st ∧ closed_set st' = closed_set st ∧
  ∀ p, match all_nodes st !! p, all_nodes st' !! p with
       | Some n, Some n' => node_half n n'
       | None, None => True
       | _, _ => False
       end.

(** ** Concrete inputs used below *)

(** The 5×5 grid without obstacles. *)
Definition grid_5x5_free : grid_t := repeat (repeat 0%Z 5) 5.

(** A 5×5 grid with two obstacle cells in row 1. *)
Definition grid_detour : grid_t :=
  [[0; 0; 0; 0; 0];
   [0; 1; 1; 0; 0];
   [0; 0; 0; 0; 0];
   [0; 0; 0; 0; 0];
   [0; 0; 0; 0; 0]]%Z.

(** A 5×5 grid with obstacles at (1,3) and (4,4). *)
Definition grid_ties : grid_t :=
  [[0; 0; 0; 0; 0];
   [0; 0; 0; 1; 0];
   [0; 0; 0; 0; 0];
   [0; 0; 0; 0; 0];
   [0; 0; 0; 0; 1]]%Z.

(** The 5×5 risk map that is 0.0 everywhere. *)
Definition zero_risk_5x5 : risk_map_t := repeat (repeat fzero 5) 5.

(** A 5×5 risk map with 0.9 on the main diagonal and 0.0 elsewhere. *)
Definition risk_diagonal_5x5 : risk_map_t :=
  map (fun i => map (fun j => if Nat.eqb i j then 0.9%float else fzero) (seq 0 5))
      (seq 0 5).

(** A one-row grid whose first cell is an obstacle. *)
Definition grid_wall_start : grid_t := [[1; 0]]%Z.

(** * Properties *)

(** ** [heapq] keeps the contents of the list *)

Module HeapqFacts.
Section WithLt.
Context {A : Type}.
Variable lt : A → A → bool.

Lemma insert_move_hole (heap : list A) (i j : nat) (x y : A) :
  i ≠ j → i < length heap → heap !! j = Some y →
  <[j := x]> (<[i := y]> heap) ≡ₚ <[i := x]> heap.
Proof.
  intros Hij Hi Hj.
  rewrite <- (list_insert_insert_eq heap i y x).
  apply Permutation_insert_swap.
  - by apply list_lookup_insert_eq.
  - by rewrite list_lookup_insert_ne.
Qed.

Lemma siftdown_loop_perm n heap newitem startpos pos :
  pos < length heap →
  Heapq.siftdown_loop lt n heap newitem startpos pos
    ≡ₚ <[pos := newitem]> heap.
Proof.
  revert heap pos. induction n as [|n IH]; intros heap pos Hpos; cbn [Heapq.siftdown_loop]; [reflexivity|].
  destruct (decide (startpos < pos)) as [Hlt|]; [|reflexivity].
  assert ((pos - 1) / 2 < pos) as Hpar.
  { apply Nat.Div0.div_lt_upper_bound. lia. }
  destruct (heap !! ((pos - 1) / 2)) as [par|] eqn:Hp; [|reflexivity].
  destruct (lt newitem par); [|reflexivity].
  rewrite IH by (rewrite length_insert; lia).
  apply insert_move_hole; [lia|done|done].
Qed.

Lemma siftdown_perm heap startpos pos :
  Heapq.siftdown lt heap startpos pos ≡ₚ heap.
Proof.
  unfold Heapq.siftdown. destruct (heap !! pos) as [x|] eqn:Hx; [|reflexivity].
  rewrite siftdown_loop_perm by eauto using lookup_lt_Some.
  by rewrite list_insert_id.
Qed.

Lemma siftup_loop_perm n heap pos heap' pos' newitem :
  pos < length heap →
  Heapq.siftup_loop lt n heap pos = (heap', pos') →
  <[pos' := newitem]> heap' ≡ₚ <[pos := newitem]> heap.
Proof.
  revert heap pos.
  induction n as [|n IH]; intros heap pos Hpos; cbn [Heapq.siftup_loop].
  { by intros [= <- <-]. }
  destruct (decide (2 * pos + 1 < length heap)) as [Hc|]; [|by intros [= <- <-]].
  set (cp := match heap !! (2 * pos + 1), heap !! (2 * pos + 1 + 1) with
             | Some c, Some r => if negb (lt c r) then 2 * pos + 1 + 1 else 2 * pos + 1
             | _, _ => 2 * pos + 1
             end).
  assert (pos < cp) as Hcp.
  { unfold cp. repeat case_match; lia. }
  destruct (heap !! cp) as [c|] eqn:Hcpl; [|by intros [= <- <-]].
  intros Hrec. apply IH in Hrec.
  - rewrite Hrec. apply insert_move_hole; [lia|done|done].
  - rewrite length_insert. eauto using lookup_lt_Some.
Qed.

Lemma siftup_perm heap pos : Heapq.siftup lt heap pos ≡ₚ heap.
Proof.
  unfold Heapq.siftup. destruct (heap !! pos) as [x|] eqn:Hx; [|reflexivity].
  destruct (Heapq.siftup_loop lt (length heap) heap pos) as [heap' pos'] eqn:Hl.
  rewrite siftdown_perm.
  rewrite (siftup_loop_perm _ _ _ _ _ x (lookup_lt_Some _ _ _ Hx) Hl).
  by rewrite list_insert_id.
Qed.

Lemma heappush_perm heap item : Heapq.heappush lt heap item ≡ₚ item :: heap.
Proof.
  unfold Heapq.heappush. rewrite siftdown_perm.
  by rewrite Permutation_app_comm.
Qed.

Lemma heappop_perm heap item heap' :
  Heapq.heappop lt heap = Some (item, heap') → heap ≡ₚ item :: heap'.
Proof.
  unfold Heapq.heappop.
  destruct (reverse heap) as [|lastelt rest] eqn:Hrev; [done|].
  assert (heap = reverse rest ++ [lastelt]) as ->.
  { rewrite <- (reverse_involutive heap), Hrev. by rewrite reverse_cons. }
  destruct (reverse rest) as [|r0 rs] eqn:Hrest.
  - by intros [= <- <-].
  - intros [= <- <-]. rewrite siftup_perm. simpl.
    f_equiv. by rewrite <- Permutation_cons_append.
Qed.

Lemma heappop_None heap : Heapq.heappop lt heap = None → heap = [].
Proof.
  unfold Heapq.heappop.
  destruct (reverse heap) as [|lastelt rest] eqn:Hrev.
  - intros _. by rewrite <- (reverse_involutive heap), Hrev.
  - by destruct (reverse rest).
Qed.

Lemma heappop_nil : Heapq.heappop lt [] = None.
Proof. done. Qed.

Lemma heapify_singleton x : Heapq.heapify lt [x] = [x].
Proof. done. Qed.

Lemma heappop_singleton x : Heapq.heappop lt [x] = Some (x, []).
Proof. done. Qed.
End WithLt.
End HeapqFacts.

(** ** The invariant of the search loops *)

Section Invariant.
Variables (grid : grid_t) (blocked : gset pos) (start : pos).
Variable edge_g : pos → pos → float → float → Prop.

Local Abbreviation inv := (search_inv grid blocked start edge_g).

Lemma chain_head nodes p l : chain nodes p l → ∃ l', l = p :: l'.
Proof. destruct 1; eauto. Qed.

Lemma chain_is_Some nodes p l : chain nodes p l → is_Some (nodes !! p).
Proof. destruct 1; eauto. Qed.

Lemma chain_agree nodes nodes' p l :
  chain nodes p l →
  (∀ q, q ∈ l → nodes' !! q = nodes !! q) →
  chain nodes' p l.
Proof.
  induction 1 as [p n Hp Hn|p n q l Hp Hn Hc IH]; intros Hag.
  - eapply chain_root; [|done]. rewrite Hag; [done|by left].
  - eapply chain_link; [|done|].
    + rewrite Hag; [done|by left].
    + apply IH. intros r Hr. apply Hag. by right.
Qed.

Lemma chain_functional nodes p l1 l2 :
  chain nodes p l1 → chain nodes p l2 → l1 = l2.
Proof.
  intros H1. revert l2.
  induction H1 as [p n Hp Hn|p n q l Hp Hn Hc IH]; intros l2 H2;
    inversion H2; simplify_eq; [done|].
  f_equal. by apply IH.
Qed.

Lemma inv_init (node0 : Node) :
  parent node0 = None → g node0 = fzero →
  inv {| open_set := [start]; closed_set := ∅;
         all_nodes := {[ start := node0 ]} |}.
Proof.
  intros Hpar Hg. split; simpl.
  - intros p Hp%list_elem_of_singleton. rewrite Hp, lookup_singleton_eq. eauto.
  - intros p n [<- <-]%lookup_singleton_Some. done.
  - intros p n q [<- <-]%lookup_singleton_Some. congruence.
  - intros p [n [<- <-]%lookup_singleton_Some]. exists [start]. split.
    + eapply chain_root; [apply lookup_singleton_eq|done].
    + constructor.
Qed.

Lemma inv_close st current open' :
  inv st → (∀ p, p ∈ open' → p ∈ open_set st) →
  inv {| open_set := open';
         closed_set := closed_set st ∪ {[current]};
         all_nodes := all_nodes st |}.
Proof.
  intros [Ho Hr Hl Hc] Hsub. split; simpl.
  - auto.
  - auto.
  - intros p n q Hp Hn. destruct (Hl p n q Hp Hn) as (? & ? & ?).
    split; [by apply elem_of_union_l|done].
  - intros p Hp. destruct (Hc p Hp) as (l & ? & Hall). exists l. split; [done|].
    eapply Forall_impl; [exact Hall|].
    intros q Hq. by apply elem_of_union_l.
Qed.

Lemma inv_push_update st n node' current nc :
  inv st →
  n ∉ closed_set st →
  current ∈ closed_set st →
  all_nodes st !! current = Some nc →
  parent node' = Some current →
  edge_g current n (g nc) (g node') →
  neighbor_of grid blocked current n →
  inv (push_update st n node').
Proof.
  intros [Ho Hr Hl Hc] Hn Hcur Hnc Hpar Hedge Hnb.
  assert (n ≠ current) as Hne by (intros ->; done).
  split; simpl.
  - intros p Hp.
    rewrite HeapqFacts.heappush_perm in Hp.
    apply elem_of_cons in Hp as [->|Hp].
    + rewrite lookup_insert_eq. eauto.
    + rewrite lookup_insert_is_Some. destruct (decide (n = p)); auto.
  - intros p m Hp Hm. destruct (decide (n = p)) as [->|Hnp].
    + rewrite lookup_insert_eq in Hp. simplify_eq.
    + rewrite lookup_insert_ne in Hp by done. eauto.
  - intros p m q Hp Hm. destruct (decide (n = p)) as [->|Hnp].
    + rewrite lookup_insert_eq in Hp. simplify_eq.
      split; [done|]. split; [done|].
      exists nc. by rewrite lookup_insert_ne.
    + rewrite lookup_insert_ne in Hp by done.
      destruct (Hl p m q Hp Hm) as (Hq & ? & nq & Hnq & ?).
      split; [done|]. split; [done|].
      exists nq. rewrite lookup_insert_ne; [done|]. intros ->. done.
  - assert (∀ p l, chain (all_nodes st) p l → p ≠ n →
              Forall (fun q => q ∈ closed_set st) (tail l) →
              chain (<[n := node']> (all_nodes st)) p l) as Hkeep.
    { intros p l Hch Hpn Hall. eapply chain_agree; [done|].
      intros q Hq. apply lookup_insert_ne. intros <-.
      destruct (chain_head _ _ _ Hch) as [l' ->]. simpl in Hall.
      apply elem_of_cons in Hq as [->|Hq]; [done|].
      rewrite Forall_forall in Hall. by apply Hn, Hall. }
    destruct (Hc current) as (lc & Hlc & Hallc); [eauto|].
    intros p Hp. destruct (decide (n = p)) as [->|Hnp].
    + exists (p :: lc). split.
      * eapply chain_link; [apply lookup_insert_eq|done|].
        apply Hkeep; done.
      * simpl. destruct (chain_head _ _ _ Hlc) as [l' ->].
        constructor; done.
    + rewrite lookup_insert_ne in Hp by done.
      destruct (Hc p Hp) as (l & Hl' & Hall). exists l. split; [|done].
      apply Hkeep; done.
Qed.
(** What the invariant says about the cells met by a parent walk. *)
Lemma chain_last st p l :
  inv st → chain (all_nodes st) p l → last l = Some start.
Proof.
  intros Hinv. induction 1 as [p n Hp Hn|p n q l Hp Hn Hc IH].
  - destruct (inv_root _ _ _ _ _ Hinv p n Hp Hn) as [-> _]. done.
  - destruct (chain_head _ _ _ Hc) as [l' ->].
    by rewrite last_cons_cons.
Qed.

Lemma chain_steps st p l i a b :
  inv st → chain (all_nodes st) p l →
  l !! i = Some a → l !! S i = Some b →
  neighbor_of grid blocked b a.
Proof.
  intros Hinv Hch. revert i.
  induction Hch as [p n Hp Hn|p n q l Hp Hn Hc IH]; intros i Ha Hb.
  - destruct i; done.
  - destruct (chain_head _ _ _ Hc) as [l' ->].
    destruct i as [|i]; simpl in *.
    + simplify_eq. by destruct (inv_link _ _ _ _ _ Hinv a n b Hp Hn) as (_ & ? & _).
    + eapply IH; done.
Qed.

(** The same, read along the reversed walk, which is the path
    returned to the caller. *)
Lemma path_of_chain st p l :
  inv st → chain (all_nodes st) p l →
  head (reverse l) = Some start ∧ last (reverse l) = Some p ∧
  ∀ i a b, reverse l !! i = Some a → reverse l !! S i = Some b →
           neighbor_of grid blocked a b.
Proof.
  intros Hinv Hch. split; [|split].
  - rewrite head_reverse. by eapply chain_last.
  - rewrite last_reverse. by destruct (chain_head _ _ _ Hch) as [l' ->].
  - intros i a b Ha Hb.
    apply reverse_lookup_Some in Ha as [Ha Hi].
    apply reverse_lookup_Some in Hb as [Hb Hi'].
    eapply (chain_steps st p l (length l - S (S i))); [done|done|done|].
    rewrite <- Ha. f_equal. lia.
Qed.

Lemma walk_parents_chain n nodes p l acc :
  chain nodes p l →
  walk_parents n nodes (Some p) acc =
    if decide (length l ≤ n) then Done (acc ++ l) else OutOfFuel.
Proof.
  intros Hch. revert n acc.
  induction Hch as [p m Hp Hm|p m q l Hp Hm Hc IH]; intros [|n] acc; simpl;
    try done.
  - rewrite Hp. simpl. rewrite Hm. by destruct n.
  - rewrite Hp. simpl. rewrite Hm, IH.
    repeat case_decide; try lia; [|done]. by rewrite <- app_assoc.
Qed.
End Invariant.

(** ** Neighbours and path costs *)

Lemma bind_Done {A B} (m : outcome A) (k : A → outcome B) (b : B) :
  m ≫= k = Done b → ∃ a, m = Done a ∧ k a = Done b.
Proof. destruct m; simpl; [eauto|done|done]. Qed.

Lemma in_bounds_spec rows cols (p : pos) :
  in_bounds rows cols p = true ↔
  (0 ≤ p.1 < rows)%Z ∧ (0 ≤ p.2 < cols)%Z.
Proof.
  unfold in_bounds. rewrite !andb_true_iff, !Z.leb_le, !Z.ltb_lt. lia.
Qed.

Lemma get_neighbors_from_spec dirs node grid blocked ns :
  get_neighbors_from dirs node grid blocked = Done ns →
  Forall (fun p =>
            (∃ d, d ∈ dirs ∧ p = ((node.1 + d.1)%Z, (node.2 + d.2)%Z)) ∧
            traversable grid blocked p) ns.
Proof.
  revert ns. induction dirs as [|[dx dy] dirs IH]; intros ns; simpl.
  { intros [= <-]. constructor. }
  intros (keep & Hkeep & (rest & Hrest & [= <-])%bind_Done)%bind_Done.
  assert (Forall (fun p =>
            (∃ d, d ∈ (dx, dy) :: dirs ∧
                  p = ((node.1 + d.1)%Z, (node.2 + d.2)%Z)) ∧
            traversable grid blocked p) rest) as Hrest'.
  { eapply Forall_impl; [exact (IH _ Hrest)|].
    intros p [(d & Hd & ->) Ht]. split; [|done]. exists d. split; [by right|done]. }
  destruct keep; [|done].
  constructor; [|done]. split.
  { exists (dx, dy). split; [by left|done]. }
  destruct (in_bounds _ _ _) eqn:Hib; [|done].
  case_bool_decide as Hbl; [|done].
  apply bind_Done in Hkeep as (v & Hv & [= Hv0]).
  apply bool_decide_eq_true in Hv0 as ->. done.
Qed.

Lemma get_neighbors_spec node grid blocked ns :
  get_neighbors node grid blocked = Done ns →
  Forall (neighbor_of grid blocked node) ns.
Proof. apply get_neighbors_from_spec. Qed.

Lemma neighbor_eight_connected grid blocked q p :
  neighbor_of grid blocked q p → eight_connected q p.
Proof.
  intros [(d & Hd & ->) _]. unfold directions in Hd.
  repeat (apply elem_of_cons in Hd as [->|Hd]);
    try (by apply elem_of_nil in Hd);
    unfold eight_connected; simpl; lia.
Qed.

Lemma edges_of_cons2 (x y : pos) (l : list pos) :
  edges_of (x :: y :: l) = (x, y) :: edges_of (y :: l).
Proof. done. Qed.

Lemma edges_of_snoc (l : list pos) (q p : pos) :
  edges_of ((l ++ [q]) ++ [p]) = edges_of (l ++ [q]) ++ [(q, p)].
Proof.
  induction l as [|x l IH]; [done|].
  destruct l as [|y l]; [done|].
  change (edges_of (x :: y :: (l ++ [q]) ++ [p]) =
          edges_of (x :: y :: l ++ [q]) ++ [(q, p)]).
  rewrite !edges_of_cons2. simpl. f_equal. exact IH.
Qed.

Lemma path_cost_snoc (l : list pos) (q p : pos) :
  path_cost ((l ++ [q]) ++ [p]) =
  (path_cost (l ++ [q]) + calculate_cost q.1 q.2 p.1 p.2)%float.
Proof. unfold path_cost. by rewrite edges_of_snoc, foldl_snoc. Qed.

(** Along a parent walk of [find_path], [g] is the accumulated cost of
    the path walked backwards. *)
Lemma chain_cost grid blocked start st p l :
  search_inv grid blocked start distance_edge st →
  chain (all_nodes st) p l →
  node_g (all_nodes st) p = path_cost (reverse l).
Proof.
  intros Hinv. induction 1 as [p n Hp Hn|p n q l Hp Hn Hc IH].
  - destruct (inv_root _ _ _ _ _ Hinv p n Hp Hn) as [_ Hg].
    unfold node_g. by rewrite Hp, Hg.
  - destruct (inv_link _ _ _ _ _ Hinv p n q Hp Hn) as (_ & _ & nq & Hq & Hg).
    destruct (chain_head _ _ _ Hc) as [l' ->].
    rewrite !reverse_cons, path_cost_snoc, <- reverse_cons, <- IH.
    unfold node_g. rewrite Hp, Hq. exact Hg.
Qed.

(** ** Soundness of the loop of [find_path] *)

Section FindPathLoop.
Variables (grid : grid_t) (blocked : gset pos) (start goal : pos).

Local Abbreviation inv := (search_inv grid blocked start distance_edge).

Lemma relax_eq current st n :
  relax goal current st n = st ∧
    (n ∈ closed_set st ∨ is_Some (all_nodes st !! n)) ∨
  (n ∉ closed_set st) ∧
  ∃ node', parent node' = Some current ∧
           g node' = (node_g (all_nodes st) current +
                      calculate_cost current.1 current.2 n.1 n.2)%float ∧
           relax goal current st n = push_update st n node'.
Proof.
  unfold relax. case_bool_decide as Hcl; [left; auto|].
  destruct (all_nodes st !! n) as [neighbor_node|] eqn:Hn.
  - destruct (fge _ _); [left; eauto|].
    right. split; [done|]. eexists. split; [|split]; [| |reflexivity]; done.
  - right. split; [done|]. eexists. split; [|split]; [| |reflexivity]; done.
Qed.

Lemma relax_inv current nc st n :
  inv st → current ∈ closed_set st →
  all_nodes st !! current = Some nc →
  neighbor_of grid blocked current n →
  inv (relax goal current st n) ∧
  closed_set (relax goal current st n) = closed_set st ∧
  all_nodes (relax goal current st n) !! current = Some nc.
Proof.
  intros Hinv Hcur Hnc Hnb.
  destruct (relax_eq current st n) as [[-> _]|(Hn & node' & Hpar & Hg & ->)];
    [done|].
  split; [|split].
  - eapply inv_push_update; try done.
    unfold distance_edge. rewrite Hg. unfold node_g. by rewrite Hnc.
  - done.
  - simpl. rewrite lookup_insert_ne; [done|]. by intros ->.
Qed.

Lemma relax_all_inv current nc neighbors st :
  inv st → current ∈ closed_set st →
  all_nodes st !! current = Some nc →
  Forall (neighbor_of grid blocked current) neighbors →
  inv (foldl (relax goal current) st neighbors).
Proof.
  intros Hinv Hcur Hnc Hall. revert st Hinv Hcur Hnc.
  induction Hall as [|n ns Hn Hns IH]; intros st Hinv Hcur Hnc; [done|].
  simpl. destruct (relax_inv current nc st n) as (? & Hcl & ?); try done.
  apply IH; [done| |done]. by rewrite Hcl.
Qed.

Lemma find_path_loop_sound fuel budget st path cost len :
  inv st →
  find_path_loop fuel budget grid blocked goal st = Done (path, cost, len) →
  path ≠ [] →
  ∃ st' l, inv st' ∧ chain (all_nodes st') goal l ∧
           path = reverse l ∧ cost = node_g (all_nodes st') goal ∧
           len = (Z.of_nat (length path) - 1)%Z.
Proof.
  revert st. induction fuel as [|fuel IH]; intros st Hinv; simpl; [done|].
  destruct (Heapq.heappop _ _) as [[current open']|] eqn:Hpop.
  2:{ intros [= <- <- <-]. done. }
  apply HeapqFacts.heappop_perm in Hpop.
  assert (current ∈ open_set st) as Hcur by (rewrite Hpop; by left).
  destruct (inv_open _ _ _ _ _ Hinv current Hcur) as [nc Hnc].
  case_bool_decide as Hgoal.
  - subst current. intros (rpath & Hwalk & Heq)%bind_Done Hne.
    destruct (inv_chain _ _ _ _ _ Hinv goal) as (l & Hl & _); [eauto|].
    rewrite (walk_parents_chain _ _ _ l) in Hwalk by done.
    case_decide; [|done]. injection Hwalk as <-. injection Heq as <- <- <-.
    exists st, l. done.
  - intros (neighbors & Hnb & Hrec)%bind_Done Hne.
    apply get_neighbors_spec in Hnb.
    eapply IH; [|exact Hrec|done].
    eapply relax_all_inv; simpl; [..|exact Hnb].
    + apply inv_close; [done|]. intros p Hp. rewrite Hpop. by right.
    + apply elem_of_union_r. by apply elem_of_singleton.
    + done.
Qed.
End FindPathLoop.

(** ** [find_path] as a whole *)

Lemma py_index_0 {A} (l : list A) (x : A) :
  py_index l 0 = Done x → ∃ l', l = x :: l'.
Proof.
  unfold py_index. simpl. destruct l as [|y l']; simpl; [done|].
  intros [= ->]. eauto.
Qed.

Lemma traversable_admissible grid blocked p :
  traversable grid blocked p → admissible grid blocked p.
Proof. intros (? & ? & ?). split; [done|]. split; [|done]. by exists 0%Z. Qed.

Lemma find_path_cases fuel grid start goal blocked path cost len :
  find_path fuel grid start goal blocked = Done (path, cost, len) →
  path = [] ∧ ¬ (admissible grid (blocked_set_of blocked) start ∧
                 admissible grid (blocked_set_of blocked) goal) ∨
  admissible grid (blocked_set_of blocked) start ∧
  admissible grid (blocked_set_of blocked) goal ∧
  ∃ node0, parent node0 = None ∧ g node0 = fzero ∧
    find_path_loop fuel fuel grid (blocked_set_of blocked) goal
      {| open_set := [start]; closed_set := ∅;
         all_nodes := {[ start := node0 ]} |} = Done (path, cost, len).
Proof.
  unfold find_path. intros Hfp.
  case_bool_decide as Hrows.
  { left. split; [by simplify_eq|]. intros [(Hib & _) _].
    apply in_bounds_spec in Hib. lia. }
  apply bind_Done in Hfp as (row0 & Hrow0 & Hfp).
  apply py_index_0 in Hrow0 as [rest ->].
  change (Z.of_nat (length row0)) with (cols_of (row0 :: rest)) in Hfp.
  destruct (in_bounds _ _ start) eqn:Hbs; cbn [negb] in Hfp.
  2:{ left. split; [by simplify_eq|]. intros [(Hib & _) _]. congruence. }
  destruct (in_bounds _ _ goal) eqn:Hbg; cbn [negb] in Hfp.
  2:{ left. split; [by simplify_eq|]. intros [_ (Hib & _)]. congruence. }
  apply bind_Done in Hfp as (start_bad & Hsb & Hfp).
  assert (start_bad = true → ¬ admissible (row0 :: rest)
            (blocked_set_of blocked) start) as Hsbad.
  { intros -> (_ & (v & Hv & Hv1) & Hbl). case_bool_decide; [done|].
    rewrite Hv in Hsb. simpl in Hsb. injection Hsb as Hsb.
    by apply bool_decide_eq_true in Hsb. }
  destruct start_bad.
  { left. split; [by simplify_eq|]. intros [? _]. by apply Hsbad. }
  apply bind_Done in Hfp as (goal_bad & Hgb & Hfp).
  assert (goal_bad = true → ¬ admissible (row0 :: rest)
            (blocked_set_of blocked) goal) as Hgbad.
  { intros -> (_ & (v & Hv & Hv1) & Hbl). case_bool_decide; [done|].
    rewrite Hv in Hgb. simpl in Hgb. injection Hgb as Hgb.
    by apply bool_decide_eq_true in Hgb. }
  destruct goal_bad.
  { left. split; [by simplify_eq|]. intros [_ ?]. by apply Hgbad. }
  right.
  case_bool_decide as Hs; [done|].
  case_bool_decide as Hg; [done|].
  apply bind_Done in Hsb as (vs & Hvs & [= Hvs1]).
  apply bind_Done in Hgb as (vg & Hvg & [= Hvg1]).
  apply bool_decide_eq_false in Hvs1, Hvg1.
  split; [|split].
  - split; [done|]. split; [eauto|done].
  - split; [done|]. split; [eauto|done].
  - eexists. split; [|split]; [| |exact Hfp]; done.
Qed.

Lemma find_path_enters_loop fuel grid start goal blocked path cost len :
  find_path fuel grid start goal blocked = Done (path, cost, len) →
  path ≠ [] →
  admissible grid (blocked_set_of blocked) start ∧
  admissible grid (blocked_set_of blocked) goal ∧
  ∃ node0, parent node0 = None ∧ g node0 = fzero ∧
    find_path_loop fuel fuel grid (blocked_set_of blocked) goal
      {| open_set := [start]; closed_set := ∅;
         all_nodes := {[ start := node0 ]} |} = Done (path, cost, len).
Proof.
  intros Hfp Hne. by destruct (find_path_cases _ _ _ _ _ _ _ _ Hfp) as [[? _]|?].
Qed.

(** Everything the search guarantees about a non-empty result. *)
Lemma find_path_sound fuel grid start goal blocked path cost len :
  find_path fuel grid start goal blocked = Done (path, cost, len) →
  path ≠ [] →
  head path = Some start ∧ last path = Some goal ∧
  (∀ i p q, path !! i = Some p → path !! S i = Some q →
            neighbor_of grid (blocked_set_of blocked) p q) ∧
  admissible grid (blocked_set_of blocked) start ∧
  cost = path_cost path ∧
  len = (Z.of_nat (length path) - 1)%Z.
Proof.
  intros Hfp Hne.
  destruct (find_path_enters_loop _ _ _ _ _ _ _ _ Hfp Hne)
    as (Hs & Hg & node0 & Hpar & Hg0 & Hloop).
  eapply find_path_loop_sound in Hloop as (st' & l & Hinv & Hch & -> & -> & ->);
    [|by apply inv_init|done].
  destruct (path_of_chain _ _ _ _ _ _ _ Hinv Hch) as (Hhd & Hlast & Hsteps).
  do 4 (split; [done|]). split; [by eapply chain_cost|done].
Qed.

Lemma path_cells_admissible grid blocked start path :
  head path = Some start →
  admissible grid blocked start →
  (∀ i p q, path !! i = Some p → path !! S i = Some q →
            neighbor_of grid blocked p q) →
  ∀ p, p ∈ path → admissible grid blocked p.
Proof.
  intros Hhd Hs Hsteps p [i Hi]%list_elem_of_lookup.
  destruct i as [|i].
  - rewrite head_lookup in Hhd. by simplify_eq.
  - destruct (path !! i) as [q|] eqn:Hq.
    + apply traversable_admissible. by destruct (Hsteps i q p Hq Hi).
    + apply lookup_ge_None in Hq. apply lookup_lt_Some in Hi. lia.
Qed.

(** C5: every non-empty path returned by [find_path] moves by single
    8-connected steps, stays on in-bounds cells that are neither
    obstacles (grid value 1) nor blocked, and the returned total cost
    is exactly the sum of the per-edge distance costs along the path. *)
Theorem find_path_path_valid fuel grid start goal blocked path cost len :
  find_path fuel grid start goal blocked = Done (path, cost, len) →
  path ≠ [] →
  (∀ i p q, path !! i = Some p → path !! S i = Some q → eight_connected p q) ∧
  (∀ p, p ∈ path →
     in_bounds (rows_of grid) (cols_of grid) p = true ∧
     (∃ v, grid_at grid p = Done v ∧ v ≠ 1%Z) ∧
     p ∉ blocked_set_of blocked) ∧
  cost = path_cost path.
Proof.
  intros Hfp Hne.
  destruct (find_path_sound _ _ _ _ _ _ _ _ Hfp Hne)
    as (Hhd & _ & Hsteps & Hs & Hcost & _).
  split; [|split; [|done]].
  - intros i p q Hp Hq. eapply neighbor_eight_connected, Hsteps; done.
  - intros p Hp. eapply path_cells_admissible; done.
Qed.

(** ** Soundness of the loop of [find_path_with_risk] *)

Section RiskLoop.
Variables (grid : grid_t) (blocked : gset pos) (start goal : pos).
Variables (risk_map : risk_map_t) (safety_weight : float).

Local Abbreviation inv := (search_inv grid blocked start any_edge).
Local Abbreviation rows := (rows_of grid).
Local Abbreviation cols := (cols_of grid).

Lemma relax_risk_eq current st n st' :
  relax_risk risk_map rows cols safety_weight goal current st n = Done st' →
  st' = st ∧ (n ∈ closed_set st ∨ is_Some (all_nodes st !! n)) ∨
  (n ∉ closed_set st) ∧
  ∃ node', parent node' = Some current ∧ st' = push_update st n node'.
Proof.
  unfold relax_risk. case_bool_decide as Hcl; [intros [= <-]; left; auto|].
  intros (risk_cost & _ & Hrest)%bind_Done.
  destruct (all_nodes st !! n) as [neighbor_node|] eqn:Hn.
  - destruct (fge _ _); [injection Hrest as <-; left; eauto|].
    apply bind_Done in Hrest as (h' & _ & [= <-]).
    right. split; [done|]. eexists. split; [|reflexivity]. done.
  - apply bind_Done in Hrest as (h' & _ & [= <-]).
    right. split; [done|]. eexists. split; [|reflexivity]. done.
Qed.

Lemma relax_risk_inv current nc st n st' :
  inv st → current ∈ closed_set st →
  all_nodes st !! current = Some nc →
  neighbor_of grid blocked current n →
  relax_risk risk_map rows cols safety_weight goal current st n = Done st' →
  inv st' ∧ closed_set st' = closed_set st ∧
  all_nodes st' !! current = Some nc.
Proof.
  intros Hinv Hcur Hnc Hnb Hrel.
  destruct (relax_risk_eq _ _ _ _ Hrel) as [[-> _]|(Hn & node' & Hpar & ->)];
    [done|].
  split; [|split].
  - eapply inv_push_update; done.
  - done.
  - simpl. rewrite lookup_insert_ne; [done|]. by intros ->.
Qed.

Lemma relax_risk_all_inv current nc neighbors st st' :
  inv st → current ∈ closed_set st →
  all_nodes st !! current = Some nc →
  Forall (neighbor_of grid blocked current) neighbors →
  relax_risk_all risk_map rows cols safety_weight goal current st neighbors
    = Done st' →
  inv st'.
Proof.
  intros Hinv Hcur Hnc Hall. revert st Hinv Hcur Hnc.
  induction Hall as [|n ns Hn Hns IH]; intros st Hinv Hcur Hnc; simpl.
  { by intros [= <-]. }
  intros (st1 & Hst1 & Hrest)%bind_Done.
  destruct (relax_risk_inv current nc st n st1) as (? & Hcl & ?); try done.
  eapply IH; [done| |done|done]. by rewrite Hcl.
Qed.

Lemma walk_parents_risk_chain n nodes p l acc total r total' :
  chain nodes p l →
  Forall (fun q => in_bounds rows cols q = true) l →
  walk_parents_risk n risk_map rows cols nodes (Some p) acc total
    = Done (r, total') →
  r = acc ++ l ∧
  total' = foldl (fun t q => (t + risk_value risk_map q)%float) total l ∧
  Forall (fun q => ∃ v, risk_at risk_map q = Done v) l.
Proof.
  intros Hch. revert n acc total r total'.
  induction Hch as [p m Hp Hm|p m q l Hp Hm Hc IH];
    intros [|n] acc total r total' Hib; simpl; try done;
    rewrite Hp; simpl; rewrite Hm;
    inversion Hib as [|? ? Hibp Hibl]; subst; rewrite Hibp;
    intros (t1 & (v & Hv & [= <-])%bind_Done & Hrest)%bind_Done.
  - assert (r = acc ++ [p] ∧ total' = (total + v)%float) as [-> ->].
    { destruct n; simpl in Hrest; by injection Hrest as <- <-. }
    simpl. unfold risk_value. rewrite Hv. eauto.
  - apply IH in Hrest as (-> & -> & Hall); [|done].
    assert (risk_value risk_map p = v) as Hrv.
    { unfold risk_value. by rewrite Hv. }
    rewrite <- app_assoc. simpl. rewrite Hrv.
    split; [done|]. split; [done|]. constructor; eauto.
Qed.

Lemma find_path_with_risk_loop_sound fuel budget st path dist risk len :
  inv st →
  in_bounds rows cols start = true →
  find_path_with_risk_loop fuel budget grid risk_map rows cols
    safety_weight blocked goal st = Done (path, dist, risk, len) →
  path ≠ [] →
  ∃ st' l, inv st' ∧ chain (all_nodes st') goal l ∧ path = reverse l ∧
           risk = path_risk risk_map path ∧
           Forall (fun q => ∃ v, risk_at risk_map q = Done v) path.
Proof.
  intros Hinv Hstart. revert st Hinv.
  induction fuel as [|fuel IH]; intros st Hinv; simpl; [done|].
  destruct (Heapq.heappop _ _) as [[current open']|] eqn:Hpop.
  2:{ intros [= <- <- <- <-]. done. }
  apply HeapqFacts.heappop_perm in Hpop.
  assert (current ∈ open_set st) as Hcur by (rewrite Hpop; by left).
  destruct (inv_open _ _ _ _ _ Hinv current Hcur) as [nc Hnc].
  case_bool_decide as Hgoal.
  - subst current. intros ([rpath total] & Hwalk & Heq)%bind_Done Hne.
    destruct (inv_chain _ _ _ _ _ Hinv goal) as (l & Hl & _); [eauto|].
    destruct (path_of_chain _ _ _ _ _ _ _ Hinv Hl) as (Hhd & _ & Hsteps).
    apply (walk_parents_risk_chain _ _ _ l) in Hwalk as (Hr & Ht & Hall);
      [|done|].
    + simpl in Hr. subst rpath total. injection Heq as <- <- <- <-.
      exists st, l. unfold path_risk. rewrite reverse_involutive.
      do 4 (split; [done|]). by apply Forall_reverse.
    + rewrite <- (reverse_involutive l). apply Forall_reverse, Forall_forall.
      intros q [i Hi]%list_elem_of_lookup. destruct i as [|i].
      * rewrite head_lookup in Hhd. by simplify_eq.
      * destruct (reverse l !! i) as [q'|] eqn:Hq'.
        -- by destruct (Hsteps i q' q Hq' Hi) as (_ & ? & _).
        -- apply lookup_ge_None in Hq'. apply lookup_lt_Some in Hi. lia.
  - intros (neighbors & Hnb & (st2 & Hst2 & Hrec)%bind_Done)%bind_Done Hne.
    apply get_neighbors_spec in Hnb.
    eapply IH; [|exact Hrec|done].
    eapply relax_risk_all_inv; [..|exact Hnb|exact Hst2]; simpl.
    + apply inv_close; [done|]. intros p Hp. rewrite Hpop. by right.
    + apply elem_of_union_r. by apply elem_of_singleton.
    + done.
Qed.
End RiskLoop.

Lemma find_path_path_valid_witness :
  find_path 100 grid_detour (4, 3)%Z (0, 1)%Z (Some [(3, 2)%Z])
    = Done ([(4, 3); (3, 3); (2, 3); (1, 3); (0, 2); (0, 1)]%Z,
            5.414%float, 5%Z) ∧
  (∀ i p q,
     [(4, 3); (3, 3); (2, 3); (1, 3); (0, 2); (0, 1)]%Z !! i = Some p →
     [(4, 3); (3, 3); (2, 3); (1, 3); (0, 2); (0, 1)]%Z !! S i = Some q →
     eight_connected p q) ∧
  (∀ p, p ∈ [(4, 3); (3, 3); (2, 3); (1, 3); (0, 2); (0, 1)]%Z →
     in_bounds (rows_of grid_detour) (cols_of grid_detour) p = true ∧
     (∃ v, grid_at grid_detour p = Done v ∧ v ≠ 1%Z) ∧
     p ∉ blocked_set_of (Some [(3, 2)%Z])) ∧
  5.414%float
    = path_cost [(4, 3); (3, 3); (2, 3); (1, 3); (0, 2); (0, 1)]%Z.
Proof.
  split; [vm_compute; reflexivity|].
  apply (find_path_path_valid 100 grid_detour (4, 3)%Z (0, 1)%Z
           (Some [(3, 2)%Z]) _ 5.414%float 5%Z);
    [vm_compute; reflexivity|done].
Defined.

(** ** [find_path_with_risk] as a whole *)

Lemma find_path_with_risk_cases fuel grid start goal risk_map blocked
    safety_weight path dist risk len :
  find_path_with_risk fuel grid start goal risk_map blocked safety_weight
    = Done (path, dist, risk, len) →
  path = [] ∧ ¬ (in_bounds (rows_of grid) (cols_of grid) start = true ∧
                 in_bounds (rows_of grid) (cols_of grid) goal = true) ∨
  in_bounds (rows_of grid) (cols_of grid) start = true ∧
  in_bounds (rows_of grid) (cols_of grid) goal = true ∧
  ∃ rm node0,
    effective_risk_map grid risk_map = Done rm ∧
    parent node0 = None ∧ g node0 = fzero ∧
    find_path_with_risk_loop fuel fuel grid rm (rows_of grid) (cols_of grid)
      safety_weight (blocked_set_of blocked) goal
      {| open_set := [start]; closed_set := ∅;
         all_nodes := {[ start := node0 ]} |} = Done (path, dist, risk, len).
Proof.
  unfold find_path_with_risk. intros Hfp.
  apply bind_Done in Hfp as (rm & Hrm & Hfp).
  case_bool_decide as Hrows.
  { left. split; [by simplify_eq|]. intros [Hib _].
    apply in_bounds_spec in Hib. lia. }
  apply bind_Done in Hfp as (row0 & Hrow0 & Hfp).
  apply py_index_0 in Hrow0 as [rest ->].
  change (Z.of_nat (length row0)) with (cols_of (row0 :: rest)) in Hfp.
  destruct (in_bounds _ _ start) eqn:Hbs; cbn [negb] in Hfp.
  2:{ left. split; [by simplify_eq|]. by intros [? _]. }
  destruct (in_bounds _ _ goal) eqn:Hbg; cbn [negb] in Hfp.
  2:{ left. split; [by simplify_eq|]. by intros [_ ?]. }
  apply bind_Done in Hfp as (h0 & _ & Hfp).
  right. do 2 (split; [done|]). exists rm. eexists. split; [done|].
  split; [|split]; [| |exact Hfp]; done.
Qed.

Lemma find_path_with_risk_enters_loop fuel grid start goal risk_map blocked
    safety_weight path dist risk len :
  find_path_with_risk fuel grid start goal risk_map blocked safety_weight
    = Done (path, dist, risk, len) →
  path ≠ [] →
  ∃ rm node0,
    effective_risk_map grid risk_map = Done rm ∧
    in_bounds (rows_of grid) (cols_of grid) start = true ∧
    parent node0 = None ∧ g node0 = fzero ∧
    find_path_with_risk_loop fuel fuel grid rm (rows_of grid) (cols_of grid)
      safety_weight (blocked_set_of blocked) goal
      {| open_set := [start]; closed_set := ∅;
         all_nodes := {[ start := node0 ]} |} = Done (path, dist, risk, len).
Proof.
  intros Hfp Hne.
  destruct (find_path_with_risk_cases _ _ _ _ _ _ _ _ _ _ _ Hfp)
    as [[? _]|(? & ? & rm & node0 & ? & ? & ? & ?)]; [done|].
  by exists rm, node0.
Qed.

Lemma find_path_with_risk_sound fuel grid start goal risk_map blocked
    safety_weight path dist risk len :
  find_path_with_risk fuel grid start goal risk_map blocked safety_weight
    = Done (path, dist, risk, len) →
  path ≠ [] →
  ∃ rm, effective_risk_map grid risk_map = Done rm ∧
        head path = Some start ∧ last path = Some goal ∧
        (∀ i p q, path !! i = Some p → path !! S i = Some q →
                  neighbor_of grid (blocked_set_of blocked) p q) ∧
        Forall (fun q => ∃ v, risk_at rm q = Done v) path ∧
        risk = path_risk rm path.
Proof.
  intros Hfp Hne.
  destruct (find_path_with_risk_enters_loop _ _ _ _ _ _ _ _ _ _ _ Hfp Hne)
    as (rm & node0 & Hrm & Hbs & Hpar & Hg0 & Hloop).
  eapply find_path_with_risk_loop_sound in Hloop
    as (st' & l & Hinv & Hch & -> & -> & Hall);
    [|by apply inv_init|done|done].
  destruct (path_of_chain _ _ _ _ _ _ _ Hinv Hch) as (Hhd & Hlast & Hsteps).
  exists rm. do 4 (split; [done|]). done.
Qed.

(** The map [find_path_with_risk] reads is the caller's, or the
    all-zero default when the caller gave none. *)
Lemma effective_risk_map_cases grid risk_map rm :
  effective_risk_map grid risk_map = Done rm →
  risk_map = Some rm ∨ risk_map = None ∧ default_risk_map grid = Done rm.
Proof. destruct risk_map as [rm0|]; simpl; [intros [= ->]|]; eauto. Qed.

(** C7: the [risk_cost] returned with a non-empty path is the sum of
    the unscaled entries of the caller's [risk_map] (of the all-zero
    default map when the caller gave none) at all cells of that path,
    start and goal included, added up in the order of the parent walk;
    every cell of the path has an entry in that map. *)
Theorem find_path_with_risk_total_risk fuel grid start goal risk_map blocked
    safety_weight path dist risk len :
  find_path_with_risk fuel grid start goal risk_map blocked safety_weight
    = Done (path, dist, risk, len) →
  path ≠ [] →
  ∃ rm, (risk_map = Some rm ∨
         risk_map = None ∧ default_risk_map grid = Done rm) ∧
        head path = Some start ∧ last path = Some goal ∧
        (∀ p, p ∈ path → ∃ v, risk_at rm p = Done v) ∧
        risk = path_risk rm path.
Proof.
  intros Hfp Hne.
  destruct (find_path_with_risk_sound _ _ _ _ _ _ _ _ _ _ _ Hfp Hne)
    as (rm & Hrm & Hhd & Hlast & _ & Hall & Hrisk).
  exists rm. split; [by apply effective_risk_map_cases|].
  do 2 (split; [done|]). split; [|done].
  by apply Forall_forall.
Qed.

(** On the free 5×5 grid with risk 0.9 on the diagonal and weight 0.8
    the route leaves the diagonal after (0,0) and meets it again at
    (4,4): the risk returned is 0.9 + 0.9 = 1.8. *)
Lemma find_path_with_risk_total_risk_witness :
  find_path_with_risk 100 grid_5x5_free (0, 0)%Z (4, 4)%Z
    (Some risk_diagonal_5x5) None 0.8%float
    = Done ([(0, 0); (0, 1); (1, 2); (2, 3); (3, 4); (4, 4)]%Z,
            8.4483999999999995%float, 1.8%float, 5%Z) ∧
  [(0, 0); (0, 1); (1, 2); (2, 3); (3, 4); (4, 4)]%Z ≠ [] ∧
  ∃ rm, (Some risk_diagonal_5x5 = Some rm ∨
         Some risk_diagonal_5x5 = None ∧
         default_risk_map grid_5x5_free = Done rm) ∧
        head [(0, 0); (0, 1); (1, 2); (2, 3); (3, 4); (4, 4)]%Z
          = Some (0, 0)%Z ∧
        last [(0, 0); (0, 1); (1, 2); (2, 3); (3, 4); (4, 4)]%Z
          = Some (4, 4)%Z ∧
        (∀ p, p ∈ [(0, 0); (0, 1); (1, 2); (2, 3); (3, 4); (4, 4)]%Z →
              ∃ v, risk_at rm p = Done v) ∧
        1.8%float
          = path_risk rm [(0, 0); (0, 1); (1, 2); (2, 3); (3, 4); (4, 4)]%Z.
Proof.
  split; [vm_compute; reflexivity|]. split; [done|].
  apply (find_path_with_risk_total_risk 100 grid_5x5_free (0, 0)%Z (4, 4)%Z
           (Some risk_diagonal_5x5) None 0.8%float _
           8.4483999999999995%float 1.8%float 5%Z);
    [vm_compute; reflexivity|done].
Defined.

(** ** Degenerate searches *)

(** C8: with start = goal = p on a traversable cell (in bounds, free,
    not blocked) [find_path] returns the one-cell path [p], cost 0 and
    length 0 (one loop iteration suffices). *)
Theorem find_path_start_is_goal fuel grid p blocked :
  traversable grid (blocked_set_of blocked) p →
  find_path (S fuel) grid p p blocked = Done ([p], fzero, 0%Z).
Proof.
  intros (Hib & Hbl & Hfree). unfold find_path.
  destruct grid as [|row0 rest].
  { unfold in_bounds, rows_of in Hib. simpl in Hib.
    apply andb_true_iff in Hib as [[[H0 Hlt]%andb_true_iff _]%andb_true_iff _].
    apply Z.leb_le in H0. apply Z.ltb_lt in Hlt. lia. }
  rewrite bool_decide_eq_false_2 by (unfold rows_of; simpl; lia).
  change (py_index (row0 :: rest) 0) with (Done (A:=list Z) row0).
  cbn [mbind outcome_bind obind].
  change (Z.of_nat (length row0)) with (cols_of (row0 :: rest)).
  rewrite Hib. cbn [negb].
  rewrite (bool_decide_eq_false_2 _ Hbl), Hfree.
  cbn [mbind outcome_bind obind].
  rewrite bool_decide_eq_false_2 by done.
  unfold find_path_init. cbn [mbind outcome_bind obind find_path_loop].
  rewrite HeapqFacts.heapify_singleton.
  cbn [open_set all_nodes]. rewrite HeapqFacts.heappop_singleton.
  rewrite bool_decide_eq_true_2 by done.
  cbn [walk_parents]. rewrite lookup_singleton_eq.
  cbn [mbind option_bind parent walk_parents outcome_bind obind].
  unfold node_g. rewrite lookup_singleton_eq. by destruct fuel.
Qed.

Lemma find_path_start_is_goal_witness :
  find_path 1 grid_5x5_free (2, 3)%Z (2, 3)%Z None
    = Done ([(2, 3)%Z], fzero, 0%Z).
Proof.
  apply (find_path_start_is_goal 0 grid_5x5_free (2, 3)%Z None).
  split; [reflexivity|]. split; [|reflexivity].
  unfold blocked_set_of. simpl. apply not_elem_of_empty.
Defined.



(** ** Checking concrete routes *)

Lemma neighbor_of_b_true grid blocked q p :
  neighbor_of_b grid blocked q p = true → neighbor_of grid blocked q p.
Proof.
  unfold neighbor_of_b.
  intros [[[Hd Hib]%andb_true_iff Hbl]%andb_true_iff Hv]%andb_true_iff.
  apply bool_decide_eq_true in Hd, Hbl.
  destruct (grid_at grid p) as [v| |] eqn:Hg; try done.
  apply bool_decide_eq_true in Hv as ->.
  split; [|done].
  eexists. split; [exact Hd|]. destruct p, q; simpl. f_equal; lia.
Qed.

Lemma is_walk_b_true grid blocked path :
  is_walk_b grid blocked path = true →
  ∀ i p q, path !! i = Some p → path !! S i = Some q →
           neighbor_of grid blocked p q.
Proof.
  induction path as [|a path IH]; intros Hw i p q Hp Hq; [done|].
  destruct path as [|b path]; [by destruct i|].
  simpl in Hw. apply andb_true_iff in Hw as [Hab Hw].
  destruct i as [|i]; simpl in Hp, Hq.
  - simplify_eq. by apply neighbor_of_b_true.
  - eapply IH; done.
Qed.

(** ** Exhaustiveness: an empty result means the goal is unreachable *)

Lemma get_neighbors_from_complete dirs node grid blocked ns p :
  get_neighbors_from dirs node grid blocked = Done ns →
  (∃ d, d ∈ dirs ∧ p = ((node.1 + d.1)%Z, (node.2 + d.2)%Z)) →
  traversable grid blocked p →
  p ∈ ns.
Proof.
  intros Hns (d & Hd & ->) (Hib & Hbl & Hfree). revert ns Hns.
  induction dirs as [|[dx dy] dirs IH]; intros ns; simpl.
  { by apply elem_of_nil in Hd. }
  intros (keep & Hkeep & (rest & Hrest & [= <-])%bind_Done)%bind_Done.
  apply elem_of_cons in Hd as [->|Hd].
  - simpl in *. rewrite Hib in Hkeep.
    rewrite bool_decide_eq_true_2 in Hkeep by done.
    rewrite Hfree in Hkeep. injection Hkeep as <-. by left.
  - specialize (IH Hd rest Hrest). destruct keep; [by right|done].
Qed.

Lemma get_neighbors_complete node grid blocked ns p :
  get_neighbors node grid blocked = Done ns →
  neighbor_of grid blocked node p → p ∈ ns.
Proof. intros Hns [Hd Ht]. by eapply get_neighbors_from_complete. Qed.

Lemma walk_parents_risk_grows n risk_map rows cols nodes node acc total
    r total' :
  walk_parents_risk n risk_map rows cols nodes node acc total
    = Done (r, total') →
  length acc ≤ length r.
Proof.
  revert node acc total.
  induction n as [|n IH]; intros [p|] acc total; simpl; try done.
  - by intros [= <- <-].
  - intros (t & _ & Hw)%bind_Done. apply IH in Hw.
    rewrite length_app in Hw. simpl in Hw. lia.
  - by intros [= <- <-].
Qed.

Lemma walk_parents_risk_nonempty n risk_map rows cols nodes p total r total' :
  walk_parents_risk n risk_map rows cols nodes (Some p) [] total
    = Done (r, total') →
  r ≠ [].
Proof.
  destruct n as [|n]; simpl; [done|].
  intros (t & _ & Hw)%bind_Done ->.
  apply walk_parents_risk_grows in Hw. simpl in Hw. lia.
Qed.

Section Frontier.
Variables (grid : grid_t) (blocked : gset pos) (start goal : pos).

Local Abbreviation frontier := (frontier_inv grid blocked start goal).

Lemma frontier_init c (node0 : Node) :
  frontier c [] {| open_set := [start]; closed_set := ∅;
                   all_nodes := {[ start := node0 ]} |}.
Proof.
  split; simpl.
  - rewrite lookup_singleton_eq. eauto.
  - intros q Hq. by apply not_elem_of_empty in Hq.
  - intros q p Hq. by apply not_elem_of_empty in Hq.
  - intros p [n [<- _]%lookup_singleton_Some]. right. by left.
  - apply not_elem_of_empty.
Qed.

Lemma frontier_close c st current open' ns :
  frontier c [] st →
  open_set st ≡ₚ current :: open' →
  is_Some (all_nodes st !! current) →
  current ≠ goal →
  (∀ p, neighbor_of grid blocked current p → p ∈ ns) →
  frontier current ns {| open_set := open';
                         closed_set := closed_set st ∪ {[current]};
                         all_nodes := all_nodes st |}.
Proof.
  intros [Hs Hc Hn Ho Hg] Hperm Hcur Hne Hns. split; simpl.
  - done.
  - intros q [Hq|Hq%elem_of_singleton]%elem_of_union; [auto|by subst].
  - intros q p [Hq|Hq%elem_of_singleton]%elem_of_union Hnb.
    + destruct (Hn q p Hq Hnb) as [?|[_ Hp]]; [by left|].
      by apply elem_of_nil in Hp.
    + subst q. destruct (decide (is_Some (all_nodes st !! p))); [by left|].
      right. split; [done|]. by apply Hns.
  - intros p Hp. destruct (Ho p Hp) as [Hcl|Hop].
    + left. by apply elem_of_union_l.
    + rewrite Hperm in Hop. apply elem_of_cons in Hop as [->|Hop].
      * left. apply elem_of_union_r. by apply elem_of_singleton.
      * by right.
  - intros [Hq|Hq%elem_of_singleton]%elem_of_union; [done|]. by subst.
Qed.

Lemma frontier_step current n rest st st' :
  frontier current (n :: rest) st →
  st' = st ∧ (n ∈ closed_set st ∨ is_Some (all_nodes st !! n)) ∨
    (n ∉ closed_set st) ∧ (∃ node', st' = push_update st n node') →
  frontier current rest st'.
Proof.
  intros [Hs Hc Hn Ho Hg] [[-> Hdone]|(Hncl & node' & ->)]; split; simpl;
    try done.
  - intros q p Hq Hnb. destruct (Hn q p Hq Hnb) as [?|[-> Hp]]; [by left|].
    apply elem_of_cons in Hp as [->|Hp]; [|by right].
    left. destruct Hdone as [?|?]; auto.
  - rewrite lookup_insert_is_Some. destruct (decide (n = start)); auto.
  - intros q Hq. rewrite lookup_insert_is_Some.
    destruct (decide (n = q)); auto.
  - intros q p Hq Hnb. rewrite lookup_insert_is_Some.
    destruct (decide (n = p)) as [->|Hnp]; [by left; left|].
    destruct (Hn q p Hq Hnb) as [?|[-> Hp]]; [by left; right|].
    apply elem_of_cons in Hp as [->|Hp]; [done|by right].
  - intros p Hp. rewrite HeapqFacts.heappush_perm.
    apply lookup_insert_is_Some in Hp as [->|[_ Hp]].
    + right. by left.
    + destruct (Ho p Hp); [by left|]. right. by right.
Qed.

Lemma frontier_exhausted c st p :
  frontier c [] st → open_set st = [] →
  reachable grid blocked start p → p ∈ closed_set st.
Proof.
  intros [Hs Hc Hn Ho Hg] Hempty.
  assert (∀ q, is_Some (all_nodes st !! q) → q ∈ closed_set st) as Hall.
  { intros q Hq. destruct (Ho q Hq) as [?|Hq']; [done|].
    rewrite Hempty in Hq'. by apply elem_of_nil in Hq'. }
  induction 1 as [|q p Hq IH Hnb]; [by apply Hall|].
  apply Hall. destruct (Hn q p IH Hnb) as [?|[_ Hp]]; [done|].
  by apply elem_of_nil in Hp.
Qed.

Lemma frontier_relax_all current ns st :
  frontier current ns st →
  frontier current [] (foldl (relax goal current) st ns).
Proof.
  revert st. induction ns as [|n ns IH]; intros st Hfr; [done|].
  simpl. apply IH. apply (frontier_step current n ns st); [done|].
  destruct (relax_eq goal current st n) as [[-> ?]|(? & node' & _ & _ & ->)];
    [left|right]; eauto.
Qed.

Lemma frontier_relax_risk_all risk_map safety_weight current ns st st' :
  frontier current ns st →
  relax_risk_all risk_map (rows_of grid) (cols_of grid) safety_weight goal
    current st ns = Done st' →
  frontier current [] st'.
Proof.
  revert st. induction ns as [|n ns IH]; intros st Hfr; simpl.
  { by intros [= <-]. }
  intros (st1 & Hst1 & Hrest)%bind_Done. apply (IH st1); [|done].
  apply (frontier_step current n ns st); [done|].
  destruct (relax_risk_eq _ _ _ _ _ _ _ _ Hst1) as [[-> ?]|(? & node' & _ & ->)];
    [left|right]; eauto.
Qed.

Lemma walk_reachable path :
  head path = Some start →
  (∀ i p q, path !! i = Some p → path !! S i = Some q →
            neighbor_of grid blocked p q) →
  ∀ p, p ∈ path → reachable grid blocked start p.
Proof.
  intros Hhd Hsteps p [i Hi]%list_elem_of_lookup. revert p Hi.
  induction i as [|i IH]; intros p Hi.
  - rewrite head_lookup in Hhd. simplify_eq. constructor.
  - destruct (path !! i) as [q|] eqn:Hq.
    + eapply reach_step; [by apply IH|]. by eapply Hsteps.
    + apply lookup_ge_None in Hq. apply lookup_lt_Some in Hi. lia.
Qed.

Lemma find_path_loop_complete fuel budget c st path cost len :
  search_inv grid blocked start distance_edge st →
  frontier c [] st →
  find_path_loop fuel budget grid blocked goal st = Done (path, cost, len) →
  path = [] → ¬ reachable grid blocked start goal.
Proof.
  revert c st. induction fuel as [|fuel IH]; intros c st Hinv Hfr; simpl; [done|].
  destruct (Heapq.heappop _ _) as [[current open']|] eqn:Hpop.
  2:{ intros _ _ Hreach. apply HeapqFacts.heappop_None in Hpop.
      apply (fr_goal _ _ _ _ _ _ _ Hfr).
      by eapply frontier_exhausted. }
  apply HeapqFacts.heappop_perm in Hpop.
  assert (current ∈ open_set st) as Hcur by (rewrite Hpop; by left).
  pose proof (inv_open _ _ _ _ _ Hinv current Hcur) as [nc Hnc].
  case_bool_decide as Hgoal.
  - subst current. intros (rpath & Hwalk & Heq)%bind_Done ->.
    destruct (inv_chain _ _ _ _ _ Hinv goal) as (l & Hl & _); [eauto|].
    rewrite (walk_parents_chain _ _ _ l) in Hwalk by done.
    case_decide; [|done]. injection Hwalk as <-.
    destruct (chain_head _ _ _ Hl) as [l' ->].
    injection Heq as Heq _ _. rewrite reverse_cons in Heq.
    by destruct (reverse l').
  - intros (ns & Hns & Hrec)%bind_Done Hnil.
    eapply (IH current); [| |exact Hrec|done].
    + eapply relax_all_inv; simpl; [..|exact (get_neighbors_spec _ _ _ _ Hns)].
      * apply inv_close; [done|]. intros p Hp. rewrite Hpop. by right.
      * apply elem_of_union_r. by apply elem_of_singleton.
      * done.
    + apply frontier_relax_all. eapply frontier_close; eauto.
      intros p Hp. by eapply get_neighbors_complete.
Qed.

Lemma find_path_with_risk_loop_complete fuel budget risk_map safety_weight
    c st path dist risk len :
  search_inv grid blocked start any_edge st →
  frontier c [] st →
  find_path_with_risk_loop fuel budget grid risk_map (rows_of grid)
    (cols_of grid) safety_weight blocked goal st
    = Done (path, dist, risk, len) →
  path = [] → ¬ reachable grid blocked start goal.
Proof.
  revert c st. induction fuel as [|fuel IH]; intros c st Hinv Hfr; simpl; [done|].
  destruct (Heapq.heappop _ _) as [[current open']|] eqn:Hpop.
  2:{ intros _ _ Hreach. apply HeapqFacts.heappop_None in Hpop.
      apply (fr_goal _ _ _ _ _ _ _ Hfr).
      by eapply frontier_exhausted. }
  apply HeapqFacts.heappop_perm in Hpop.
  assert (current ∈ open_set st) as Hcur by (rewrite Hpop; by left).
  pose proof (inv_open _ _ _ _ _ Hinv current Hcur) as [nc Hnc].
  case_bool_decide as Hgoal.
  - subst current. intros ([rpath total] & Hwalk & Heq)%bind_Done ->.
    injection Heq as Heq _ _ _.
    apply (f_equal reverse) in Heq. rewrite reverse_involutive in Heq.
    subst rpath. by apply walk_parents_risk_nonempty in Hwalk.
  - intros (ns & Hns & (st2 & Hst2 & Hrec)%bind_Done)%bind_Done Hnil.
    eapply (IH current); [| |exact Hrec|done].
    + eapply relax_risk_all_inv;
        [..|exact (get_neighbors_spec _ _ _ _ Hns)|exact Hst2]; simpl.
      * apply inv_close; [done|]. intros p Hp. rewrite Hpop. by right.
      * apply elem_of_union_r. by apply elem_of_singleton.
      * done.
    + eapply frontier_relax_risk_all; [|exact Hst2].
      eapply frontier_close; eauto.
      intros p Hp. by eapply get_neighbors_complete.
Qed.
End Frontier.

Lemma last_elem_of {A} (l : list A) (x : A) : last l = Some x → x ∈ l.
Proof.
  rewrite last_lookup. apply list_elem_of_lookup_2.
Qed.

(** [find_path] returns a route exactly when both endpoints pass its
    validation and the goal can be reached from the start. *)
Lemma find_path_nonempty_iff fuel grid start goal blocked path cost len :
  find_path fuel grid start goal blocked = Done (path, cost, len) →
  path ≠ [] ↔
  admissible grid (blocked_set_of blocked) start ∧
  admissible grid (blocked_set_of blocked) goal ∧
  reachable grid (blocked_set_of blocked) start goal.
Proof.
  intros Hfp. split.
  - intros Hne.
    destruct (find_path_enters_loop _ _ _ _ _ _ _ _ Hfp Hne) as (Hs & Hg & _).
    destruct (find_path_sound _ _ _ _ _ _ _ _ Hfp Hne)
      as (Hhd & Hlast & Hsteps & _).
    do 2 (split; [done|]).
    eapply walk_reachable; [done|done|]. by apply last_elem_of.
  - intros (Hs & Hg & Hreach) ->.
    destruct (find_path_cases _ _ _ _ _ _ _ _ Hfp)
      as [[_ Hbad]|(_ & _ & node0 & Hpar & Hg0 & Hloop)]; [by apply Hbad|].
    eapply (find_path_loop_complete _ _ _ _ _ _ start); [..|exact Hloop|done|done].
    + by apply inv_init.
    + apply frontier_init.
Qed.

(** [find_path_with_risk] returns a route exactly when both endpoints
    are in bounds and the goal can be reached from the start. *)
Lemma find_path_with_risk_nonempty_iff fuel grid start goal risk_map blocked
    safety_weight path dist risk len :
  find_path_with_risk fuel grid start goal risk_map blocked safety_weight
    = Done (path, dist, risk, len) →
  path ≠ [] ↔
  in_bounds (rows_of grid) (cols_of grid) start = true ∧
  in_bounds (rows_of grid) (cols_of grid) goal = true ∧
  reachable grid (blocked_set_of blocked) start goal.
Proof.
  intros Hfp. split.
  - intros Hne.
    destruct (find_path_with_risk_cases _ _ _ _ _ _ _ _ _ _ _ Hfp)
      as [[? _]|(Hs & Hg & _)]; [done|].
    destruct (find_path_with_risk_sound _ _ _ _ _ _ _ _ _ _ _ Hfp Hne)
      as (rm & _ & Hhd & Hlast & Hsteps & _).
    do 2 (split; [done|]).
    eapply walk_reachable; [done|done|]. by apply last_elem_of.
  - intros (Hs & Hg & Hreach) ->.
    destruct (find_path_with_risk_cases _ _ _ _ _ _ _ _ _ _ _ Hfp)
      as [[_ Hbad]|(_ & _ & rm & node0 & _ & Hpar & Hg0 & Hloop)]; [by apply Hbad|].
    eapply (find_path_with_risk_loop_complete _ _ _ _ _ _ _ _ start);
      [..|exact Hloop|done|done].
    + by apply inv_init.
    + apply frontier_init.
Qed.

(** ** Termination: the loops run out of work, not out of fuel *)

Lemma in_bounds_all_cells grid p :
  in_bounds (rows_of grid) (cols_of grid) p = true → p ∈ all_cells grid.
Proof.
  rewrite in_bounds_spec. intros [Hx Hy]. unfold all_cells.
  rewrite elem_of_list_to_set, list_elem_of_bind.
  exists p.1. split.
  - rewrite list_elem_of_fmap. exists p.2. split; [by destruct p|].
    rewrite elem_of_seqZ. lia.
  - rewrite elem_of_seqZ. lia.
Qed.

Lemma py_index_in_range {A} (l : list A) (i : Z) :
  (0 ≤ i < Z.of_nat (length l))%Z → ∃ a, py_index l i = Done a ∧ a ∈ l.
Proof.
  intros Hi. unfold py_index.
  rewrite (proj2 (Z.ltb_ge i 0)) by lia. rewrite (proj2 (Z.ltb_ge i 0)) by lia.
  destruct (l !! Z.to_nat i) as [a|] eqn:Ha.
  - exists a. split; [done|]. by eapply list_elem_of_lookup_2.
  - apply lookup_ge_None in Ha. lia.
Qed.

Lemma rectangular_grid_at grid p :
  rectangular grid →
  in_bounds (rows_of grid) (cols_of grid) p = true →
  ∃ v, grid_at grid p = Done v.
Proof.
  intros Hrect [Hx Hy]%in_bounds_spec. unfold grid_at.
  destruct (py_index_in_range grid p.1 Hx) as (row & -> & Hrow). simpl.
  destruct (py_index_in_range row p.2) as (v & -> & _); [|eauto].
  rewrite (Hrect row Hrow). done.
Qed.

Lemma rectangular_get_neighbors_from dirs node grid blocked :
  rectangular grid →
  ∃ ns, get_neighbors_from dirs node grid blocked = Done ns.
Proof.
  intros Hrect. induction dirs as [|[dx dy] dirs [ns IH]]; simpl; [eauto|].
  rewrite IH.
  destruct (in_bounds _ _ _) eqn:Hib; simpl; [|eauto].
  case_bool_decide; simpl; [|eauto].
  destruct (rectangular_grid_at grid _ Hrect Hib) as [v ->]. simpl. eauto.
Qed.

Lemma inv_in_bounds grid blocked start edge_g st p n :
  search_inv grid blocked start edge_g st →
  in_bounds (rows_of grid) (cols_of grid) start = true →
  all_nodes st !! p = Some n →
  in_bounds (rows_of grid) (cols_of grid) p = true.
Proof.
  intros Hinv Hs Hp. destruct (parent n) as [q|] eqn:Hpar.
  - by destruct (inv_link _ _ _ _ _ Hinv p n q Hp Hpar) as (_ & (_ & ? & _) & _).
  - by destruct (inv_root _ _ _ _ _ Hinv p n Hp Hpar) as [-> _].
Qed.

Lemma stale_push_update st n node' :
  n ∉ closed_set st → stale (push_update st n node') = stale st.
Proof.
  intros Hn. unfold stale, push_update. simpl.
  rewrite HeapqFacts.heappush_perm. by rewrite filter_cons_False.
Qed.

Lemma unclosed_close grid st current open' :
  current ∉ closed_set st → current ∈ all_cells grid →
  unclosed grid {| open_set := open';
                   closed_set := closed_set st ∪ {[current]};
                   all_nodes := all_nodes st |} < unclosed grid st.
Proof.
  intros Hc Hin. unfold unclosed. simpl. apply subset_size. set_solver.
Qed.

Lemma stale_close st current open' :
  current ∈ closed_set st → open_set st ≡ₚ current :: open' →
  closed_set st ∪ {[current]} = closed_set st ∧
  S (stale {| open_set := open';
              closed_set := closed_set st ∪ {[current]};
              all_nodes := all_nodes st |}) = stale st.
Proof.
  intros Hc Hperm.
  assert (closed_set st ∪ {[current]} = closed_set st) as Heq by set_solver.
  split; [done|]. unfold stale. simpl. rewrite Heq, Hperm.
  by rewrite filter_cons_True.
Qed.

Lemma relax_measure goal current st n :
  closed_set (relax goal current st n) = closed_set st ∧
  stale (relax goal current st n) = stale st.
Proof.
  destruct (relax_eq goal current st n) as [[-> _]|(Hn & node' & _ & _ & ->)];
    [done|].
  split; [done|]. by apply stale_push_update.
Qed.

Lemma relax_all_measure goal current neighbors st :
  closed_set (foldl (relax goal current) st neighbors) = closed_set st ∧
  stale (foldl (relax goal current) st neighbors) = stale st.
Proof.
  revert st. induction neighbors as [|n ns IH]; intros st; simpl; [done|].
  destruct (IH (relax goal current st n)) as [-> ->]. apply relax_measure.
Qed.

Lemma find_path_loop_fuel_mono fuel fuel' budget grid blocked goal st r :
  find_path_loop fuel budget grid blocked goal st = Done r →
  fuel ≤ fuel' →
  find_path_loop fuel' budget grid blocked goal st = Done r.
Proof.
  revert fuel' st. induction fuel as [|fuel IH]; intros fuel' st; simpl; [done|].
  intros Hrun Hle. destruct fuel' as [|fuel']; [lia|]. simpl.
  destruct (Heapq.heappop _ _) as [[current open']|]; [|done].
  case_bool_decide; [done|].
  destruct (get_neighbors current grid blocked) as [ns| |]; simpl in *; try done.
  apply IH; [done|lia].
Qed.

Section FindPathTermination.
Variables (grid : grid_t) (blocked : gset pos) (start goal : pos).
Hypothesis Hrect : rectangular grid.
Hypothesis Hstart : in_bounds (rows_of grid) (cols_of grid) start = true.

Local Abbreviation inv := (search_inv grid blocked start distance_edge).

Lemma find_path_loop_terminates st :
  inv st →
  ∃ fuel bound r, ∀ budget, bound ≤ budget →
    find_path_loop fuel budget grid blocked goal st = Done r.
Proof.
  remember (unclosed grid st) as u eqn:Hu.
  remember (stale st) as k eqn:Hk.
  revert k st Hu Hk.
  induction u as [u IHu] using lt_wf_ind.
  induction k as [k IHk] using lt_wf_ind.
  intros st -> -> Hinv.
  destruct (Heapq.heappop (node_lt (all_nodes st)) (open_set st))
    as [[current open']|] eqn:Hpop.
  2:{ exists 1, 0, no_path. intros budget _. simpl. by rewrite Hpop. }
  pose proof (HeapqFacts.heappop_perm _ _ _ _ Hpop) as Hperm.
  assert (current ∈ open_set st) as Hcur by (rewrite Hperm; by left).
  destruct (inv_open _ _ _ _ _ Hinv current Hcur) as [nc Hnc].
  destruct (decide (current = goal)) as [->|Hne].
  { destruct (inv_chain _ _ _ _ _ Hinv goal) as (l & Hl & _); [eauto|].
    exists 1, (length l). eexists. intros budget Hb. simpl. rewrite Hpop.
    rewrite bool_decide_eq_true_2 by done.
    rewrite (walk_parents_chain _ _ _ l) by done.
    rewrite decide_True by done. simpl. reflexivity. }
  destruct (rectangular_get_neighbors_from directions current grid blocked Hrect)
    as [ns Hns].
  set (st1 := {| open_set := open';
                 closed_set := closed_set st ∪ {[current]};
                 all_nodes := all_nodes st |}).
  set (st2 := foldl (relax goal current) st1 ns).
  assert (inv st2) as Hinv2.
  { eapply relax_all_inv; [..|exact (get_neighbors_spec _ _ _ _ Hns)]; simpl.
    - apply inv_close; [done|]. intros p Hp. rewrite Hperm. by right.
    - apply elem_of_union_r. by apply elem_of_singleton.
    - exact Hnc. }
  destruct (relax_all_measure goal current ns st1) as [Hcl Hst].
  assert (∃ fuel bound r, ∀ budget, bound ≤ budget →
            find_path_loop fuel budget grid blocked goal st2 = Done r)
    as (fuel & bound & r & Hrun).
  { destruct (decide (current ∈ closed_set st)) as [Hc|Hc].
    - destruct (stale_close st current open' Hc Hperm) as [Heq Hs].
      apply (IHk (stale st2)); [| |reflexivity|done].
      + fold st2 in Hst. rewrite Hst. fold st1 in Hs. lia.
      + unfold unclosed. fold st2 in Hcl. rewrite Hcl. simpl. by rewrite Heq.
    - eapply (IHu (unclosed grid st2)); [|reflexivity|reflexivity|done].
      unfold unclosed at 1. fold st2 in Hcl. rewrite Hcl.
      apply (unclosed_close grid st current open' Hc).
      apply in_bounds_all_cells.
      exact (inv_in_bounds _ _ _ _ _ _ _ Hinv Hstart Hnc). }
  exists (S fuel), bound, r. intros budget Hb. simpl. rewrite Hpop.
  rewrite bool_decide_eq_false_2 by done.
  unfold get_neighbors. rewrite Hns. simpl. by apply Hrun.
Qed.
End FindPathTermination.

Lemma find_path_terminates grid start goal blocked :
  rectangular grid →
  ∃ fuel r, ∀ fuel', fuel ≤ fuel' →
    find_path fuel' grid start goal blocked = Done r.
Proof.
  intros Hrect. unfold find_path.
  case_bool_decide as Hrows; [by exists 0, no_path|].
  destruct grid as [|row0 rest]; [done|].
  change (py_index (row0 :: rest) 0) with (Done (A:=list Z) row0).
  cbn [mbind outcome_bind obind].
  change (Z.of_nat (length row0)) with (cols_of (row0 :: rest)).
  destruct (in_bounds _ _ start) eqn:Hbs; cbn [negb]; [|by exists 0, no_path].
  destruct (in_bounds _ _ goal) eqn:Hbg; cbn [negb]; [|by exists 0, no_path].
  destruct (rectangular_grid_at _ _ Hrect Hbs) as [vs ->].
  destruct (rectangular_grid_at _ _ Hrect Hbg) as [vg ->].
  cbn [mbind outcome_bind obind].
  repeat (case_bool_decide; cbn [mbind outcome_bind obind]);
    try (by exists 0, no_path).
  unfold find_path_init. rewrite HeapqFacts.heapify_singleton.
  match goal with
  | |- context [find_path_loop _ _ _ _ _ ?st0] =>
      destruct (find_path_loop_terminates (row0 :: rest)
                  (blocked_set_of blocked) start goal Hrect Hbs st0)
        as (fuel & bound & r & Hrun); [by apply inv_init|]
  end.
  exists (fuel `max` bound), r. intros fuel' Hle.
  eapply find_path_loop_fuel_mono; [apply Hrun|]; lia.
Qed.

(** *** The risk-weighted search *)

Lemma default_risk_rows_covers n row0 rest :
  default_risk_rows n (row0 :: rest)
    = Done (repeat (repeat fzero (length row0)) n).
Proof.
  induction n as [|n IH]; [done|].
  cbn [default_risk_rows].
  change (py_index (row0 :: rest) 0) with (Done (A:=list Z) row0).
  cbn [mbind outcome_bind obind]. rewrite IH. done.
Qed.

Lemma py_index_repeat {A} (a : A) (n : nat) (i : Z) :
  (0 ≤ i < Z.of_nat n)%Z → py_index (repeat a n) i = Done a.
Proof.
  intros Hi.
  destruct (py_index_in_range (repeat a n) i) as (b & -> & Hb).
  { by rewrite repeat_length. }
  apply list_elem_of_In, repeat_spec in Hb. by subst.
Qed.

Lemma default_risk_map_covers grid :
  ∃ rm, default_risk_map grid = Done rm ∧ risk_covers grid rm.
Proof.
  destruct grid as [|row0 rest].
  { exists []. split; [done|]. intros p [Hx _]%in_bounds_spec.
    unfold rows_of in Hx. simpl in Hx. lia. }
  eexists. split; [apply default_risk_rows_covers|].
  intros p [Hx Hy]%in_bounds_spec. exists fzero. unfold risk_at.
  rewrite py_index_repeat by (unfold rows_of in Hx; lia). simpl.
  apply py_index_repeat. exact Hy.
Qed.

Lemma effective_risk_map_covers grid risk_map :
  risk_map_ok grid risk_map →
  ∃ rm, effective_risk_map grid risk_map = Done rm ∧ risk_covers grid rm.
Proof.
  destruct risk_map as [rm|]; simpl.
  - intros Hc. by exists rm.
  - intros _. apply default_risk_map_covers.
Qed.

Section RiskTermination.
Variables (grid : grid_t) (blocked : gset pos) (start goal : pos).
Variables (risk_map : risk_map_t) (safety_weight : float).
Hypothesis Hrect : rectangular grid.
Hypothesis Hcovers : risk_covers grid risk_map.
Hypothesis Hstart : in_bounds (rows_of grid) (cols_of grid) start = true.

Local Abbreviation inv := (search_inv grid blocked start any_edge).
Local Abbreviation rows := (rows_of grid).
Local Abbreviation cols := (cols_of grid).

Lemma risk_heuristic_Done x1 y1 x2 y2 :
  ∃ v, risk_heuristic risk_map rows cols safety_weight x1 y1 x2 y2 = Done v.
Proof.
  unfold risk_heuristic.
  destruct (in_bounds rows cols (x1, y1)) eqn:H1; simpl; [|eauto].
  destruct (in_bounds rows cols (x2, y2)) eqn:H2; simpl; [|eauto].
  destruct (Hcovers _ H1) as [v1 ->]. destruct (Hcovers _ H2) as [v2 ->].
  simpl. eauto.
Qed.

Lemma relax_risk_Done current st n :
  ∃ st', relax_risk risk_map rows cols safety_weight goal current st n
           = Done st'.
Proof.
  unfold relax_risk. case_bool_decide; [eauto|].
  destruct (in_bounds rows cols n) eqn:Hn.
  - destruct (Hcovers _ Hn) as [v ->]. cbn [mbind outcome_bind obind].
    destruct (match all_nodes st !! n with
              | Some neighbor_node => _
              | None => false
              end); [eauto|].
    destruct (risk_heuristic_Done n.1 n.2 goal.1 goal.2) as [hv ->].
    cbn [mbind outcome_bind obind]. eauto.
  - cbn [mbind outcome_bind obind].
    destruct (match all_nodes st !! n with
              | Some neighbor_node => _
              | None => false
              end); [eauto|].
    destruct (risk_heuristic_Done n.1 n.2 goal.1 goal.2) as [hv ->].
    cbn [mbind outcome_bind obind]. eauto.
Qed.

Lemma relax_risk_all_Done current neighbors st :
  ∃ st', relax_risk_all risk_map rows cols safety_weight goal current
           st neighbors = Done st' ∧
         closed_set st' = closed_set st ∧ stale st' = stale st.
Proof.
  revert st. induction neighbors as [|n ns IH]; intros st; simpl; [eauto|].
  destruct (relax_risk_Done current st n) as [st1 Hst1]. rewrite Hst1.
  cbn [mbind outcome_bind obind].
  destruct (IH st1) as (st' & -> & Hcl & Hs). exists st'. split; [done|].
  destruct (relax_risk_eq _ _ _ _ _ _ _ _ Hst1)
    as [[-> _]|(Hn & node' & _ & ->)]; [done|].
  rewrite Hcl, Hs. split; [done|]. by apply stale_push_update.
Qed.

Lemma walk_parents_risk_Done budget nodes p l acc total :
  chain nodes p l →
  Forall (fun q => in_bounds rows cols q = true) l →
  length l ≤ budget →
  walk_parents_risk budget risk_map rows cols nodes (Some p) acc total
    = Done (acc ++ l,
            foldl (fun t q => (t + risk_value risk_map q)%float) total l).
Proof.
  intros Hch. revert budget acc total.
  induction Hch as [p m Hp Hm|p m q l Hp Hm Hc IH];
    intros [|budget] acc total Hib Hlen; simpl in *; try lia;
    rewrite Hp; simpl; rewrite Hm;
    inversion Hib as [|? ? Hibp Hibl]; subst; rewrite Hibp;
    destruct (Hcovers _ Hibp) as [v Hv];
    assert (risk_value risk_map p = v) as Hrv
      by (unfold risk_value; by rewrite Hv);
    rewrite Hv, Hrv; cbn [mbind outcome_bind obind].
  - by destruct budget.
  - rewrite IH by (done || lia). by rewrite <- app_assoc.
Qed.

Lemma chain_in_bounds st p l :
  inv st → chain (all_nodes st) p l →
  Forall (fun q => in_bounds rows cols q = true) l.
Proof.
  intros Hinv. induction 1 as [p n Hp Hn|p n q l Hp Hn Hc IH].
  - constructor; [|constructor].
    exact (inv_in_bounds _ _ _ _ _ _ _ Hinv Hstart Hp).
  - constructor; [|done].
    exact (inv_in_bounds _ _ _ _ _ _ _ Hinv Hstart Hp).
Qed.

Lemma find_path_with_risk_loop_terminates st :
  inv st →
  ∃ fuel bound r, ∀ budget, bound ≤ budget →
    find_path_with_risk_loop fuel budget grid risk_map rows cols
      safety_weight blocked goal st = Done r.
Proof.
  remember (unclosed grid st) as u eqn:Hu.
  remember (stale st) as k eqn:Hk.
  revert k st Hu Hk.
  induction u as [u IHu] using lt_wf_ind.
  induction k as [k IHk] using lt_wf_ind.
  intros st -> -> Hinv.
  destruct (Heapq.heappop (node_lt (all_nodes st)) (open_set st))
    as [[current open']|] eqn:Hpop.
  2:{ exists 1, 0, no_path_risk. intros budget _. simpl. by rewrite Hpop. }
  pose proof (HeapqFacts.heappop_perm _ _ _ _ Hpop) as Hperm.
  assert (current ∈ open_set st) as Hcur by (rewrite Hperm; by left).
  destruct (inv_open _ _ _ _ _ Hinv current Hcur) as [nc Hnc].
  destruct (decide (current = goal)) as [->|Hne].
  { destruct (inv_chain _ _ _ _ _ Hinv goal) as (l & Hl & _); [eauto|].
    pose proof (chain_in_bounds st goal l Hinv Hl) as Hib.
    exists 1, (length l). eexists. intros budget Hb. simpl. rewrite Hpop.
    rewrite bool_decide_eq_true_2 by done.
    rewrite (walk_parents_risk_Done budget _ goal l) by done.
    cbn [mbind outcome_bind obind]. reflexivity. }
  destruct (rectangular_get_neighbors_from directions current grid blocked Hrect)
    as [ns Hns].
  set (st1 := {| open_set := open';
                 closed_set := closed_set st ∪ {[current]};
                 all_nodes := all_nodes st |}).
  destruct (relax_risk_all_Done current ns st1) as (st2 & Hst2 & Hcl & Hst).
  assert (inv st2) as Hinv2.
  { eapply relax_risk_all_inv;
      [..|exact (get_neighbors_spec _ _ _ _ Hns)|exact Hst2]; simpl.
    - apply inv_close; [done|]. intros p Hp. rewrite Hperm. by right.
    - apply elem_of_union_r. by apply elem_of_singleton.
    - exact Hnc. }
  assert (∃ fuel bound r, ∀ budget, bound ≤ budget →
            find_path_with_risk_loop fuel budget grid risk_map rows cols
              safety_weight blocked goal st2 = Done r)
    as (fuel & bound & r & Hrun).
  { destruct (decide (current ∈ closed_set st)) as [Hc|Hc].
    - destruct (stale_close st current open' Hc Hperm) as [Heq Hs].
      apply (IHk (stale st2)); [| |reflexivity|done].
      + rewrite Hst. fold st1 in Hs. lia.
      + unfold unclosed. rewrite Hcl. simpl. by rewrite Heq.
    - eapply (IHu (unclosed grid st2)); [|reflexivity|reflexivity|done].
      unfold unclosed at 1. rewrite Hcl.
      apply (unclosed_close grid st current open' Hc).
      apply in_bounds_all_cells.
      exact (inv_in_bounds _ _ _ _ _ _ _ Hinv Hstart Hnc). }
  exists (S fuel), bound, r. intros budget Hb. simpl. rewrite Hpop.
  rewrite bool_decide_eq_false_2 by done.
  unfold get_neighbors. rewrite Hns. cbn [mbind outcome_bind obind].
  subst st1. rewrite Hst2. cbn [mbind outcome_bind obind]. by apply Hrun.
Qed.
End RiskTermination.

Lemma find_path_with_risk_loop_fuel_mono fuel fuel' budget grid risk_map
    rows cols safety_weight blocked goal st r :
  find_path_with_risk_loop fuel budget grid risk_map rows cols safety_weight
    blocked goal st = Done r →
  fuel ≤ fuel' →
  find_path_with_risk_loop fuel' budget grid risk_map rows cols safety_weight
    blocked goal st = Done r.
Proof.
  revert fuel' st. induction fuel as [|fuel IH]; intros fuel' st; simpl; [done|].
  intros Hrun Hle. destruct fuel' as [|fuel']; [lia|]. simpl.
  destruct (Heapq.heappop _ _) as [[current open']|]; [|done].
  case_bool_decide; [done|].
  destruct (get_neighbors current grid blocked) as [ns| |]; simpl in *; try done.
  destruct (relax_risk_all _ _ _ _ _ _ _ _) as [st2| |]; simpl in *; try done.
  apply IH; [done|lia].
Qed.

Lemma find_path_with_risk_terminates grid start goal risk_map blocked
    safety_weight :
  rectangular grid → risk_map_ok grid risk_map →
  ∃ fuel r, ∀ fuel', fuel ≤ fuel' →
    find_path_with_risk fuel' grid start goal risk_map blocked safety_weight
      = Done r.
Proof.
  intros Hrect Hok. unfold find_path_with_risk.
  destruct (effective_risk_map_covers grid risk_map Hok) as (rm & -> & Hcov).
  cbn [mbind outcome_bind obind].
  case_bool_decide as Hrows; [by exists 0, no_path_risk|].
  destruct grid as [|row0 rest]; [done|].
  change (py_index (row0 :: rest) 0) with (Done (A:=list Z) row0).
  cbn [mbind outcome_bind obind].
  change (Z.of_nat (length row0)) with (cols_of (row0 :: rest)).
  destruct (in_bounds _ _ start) eqn:Hbs; cbn [negb];
    [|by exists 0, no_path_risk].
  destruct (in_bounds _ _ goal) eqn:Hbg; cbn [negb];
    [|by exists 0, no_path_risk].
  destruct (risk_heuristic_Done (row0 :: rest) rm safety_weight Hcov
              start.1 start.2 goal.1 goal.2) as [h0 ->].
  cbn [mbind outcome_bind obind].
  rewrite HeapqFacts.heapify_singleton.
  match goal with
  | |- context [find_path_with_risk_loop _ _ _ _ _ _ _ _ _ ?st0] =>
      destruct (find_path_with_risk_loop_terminates (row0 :: rest)
                  (blocked_set_of blocked) start goal rm safety_weight
                  Hrect Hcov Hbs st0)
        as (fuel & bound & r & Hrun); [by apply inv_init|]
  end.
  exists (fuel `max` bound), r. intros fuel' Hle.
  eapply find_path_with_risk_loop_fuel_mono; [apply Hrun|]; lia.
Qed.

Lemma compare_routes_terminates grid start goal risk_map blocked :
  rectangular grid → risk_map_ok grid risk_map →
  ∃ fuel r, ∀ fuel', fuel ≤ fuel' →
    compare_routes fuel' grid start goal risk_map blocked = Done r.
Proof.
  intros Hrect Hok. unfold compare_routes.
  destruct (find_path_terminates grid start goal blocked Hrect)
    as (n0 & [[sp sc] sl] & H0).
  destruct (find_path_with_risk_terminates grid start goal risk_map blocked
              0.8%float Hrect Hok) as (n1 & [[[p1 d1] r1] l1] & H1).
  destruct (find_path_with_risk_terminates grid start goal risk_map blocked
              0.5%float Hrect Hok) as (n2 & [[[p2 d2] r2] l2] & H2).
  destruct (risk_map_truthy risk_map);
    exists (n0 `max` (n1 `max` n2)); eexists; intros fuel' Hle;
    rewrite H0 by lia; cbn [mbind outcome_bind obind];
    rewrite ?H1, ?H2 by lia; cbn [mbind outcome_bind obind];
    reflexivity.
Qed.

Lemma rectangular_5x5_free : rectangular grid_5x5_free.
Proof.
  intros row Hrow. unfold grid_5x5_free in Hrow. simpl in Hrow.
  repeat (apply elem_of_cons in Hrow as [->|Hrow]; [reflexivity|]).
  by apply elem_of_nil in Hrow.
Defined.

Lemma rectangular_detour : rectangular grid_detour.
Proof.
  intros row Hrow. unfold grid_detour in Hrow.
  repeat (apply elem_of_cons in Hrow as [->|Hrow]; [reflexivity|]).
  by apply elem_of_nil in Hrow.
Defined.

Lemma endpoint_Done (l : list Z) (p : pos) :
  endpoint l = Done p ↔ ∃ rest, l = p.1 :: p.2 :: rest.
Proof.
  destruct p as [x y]. destruct l as [|a [|b rest]]; simpl.
  - split; [done|]. by intros [? ?].
  - split; [done|]. by intros [? ?].
  - assert (endpoint (a :: b :: rest) = Done (a, b)) as -> by reflexivity.
    split.
    + intros [= <- <-]. eauto.
    + intros [? [= <- <- _]]. done.
Qed.

Lemma endpoint_cases (l : list Z) :
  (∃ p, endpoint l = Done p) ∨ endpoint l = IndexError.
Proof. destruct l as [|a [|b rest]]; [by right|by right|left; by eexists]. Qed.

Lemma blocked_entries_cases (blocked : list (list Z)) :
  (∃ bs, blocked_entries blocked = Done bs) ∨
  blocked_entries blocked = IndexError.
Proof.
  induction blocked as [|b rest IH]; [left; by eexists|]. simpl.
  destruct (endpoint_cases b) as [[p ->]| ->]; [|by right].
  destruct IH as [[bs ->]| ->]; [left; by eexists|by right].
Qed.

(** The entries of [blocked] are all read when each has at least two
    coordinates. *)
Lemma blocked_entries_Done (blocked : list (list Z)) :
  Forall (fun b => 2 ≤ length b) blocked →
  ∃ bs, blocked_entries blocked = Done bs.
Proof.
  induction 1 as [|b rest Hb _ [bs IH]]; [by eexists|]. simpl.
  destruct b as [|x [|y b]]; simpl in Hb; try lia.
  assert (endpoint (x :: y :: b) = Done (x, y)) as -> by reflexivity.
  rewrite IH. by eexists.
Qed.

(** On the empty grid both searches return their sentinel (the default
    risk map built for [risk_map=None] never reads [grid[0]] then). *)
Lemma searches_on_empty_grid fuel start goal risk_map blocked safety_weight :
  find_path fuel [] start goal blocked = Done ([], finf, 0%Z) ∧
  find_path_with_risk fuel [] start goal risk_map blocked safety_weight
    = Done ([], finf, finf, 0%Z).
Proof. split; [done|]. by destruct risk_map. Qed.

(** C2 as the code has it: the searches raise nothing on inputs of the
    shape they are written for.  On the empty grid both return their
    no-path sentinel, whatever start, goal, risk map and weight are,
    when every blocked entry has at least two coordinates; on an R×C
    grid, with start and goal of at least two coordinates, blocked
    entries of at least two coordinates and a risk map that is absent
    or covers the grid, both return normally once given enough fuel. *)
Theorem searches_never_raise :
  (∀ fuel start goal risk_map blocked safety_weight,
     Forall (fun b => 2 ≤ length b) (default [] blocked) →
     find_path_call fuel [] start goal blocked = Done ([], finf, 0%Z) ∧
     find_path_with_risk_call fuel [] start goal risk_map blocked
       safety_weight = Done ([], finf, finf, 0%Z)) ∧
  (∀ grid start goal risk_map blocked safety_weight,
     rectangular grid → risk_map_ok grid risk_map →
     Forall (fun b => 2 ≤ length b) (default [] blocked) →
     2 ≤ length start → 2 ≤ length goal →
     (∃ fuel r, ∀ fuel', fuel ≤ fuel' →
        find_path_call fuel' grid start goal blocked = Done r) ∧
     (∃ fuel r, ∀ fuel', fuel ≤ fuel' →
        find_path_with_risk_call fuel' grid start goal risk_map blocked
          safety_weight = Done r)).
Proof.
  split.
  - intros fuel start goal risk_map blocked safety_weight Hbl.
    destruct (blocked_entries_Done _ Hbl) as [bs Hbs].
    unfold find_path_call, find_path_with_risk_call. by rewrite Hbs.
  - intros grid start goal risk_map blocked safety_weight Hrect Hok Hbl
      Hs Hg.
    destruct (blocked_entries_Done _ Hbl) as [bs Hbs].
    unfold find_path_call, find_path_with_risk_call. rewrite Hbs.
    cbn [mbind outcome_bind obind].
    case_bool_decide as Hrows; [split; exists 0; by eexists|].
    destruct start as [|sx [|sy srest]]; simpl in Hs; try lia.
    destruct goal as [|gx [|gy grest]]; simpl in Hg; try lia.
    assert (endpoint (sx :: sy :: srest) = Done (sx, sy)) as -> by reflexivity.
    assert (endpoint (gx :: gy :: grest) = Done (gx, gy)) as -> by reflexivity.
    cbn [mbind outcome_bind obind]. split.
    + by apply find_path_terminates.
    + by apply find_path_with_risk_terminates.
Qed.

Lemma searches_never_raise_witness :
  rectangular grid_detour ∧ risk_map_ok grid_detour None ∧
  Forall (fun b : list Z => 2 ≤ length b) (default [] (Some [[3; 2]%Z])) ∧
  2 ≤ length [4; 3]%Z ∧ 2 ≤ length [0; 1]%Z ∧
  (∃ fuel r, ∀ fuel', fuel ≤ fuel' →
     find_path_call fuel' grid_detour [4; 3]%Z [0; 1]%Z (Some [[3; 2]%Z])
       = Done r) ∧
  (∃ fuel r, ∀ fuel', fuel ≤ fuel' →
     find_path_with_risk_call fuel' grid_detour [4; 3]%Z [0; 1]%Z None
       (Some [[3; 2]%Z]) 0.5%float = Done r).
Proof.
  assert (Forall (fun b : list Z => 2 ≤ length b)
            (default [] (Some [[3; 2]%Z]))) as Hbl.
  { repeat constructor. }
  split; [exact rectangular_detour|]. split; [exact I|].
  split; [exact Hbl|]. split; [simpl; lia|]. split; [simpl; lia|].
  apply (proj2 searches_never_raise grid_detour [4; 3]%Z [0; 1]%Z None
           (Some [[3; 2]%Z]) 0.5%float rectangular_detour I Hbl);
    simpl; lia.
Defined.

(** C2 as the specification words it fails: both searches raise
    [IndexError] on a grid with a short row, on a blocked entry with a
    single coordinate (also on the empty grid), and on a start with a
    single coordinate; [find_path_with_risk] also on a risk map that is
    smaller than the grid. *)
Lemma searches_raise_on_malformed_input :
  find_path_call 100 [[0; 0; 0]; [0]]%Z [0; 0]%Z [0; 2]%Z None = IndexError ∧
  find_path_with_risk_call 100 [[0; 0; 0]; [0]]%Z [0; 0]%Z [0; 2]%Z None None
    0.5%float = IndexError ∧
  find_path_call 100 [] [0; 0]%Z [0; 0]%Z (Some [[0%Z]]) = IndexError ∧
  find_path_with_risk_call 100 [] [0; 0]%Z [0; 0]%Z None (Some [[0%Z]])
    0.5%float = IndexError ∧
  find_path_call 100 [[0; 0]]%Z [0%Z] [0; 1]%Z None = IndexError ∧
  find_path_with_risk_call 100 [[0; 0]; [0; 0]]%Z [0; 0]%Z [1; 1]%Z
    (Some [[fzero]]) None 0.5%float = IndexError.
Proof. repeat split; vm_compute; reflexivity. Qed.

(** ** [compare_routes] *)

Lemma py_round2_zero : py_round2 fzero = fzero.
Proof. reflexivity. Qed.

(** C9: whatever the inputs, the ["shortest"] entry of the result of
    [compare_routes] carries risk 0.0: so it is for every result the
    function returns, and on every R×C grid with a risk map that is
    absent or covers the grid the function does return one. *)
Theorem compare_routes_shortest_risk :
  (∀ fuel grid start goal risk_map blocked r calls,
     compare_routes fuel grid start goal risk_map blocked = Done (r, calls) →
     entry_risk (shortest r) = fzero) ∧
  (∀ grid start goal risk_map blocked,
     rectangular grid → risk_map_ok grid risk_map →
     ∃ fuel r calls,
       compare_routes fuel grid start goal risk_map blocked = Done (r, calls) ∧
       entry_risk (shortest r) = fzero).
Proof.
  assert (∀ fuel grid start goal risk_map blocked r calls,
            compare_routes fuel grid start goal risk_map blocked
              = Done (r, calls) →
            entry_risk (shortest r) = fzero) as Hzero.
  { intros fuel grid start goal risk_map blocked r calls.
    unfold compare_routes.
    intros ([[sp sc] sl] & _ & Hrest)%bind_Done.
    apply bind_Done in Hrest as ([[[p1 d1] r1] c1] & _ & Hrest).
    apply bind_Done in Hrest as ([[[p2 d2] r2] c2] & _ & Hrest).
    by injection Hrest as <- <-. }
  split; [exact Hzero|].
  intros grid start goal risk_map blocked Hrect Hok.
  destruct (compare_routes_terminates grid start goal risk_map blocked
              Hrect Hok) as (fuel & [r calls] & Hrun).
  exists fuel, r, calls. split; [by apply Hrun|].
  eapply Hzero. by apply Hrun.
Qed.

Lemma risk_diagonal_covers : risk_covers grid_5x5_free risk_diagonal_5x5.
Proof.
  intros [x y] [Hx Hy]%in_bounds_spec.
  change (rows_of grid_5x5_free) with 5%Z in Hx.
  change (cols_of grid_5x5_free) with 5%Z in Hy. simpl in Hx, Hy.
  assert (x = 0 ∨ x = 1 ∨ x = 2 ∨ x = 3 ∨ x = 4)%Z
    as [-> | [-> | [-> | [-> | ->]]]] by lia;
    assert (y = 0 ∨ y = 1 ∨ y = 2 ∨ y = 3 ∨ y = 4)%Z
      as [-> | [-> | [-> | [-> | ->]]]] by lia;
    eexists; reflexivity.
Defined.

(** On the free 5×5 grid with risk 0.9 on the diagonal the shortest
    route runs down the diagonal, over cells of risk 0.9 each, 4.5 in
    all; its entry reports risk 0.0. *)
Lemma compare_routes_shortest_risk_witness :
  (∃ r calls,
     compare_routes 100 grid_5x5_free (0, 0)%Z (4, 4)%Z
       (Some risk_diagonal_5x5) None = Done (r, calls) ∧
     entry_path (shortest r) = [(0, 0); (1, 1); (2, 2); (3, 3); (4, 4)]%Z ∧
     path_risk risk_diagonal_5x5 (entry_path (shortest r)) = 4.5%float ∧
     entry_risk (shortest r) = fzero) ∧
  rectangular grid_5x5_free ∧
  risk_map_ok grid_5x5_free (Some risk_diagonal_5x5) ∧
  (∃ fuel r calls,
     compare_routes fuel grid_5x5_free (0, 0)%Z (4, 4)%Z
       (Some risk_diagonal_5x5) None = Done (r, calls) ∧
     entry_risk (shortest r) = fzero).
Proof.
  split.
  - eexists _, _. split; [vm_compute; reflexivity|].
    split; [vm_compute; reflexivity|]. split; [vm_compute; reflexivity|].
    eapply (proj1 compare_routes_shortest_risk 100 grid_5x5_free (0, 0)%Z
              (4, 4)%Z (Some risk_diagonal_5x5) None).
    vm_compute; reflexivity.
  - split; [exact rectangular_5x5_free|].
    split; [exact risk_diagonal_covers|].
    exact (proj2 compare_routes_shortest_risk grid_5x5_free (0, 0)%Z
             (4, 4)%Z (Some risk_diagonal_5x5) None rectangular_5x5_free
             risk_diagonal_covers).
Defined.

(** C10: an empty-list risk map is treated like an absent one: only
    [find_path] is called, and the safest and balanced entries repeat
    the path and distance of the shortest entry with risk 0.0. *)
Theorem compare_routes_empty_risk_map fuel grid start goal blocked :
  compare_routes fuel grid start goal (Some []) blocked
    = compare_routes fuel grid start goal None blocked ∧
  compare_routes fuel grid start goal (Some []) blocked
    = ('(path, cost, _) ← find_path fuel grid start goal blocked;
       let e := {| entry_path := path; entry_distance := py_round2 cost;
                   entry_risk := fzero; entry_length := route_length path |} in
       Done ({| shortest := e; safest := e; balanced := e |}, [CallFindPath])).
Proof.
  split; [done|]. unfold compare_routes.
  destruct (find_path fuel grid start goal blocked) as [[[path cost] len]| |];
    [|done|done].
  cbn [mbind outcome_bind obind risk_map_truthy app].
  by rewrite py_round2_zero.
Qed.

(** ** Float arithmetic at half scale *)

(** *** Digits *)

Lemma digits2_pos_bounds (p : positive) :
  (2 ^ (Z.pos (digits2_pos p) - 1) ≤ Z.pos p < 2 ^ Z.pos (digits2_pos p))%Z.
Proof.
  induction p as [p IH|p IH|]; cbn [digits2_pos]; [| |simpl; lia].
  - rewrite Pos2Z.inj_succ, (Pos2Z.inj_xI p).
    replace (Z.succ (Z.pos (digits2_pos p)) - 1)%Z
      with (Z.succ (Z.pos (digits2_pos p) - 1)) by lia.
    rewrite !Z.pow_succ_r by lia.
    revert IH. generalize (2 ^ (Z.pos (digits2_pos p) - 1))%Z.
    generalize (2 ^ Z.pos (digits2_pos p))%Z. intros; lia.
  - rewrite Pos2Z.inj_succ, (Pos2Z.inj_xO p).
    replace (Z.succ (Z.pos (digits2_pos p)) - 1)%Z
      with (Z.succ (Z.pos (digits2_pos p) - 1)) by lia.
    rewrite !Z.pow_succ_r by lia.
    revert IH. generalize (2 ^ (Z.pos (digits2_pos p) - 1))%Z.
    generalize (2 ^ Z.pos (digits2_pos p))%Z. intros; lia.
Qed.

Lemma digits2_pos_le (p : positive) (k : Z) :
  (Z.pos p < 2 ^ k)%Z → (0 ≤ k)%Z → (Z.pos (digits2_pos p) ≤ k)%Z.
Proof.
  intros Hp Hk. destruct (digits2_pos_bounds p) as [Hlo _].
  destruct (Z_le_gt_dec (Z.pos (digits2_pos p)) k) as [|Hgt]; [done|].
  assert (2 ^ k ≤ 2 ^ (Z.pos (digits2_pos p) - 1))%Z
    by (apply Z.pow_le_mono_r; lia).
  lia.
Qed.

Lemma digits2_pos_ge (p : positive) (k : Z) :
  (2 ^ (k - 1) ≤ Z.pos p)%Z → (k ≤ Z.pos (digits2_pos p))%Z.
Proof.
  intros Hp. destruct (digits2_pos_bounds p) as [_ Hhi].
  destruct (Z_le_gt_dec k (Z.pos (digits2_pos p))) as [|Hgt]; [done|].
  assert (2 ^ Z.pos (digits2_pos p) ≤ 2 ^ (k - 1))%Z
    by (apply Z.pow_le_mono_r; lia).
  lia.
Qed.

Lemma iter_xO_value (m d : positive) :
  Z.pos (Pos.iter xO m d) = (Z.pos m * 2 ^ Z.pos d)%Z.
Proof.
  revert m. induction d as [d IH|d IH|]; intros m; cbn [Pos.iter].
  - rewrite (Pos2Z.inj_xO (Pos.iter _ _ _)), !IH, (Pos2Z.inj_xI d).
    replace (2 * Z.pos d + 1)%Z with (Z.pos d + Z.pos d + 1)%Z by lia.
    rewrite !Z.pow_add_r by lia. lia.
  - rewrite !IH, (Pos2Z.inj_xO d).
    replace (2 * Z.pos d)%Z with (Z.pos d + Z.pos d)%Z by lia.
    rewrite !Z.pow_add_r by lia. lia.
  - rewrite (Pos2Z.inj_xO m). lia.
Qed.

(** *** Shifting right *)

Lemma shr_1_m (r : shr_record) :
  (0 ≤ shr_m r)%Z → shr_m (shr_1 r) = (shr_m r / 2)%Z.
Proof.
  destruct r as [m r s]. cbn [shr_m]. intros Hm.
  rewrite <- Z.div2_div.
  destruct m as [|[p|p|]|p]; try done; lia.
Qed.

Lemma iter_shr_m (p : positive) (r : shr_record) :
  (0 ≤ shr_m r)%Z →
  shr_m (SpecFloat.iter_pos shr_1 p r) = (shr_m r / 2 ^ Z.pos p)%Z.
Proof.
  revert r. induction p as [p IH|p IH|]; intros r Hr; cbn [SpecFloat.iter_pos].
  - assert (0 ≤ shr_m (shr_1 r))%Z as H1.
    { rewrite shr_1_m by done. by apply Z.div_pos. }
    assert (0 ≤ shr_m (SpecFloat.iter_pos shr_1 p (shr_1 r)))%Z as H2.
    { rewrite IH by done. apply Z.div_pos; lia. }
    rewrite IH, IH, shr_1_m by done.
    rewrite !Z.div_div by lia. f_equal.
    rewrite (Pos2Z.inj_xI p).
    replace (2 * Z.pos p + 1)%Z with (1 + Z.pos p + Z.pos p)%Z by lia.
    rewrite !Z.pow_add_r by lia. lia.
  - assert (0 ≤ shr_m (SpecFloat.iter_pos shr_1 p r))%Z as H2.
    { rewrite IH by done. apply Z.div_pos; lia. }
    rewrite IH, IH by done.
    rewrite !Z.div_div by lia. f_equal.
    rewrite (Pos2Z.inj_xO p).
    replace (2 * Z.pos p)%Z with (Z.pos p + Z.pos p)%Z by lia.
    rewrite !Z.pow_add_r by lia. lia.
  - by rewrite shr_1_m.
Qed.

Lemma round_nearest_even_bounds (m : Z) (l : location) :
  (m ≤ round_nearest_even m l ≤ m + 1)%Z.
Proof. destruct l as [|[]]; cbn; try destruct (Z.even m); lia. Qed.

Lemma shr_m_of_loc (m : Z) (l : location) :
  shr_m (shr_record_of_loc m l) = m.
Proof. by destruct l as [|[]]. Qed.

Lemma Zdigits2_nonneg (m : Z) : (0 ≤ Zdigits2 m)%Z.
Proof. destruct m; simpl; lia. Qed.

(** *** Rounding at a halved scale *)

Lemma fexp_normal (z : Z) :
  (-1074 ≤ z - 53)%Z → fexp prec emax z = (z - 53)%Z.
Proof. unfold fexp, SpecFloat.emin, prec, emax. lia. Qed.

Lemma shr_shift (r : shr_record) (e n : Z) :
  shr r (e - 1) n = ((shr r e n).1, ((shr r e n).2 - 1)%Z).
Proof. destruct n; simpl; f_equal; lia. Qed.

Lemma shr_exp (r : shr_record) (e n : Z) :
  (shr r e n).2 = (e + Z.max 0 n)%Z.
Proof. destruct n; simpl; lia. Qed.

Lemma shr_fexp_shift (m e : Z) (l : location) :
  (-1020 ≤ e)%Z →
  shr_fexp prec emax m (e - 1) l
    = ((shr_fexp prec emax m e l).1, ((shr_fexp prec emax m e l).2 - 1)%Z).
Proof.
  intros He. unfold shr_fexp.
  pose proof (Zdigits2_nonneg m) as Hd.
  rewrite !fexp_normal by lia.
  replace (Zdigits2 m + (e - 1) - 53 - (e - 1))%Z
    with (Zdigits2 m + e - 53 - e)%Z by lia.
  apply shr_shift.
Qed.

Lemma shr_fexp_exp_ge (m e : Z) (l : location) :
  (e ≤ (shr_fexp prec emax m e l).2)%Z.
Proof. unfold shr_fexp. rewrite shr_exp. lia. Qed.

(** Rounding the same integer at an exponent one lower gives the same
    mantissa with an exponent one lower, outside the subnormal range
    and short of overflow. *)
Lemma binary_round_aux_half (s : bool) (m e : Z) (l : location) :
  (-1020 ≤ e)%Z →
  (∀ s', binary_round_aux prec emax s m e l ≠ S754_infinity s') →
  binary_round_aux prec emax s m (e - 1) l
    = SFhalf (binary_round_aux prec emax s m e l).
Proof.
  intros He. unfold binary_round_aux.
  rewrite (shr_fexp_shift m e l He).
  pose proof (shr_fexp_exp_ge m e l) as He1.
  destruct (shr_fexp prec emax m e l) as [r1 e1]. cbn [fst snd] in *.
  set (m1 := round_nearest_even (shr_m r1) (loc_of_shr_record r1)).
  rewrite (shr_fexp_shift m1 e1 loc_Exact) by lia.
  destruct (shr_fexp prec emax m1 e1 loc_Exact) as [r2 e2]. cbn [fst snd].
  destruct (shr_m r2) as [|m2|m2]; [done| |done].
  intros Hfin.
  destruct (Z.leb_spec e2 (emax - prec)) as [Hle|Hgt].
  - rewrite (proj2 (Z.leb_le _ _)) by lia. done.
  - by destruct (Hfin s).
Qed.

(** *** Rounding in the normal range *)

Lemma shr_fexp_normal (M : positive) (e : Z) (l : location) :
  (53 ≤ Z.pos (digits2_pos M))%Z →
  (-1074 ≤ e + Z.pos (digits2_pos M) - 53)%Z →
  ∃ r1, shr_fexp prec emax (Z.pos M) e l
          = (r1, (e + Z.pos (digits2_pos M) - 53)%Z) ∧
        shr_m r1 = (Z.pos M / 2 ^ (Z.pos (digits2_pos M) - 53))%Z ∧
        (2 ^ 52 ≤ shr_m r1 < 2 ^ 53)%Z.
Proof.
  intros HD He. unfold shr_fexp. cbn [Zdigits2].
  rewrite fexp_normal by lia.
  pose proof (digits2_pos_bounds M) as [Hlo Hhi].
  set (D := Z.pos (digits2_pos M)) in *.
  replace (D + e - 53 - e)%Z with (D - 53)%Z by lia.
  destruct (D - 53)%Z as [|p|p] eqn:Hn; [| |lia].
  - assert (D = 53%Z) as HD53 by lia. rewrite HD53 in *.
    eexists. split; [simpl; f_equal; lia|].
    rewrite shr_m_of_loc. rewrite Z.div_1_r. split; [done|].
    simpl in Hlo. lia.
  - eexists. split; [simpl; f_equal; lia|].
    rewrite iter_shr_m by (rewrite shr_m_of_loc; lia).
    rewrite shr_m_of_loc. split; [done|].
    assert (0 < 2 ^ Z.pos p)%Z by (apply Z.pow_pos_nonneg; lia).
    assert (2 ^ (D - 1) = 2 ^ 52 * 2 ^ Z.pos p)%Z as Hlo'.
    { rewrite <- Z.pow_add_r by lia. f_equal. lia. }
    assert (2 ^ D = 2 ^ 53 * 2 ^ Z.pos p)%Z as Hhi'.
    { rewrite <- Z.pow_add_r by lia. f_equal. lia. }
    split.
    + apply Z.div_le_lower_bound; lia.
    + apply Z.div_lt_upper_bound; lia.
Qed.

(** Rounding an integer of at least 53 digits, above the subnormal
    range: the result has a 53-digit mantissa; its exponent is the one
    that leaves 53 digits, or one more when rounding carried over. *)
Lemma binary_round_aux_normal (s : bool) (M : positive) (e : Z)
    (l : location) :
  (53 ≤ Z.pos (digits2_pos M))%Z →
  (-1074 ≤ e + Z.pos (digits2_pos M) - 53)%Z →
  ∃ m2 e2,
    binary_round_aux prec emax s (Z.pos M) e l
      = (if (e2 <=? 971)%Z then S754_finite s m2 e2 else S754_infinity s) ∧
    Z.pos (digits2_pos m2) = 53%Z ∧
    (e2 = (e + Z.pos (digits2_pos M) - 53)%Z ∨
     e2 = (e + Z.pos (digits2_pos M) - 52)%Z ∧
     m2 = 4503599627370496%positive).
Proof.
  intros HD He. unfold binary_round_aux.
  destruct (shr_fexp_normal M e l HD He) as (r1 & -> & _ & Hq).
  set (D := Z.pos (digits2_pos M)) in *.
  pose proof (round_nearest_even_bounds (shr_m r1) (loc_of_shr_record r1))
    as Hm1.
  destruct (round_nearest_even (shr_m r1) (loc_of_shr_record r1))
    as [|P|P]; [lia| |lia].
  assert (53 ≤ Z.pos (digits2_pos P))%Z as HD1
    by (apply digits2_pos_ge; simpl in *; lia).
  assert (Z.pos (digits2_pos P) ≤ 54)%Z as HD1'
    by (apply digits2_pos_le; simpl in *; lia).
  destruct (shr_fexp_normal P (e + D - 53) loc_Exact HD1 ltac:(lia))
    as (r2 & -> & Hr2 & Hq2).
  destruct (shr_m r2) as [|m2|m2] eqn:Hm2; [lia| |lia].
  exists m2, (e + D - 53 + Z.pos (digits2_pos P) - 53)%Z.
  split; [done|]. split.
  { apply Z.le_antisymm.
    - apply digits2_pos_le; simpl in *; lia.
    - apply digits2_pos_ge; simpl in *; lia. }
  destruct (Z.eq_dec (Z.pos (digits2_pos P)) 53%Z) as [H53|H53].
  - left. lia.
  - right. split; [lia|].
    assert (Z.pos (digits2_pos P) = 54%Z) as H54 by lia.
    assert (Z.pos P = 2 ^ 53)%Z as HP.
    { pose proof (digits2_pos_bounds P) as [Hlo _]. rewrite H54 in Hlo.
      simpl in *. lia. }
    rewrite H54, HP in Hr2. simpl in Hr2. by injection Hr2 as ->.
Qed.

(** *** Addition of positive normal numbers *)

Lemma shl_align_le (m : positive) (e ez : Z) :
  (ez ≤ e)%Z →
  ∃ a, shl_align m e ez = (a, ez) ∧
       Z.pos a = (Z.pos m * 2 ^ (e - ez))%Z.
Proof.
  intros Hle. unfold shl_align.
  destruct (ez - e)%Z as [|d|d] eqn:Hd; [|lia|].
  - assert (e = ez) as -> by lia. exists m. split; [done|].
    rewrite Z.sub_diag. simpl. lia.
  - exists (Pos.iter xO m d). split; [done|].
    rewrite iter_xO_value. do 2 f_equal. lia.
Qed.

Lemma shl_align_shift (m : positive) (e e' : Z) :
  shl_align m (e - 1) (e' - 1)
    = ((shl_align m e e').1, ((shl_align m e e').2 - 1)%Z).
Proof.
  unfold shl_align.
  replace (e' - 1 - (e - 1))%Z with (e' - e)%Z by lia.
  by destruct (e' - e)%Z.
Qed.

Lemma SFadd_finite (mx : positive) (ex : Z) (my : positive) (ey : Z) :
  SFadd prec emax (S754_finite false mx ex) (S754_finite false my ey)
    = binary_round prec emax false
        ((shl_align mx ex (Z.min ex ey)).1 +
         (shl_align my ey (Z.min ex ey)).1)%positive (Z.min ex ey).
Proof. reflexivity. Qed.

Lemma binary_round_no_shift (s : bool) (M : positive) (e : Z) :
  (53 ≤ Z.pos (digits2_pos M))%Z →
  (-1074 ≤ e + Z.pos (digits2_pos M) - 53)%Z →
  binary_round prec emax s M e
    = binary_round_aux prec emax s (Z.pos M) e loc_Exact.
Proof.
  intros HD He. unfold binary_round. rewrite fexp_normal by lia.
  unfold shl_align.
  by destruct (Z.pos (digits2_pos M) + e - 53 - e)%Z eqn:Hd; [| |lia].
Qed.

(** The sum of two positive numbers with 53-digit mantissas is the
    rounding of an integer [M] at the smaller exponent, and so is the
    sum of their halves, one exponent lower. *)
Lemma SFadd_normal_aux (mx : positive) (ex : Z) (my : positive) (ey : Z) :
  Z.pos (digits2_pos mx) = 53%Z → Z.pos (digits2_pos my) = 53%Z →
  (-1000 ≤ ex)%Z → (-1000 ≤ ey)%Z →
  ∃ M,
    Z.pos M = (Z.pos mx * 2 ^ (ex - Z.min ex ey) +
               Z.pos my * 2 ^ (ey - Z.min ex ey))%Z ∧
    (53 + Z.max ex ey - Z.min ex ey ≤ Z.pos (digits2_pos M)
       ≤ 54 + Z.max ex ey - Z.min ex ey)%Z ∧
    SFadd prec emax (S754_finite false mx ex) (S754_finite false my ey)
      = binary_round_aux prec emax false (Z.pos M) (Z.min ex ey) loc_Exact ∧
    SFadd prec emax (S754_finite false mx (ex - 1))
                    (S754_finite false my (ey - 1))
      = binary_round_aux prec emax false (Z.pos M) (Z.min ex ey - 1)
          loc_Exact.
Proof.
  intros Hdx Hdy Hex Hey. rewrite !SFadd_finite.
  rewrite Z.sub_min_distr_r, !shl_align_shift. cbn [fst].
  destruct (shl_align_le mx ex (Z.min ex ey) ltac:(lia)) as (a & -> & Ha).
  destruct (shl_align_le my ey (Z.min ex ey) ltac:(lia)) as (b & -> & Hb).
  cbn [fst]. exists (a + b)%positive.
  pose proof (digits2_pos_bounds mx) as Hmx. rewrite Hdx in Hmx.
  pose proof (digits2_pos_bounds my) as Hmy. rewrite Hdy in Hmy.
  change (2 ^ (53 - 1))%Z with (2 ^ 52)%Z in *.
  assert (Z.pos (a + b) = (Z.pos mx * 2 ^ (ex - Z.min ex ey) +
                           Z.pos my * 2 ^ (ey - Z.min ex ey))%Z) as HM
    by (rewrite Pos2Z.inj_add; lia).
  assert (53 + Z.max ex ey - Z.min ex ey ≤ Z.pos (digits2_pos (a + b))
            ≤ 54 + Z.max ex ey - Z.min ex ey)%Z as HD.
  { set (k := (Z.max ex ey - Z.min ex ey)%Z).
    assert (0 ≤ k)%Z by lia.
    assert (0 < 2 ^ k)%Z by (apply Z.pow_pos_nonneg; lia).
    assert (2 ^ (53 + k - 1) = 2 ^ 52 * 2 ^ k)%Z as E1.
    { rewrite <- Z.pow_add_r by lia. f_equal. lia. }
    assert (2 ^ (54 + k) = 2 * (2 ^ 53 * 2 ^ k))%Z as E2.
    { replace (54 + k)%Z with (1 + (53 + k))%Z by lia.
      rewrite !Z.pow_add_r by lia. lia. }
    assert ((ex - Z.min ex ey = 0 ∧ ey - Z.min ex ey = k) ∨
            (ex - Z.min ex ey = k ∧ ey - Z.min ex ey = 0))%Z
      as [[Ex Ey]|[Ex Ey]] by lia;
      rewrite Ex, Ey in HM; rewrite Z.pow_0_r in HM;
      (split; [apply digits2_pos_ge; replace (53 + Z.max ex ey - Z.min ex ey - 1)%Z
                 with (53 + k - 1)%Z by lia; rewrite E1, HM; nia
              |apply digits2_pos_le; [|lia];
               replace (54 + Z.max ex ey - Z.min ex ey)%Z with (54 + k)%Z by lia;
               rewrite E2, HM; nia]). }
  split; [done|]. split; [done|].
  split; apply binary_round_no_shift; lia.
Qed.

Lemma SFadd_normal (mx : positive) (ex : Z) (my : positive) (ey : Z) :
  Z.pos (digits2_pos mx) = 53%Z → Z.pos (digits2_pos my) = 53%Z →
  (-1000 ≤ ex ≤ 900)%Z → (-1000 ≤ ey ≤ 900)%Z →
  ∃ m2 e2,
    SFadd prec emax (S754_finite false mx ex) (S754_finite false my ey)
      = S754_finite false m2 e2 ∧
    Z.pos (digits2_pos m2) = 53%Z ∧
    (Z.max ex ey ≤ e2 ≤ Z.max ex ey + 2)%Z.
Proof.
  intros Hdx Hdy Hex Hey.
  destruct (SFadd_normal_aux mx ex my ey Hdx Hdy ltac:(lia) ltac:(lia))
    as (M & _ & HD & -> & _).
  destruct (binary_round_aux_normal false M (Z.min ex ey) loc_Exact
              ltac:(lia) ltac:(lia)) as (m2 & e2 & -> & Hd2 & He2).
  exists m2, e2. rewrite (proj2 (Z.leb_le e2 971)) by lia.
  split; [done|]. split; [done|]. lia.
Qed.

Lemma SFadd_half (mx : positive) (ex : Z) (my : positive) (ey : Z) :
  Z.pos (digits2_pos mx) = 53%Z → Z.pos (digits2_pos my) = 53%Z →
  (-1000 ≤ ex ≤ 900)%Z → (-1000 ≤ ey ≤ 900)%Z →
  SFadd prec emax (S754_finite false mx (ex - 1))
                  (S754_finite false my (ey - 1))
    = SFhalf (SFadd prec emax (S754_finite false mx ex)
                              (S754_finite false my ey)).
Proof.
  intros Hdx Hdy Hex Hey.
  destruct (SFadd_normal mx ex my ey Hdx Hdy Hex Hey)
    as (m2 & e2 & Hsum & _).
  destruct (SFadd_normal_aux mx ex my ey Hdx Hdy ltac:(lia) ltac:(lia))
    as (M & _ & _ & Hadd & ->).
  rewrite Hadd in *.
  apply binary_round_aux_half; [lia|]. intros s'. by rewrite Hsum.
Qed.

(** *** Multiplication by 0.5 *)

Lemma iter_shr_exact (p m : positive) :
  SpecFloat.iter_pos shr_1 p
    {| shr_m := Z.pos (Pos.iter xO m p); shr_r := false; shr_s := false |}
  = {| shr_m := Z.pos m; shr_r := false; shr_s := false |}.
Proof.
  revert m. induction p as [p IH|p IH|]; intros m;
    cbn [SpecFloat.iter_pos Pos.iter].
  - cbn [shr_1 orb]. by rewrite !IH.
  - by rewrite !IH.
  - done.
Qed.

Lemma digits2_pos_iter_xO (m d : positive) :
  Z.pos (digits2_pos (Pos.iter xO m d))
    = (Z.pos (digits2_pos m) + Z.pos d)%Z.
Proof.
  pose proof (digits2_pos_bounds m) as [Hlo Hhi].
  pose proof (iter_xO_value m d) as Hv.
  assert (0 < 2 ^ Z.pos d)%Z by (apply Z.pow_pos_nonneg; lia).
  apply Z.le_antisymm.
  - apply digits2_pos_le; [|lia]. rewrite Hv, Z.pow_add_r by lia. nia.
  - apply digits2_pos_ge. rewrite Hv.
    replace (Z.pos (digits2_pos m) + Z.pos d - 1)%Z
      with (Z.pos (digits2_pos m) - 1 + Z.pos d)%Z by lia.
    rewrite Z.pow_add_r by lia. nia.
Qed.

Lemma SFmul_half (s : bool) (mx : positive) (ex : Z) :
  Z.pos (digits2_pos mx) = 53%Z → (-1000 ≤ ex ≤ 972)%Z →
  SFmul prec emax (S754_finite s mx ex)
    (S754_finite false 4503599627370496 (-53))
  = S754_finite s mx (ex - 1).
Proof.
  intros Hd He. cbn [SFmul]. rewrite xorb_false_r.
  rewrite Pos.mul_comm.
  change (4503599627370496 * mx)%positive with (Pos.iter xO mx 52).
  unfold binary_round_aux, shr_fexp. cbn [Zdigits2].
  rewrite digits2_pos_iter_xO, Hd, fexp_normal by lia.
  replace (53 + 52 + (ex + -53) - 53 - (ex + -53))%Z with 52%Z by lia.
  cbn [shr shr_record_of_loc]. rewrite iter_shr_exact.
  cbn [shr_m loc_of_shr_record round_nearest_even Zdigits2].
  rewrite Hd, fexp_normal by lia.
  replace (53 + (ex + -53 + 52) - 53 - (ex + -53 + 52))%Z with 0%Z by lia.
  cbn [shr shr_m].
  rewrite (proj2 (Z.leb_le _ _)) by (unfold emax, prec; lia).
  f_equal. lia.
Qed.

(** *** Comparison *)

Lemma SFcompare_half (x y : spec_float) :
  SFcompare (SFhalf x) (SFhalf y) = SFcompare x y.
Proof.
  destruct x as [sx|sx| |sx mx ex], y as [sy|sy| |sy my ey]; try done.
  cbn [SFhalf SFcompare]. unfold Z.sub.
  by rewrite (Z.add_comm ex), (Z.add_comm ey), Z.add_compare_mono_l.
Qed.

(** *** The values of [g] *)

Lemma move_spec_finite (c : spec_float) :
  move_spec c →
  ∃ mc, c = S754_finite false mc (-52) ∧ Z.pos (digits2_pos mc) = 53%Z ∧
        g_spec c.
Proof.
  intros [-> | ->]; eexists; (split; [reflexivity|]); (split; [reflexivity|]);
    right; eexists _, _; (split; [reflexivity|]); (split; [reflexivity|]); lia.
Qed.

(** Adding a move cost keeps [g] in its range (additions saturate at
    2^54), and commutes with halving. *)
Lemma g_spec_add (x c : spec_float) :
  g_spec x → move_spec c →
  g_spec (SFadd prec emax x c) ∧
  SFadd prec emax (SFhalf x) (SFhalf c) = SFhalf (SFadd prec emax x c).
Proof.
  intros Hx Hc.
  destruct (move_spec_finite c Hc) as (mc & Hceq & Hdc & Hgc).
  destruct Hx as [->|(m & e & -> & Hd & He & Hcase)].
  { subst c. split; done. }
  subst c. split; [|apply SFadd_half; (done || lia)].
  destruct Hcase as [He1|[-> ->]].
  2:{ destruct Hc as [[= ->] | [= ->]];
        right; eexists _, _; (split; [vm_compute; reflexivity|]);
        (split; [reflexivity|]); lia. }
  destruct (SFadd_normal_aux m e mc (-52)%Z Hd Hdc ltac:(lia) ltac:(lia))
    as (M & HM & HD & -> & _).
  rewrite Z.min_r in * by lia. rewrite Z.max_l in HD by lia.
  rewrite Z.sub_diag, Z.pow_0_r in HM.
  assert (Z.pos (digits2_pos M) ≤ 106)%Z as HD106.
  { destruct (Z.eq_dec e 1%Z) as [->|Hne]; [|lia].
    apply digits2_pos_le; [|lia]. rewrite HM.
    pose proof (digits2_pos_bounds m) as [_ Hm]. rewrite Hd in Hm.
    pose proof (digits2_pos_bounds mc) as [_ Hmc]. rewrite Hdc in Hmc.
    simpl in *. lia. }
  destruct (binary_round_aux_normal false M (-52)%Z loc_Exact
              ltac:(lia) ltac:(lia)) as (m2 & e2 & -> & Hd2 & He2).
  rewrite (proj2 (Z.leb_le e2 971)) by lia.
  right. exists m2, e2. split; [done|]. split; [done|]. split; [lia|].
  destruct He2 as [-> | [-> ->]]; [lia|].
  destruct (Z.eq_dec (-52 + Z.pos (digits2_pos M) - 52)%Z 2%Z); [by right|lia].
Qed.

(** *** Conversion from integers, and square roots *)

Lemma valid_normal (s : bool) (m : positive) (e : Z) :
  Z.pos (digits2_pos m) = 53%Z → (-1074 ≤ e ≤ 971)%Z →
  valid_binary (S754_finite s m e) = true.
Proof.
  intros Hd He. cbn [SpecFloat.valid_binary]. unfold bounded, canonical_mantissa.
  rewrite Hd, fexp_normal by lia.
  apply andb_true_iff. split; [apply Z.eqb_eq; lia|].
  apply Z.leb_le. unfold emax, prec. lia.
Qed.

Lemma binary_normalize_pos (M : positive) :
  binary_normalize prec emax (Z.pos M) 0 false = S754_infinity false ∨
  ∃ m e, binary_normalize prec emax (Z.pos M) 0 false = S754_finite false m e ∧
         Z.pos (digits2_pos m) = 53%Z ∧ (-52 ≤ e ≤ 971)%Z.
Proof.
  cbn [binary_normalize]. unfold binary_round.
  rewrite Z.add_0_r, fexp_normal by lia.
  destruct (Z_le_gt_dec 53 (Z.pos (digits2_pos M))) as [HD|HD].
  - unfold shl_align.
    destruct (Z.pos (digits2_pos M) - 53 - 0)%Z eqn:Hn; [| |lia];
      (destruct (binary_round_aux_normal false M 0 loc_Exact HD ltac:(lia))
         as (m2 & e2 & -> & Hd2 & He2);
       destruct (Z.leb_spec e2 971); [right; exists m2, e2|by left];
       split; [done|]; split; [done|]; lia).
  - destruct (shl_align_le M 0 (Z.pos (digits2_pos M) - 53) ltac:(lia))
      as (a & -> & Ha).
    assert (Z.pos (digits2_pos a) = 53%Z) as Hda.
    { pose proof (digits2_pos_bounds M) as [Hlo Hhi].
      set (D := Z.pos (digits2_pos M)) in *.
      assert (0 < 2 ^ (0 - (D - 53)))%Z by (apply Z.pow_pos_nonneg; lia).
      assert (2 ^ 52 = 2 ^ (D - 1) * 2 ^ (0 - (D - 53)))%Z as E1.
      { rewrite <- Z.pow_add_r by lia. f_equal. lia. }
      assert (2 ^ 53 = 2 ^ D * 2 ^ (0 - (D - 53)))%Z as E2.
      { rewrite <- Z.pow_add_r by lia. f_equal. lia. }
      apply Z.le_antisymm.
      - apply digits2_pos_le; [|lia]. rewrite Ha, E2. nia.
      - apply digits2_pos_ge. change (2 ^ (53 - 1))%Z with (2 ^ 52)%Z.
        rewrite Ha, E1. nia. }
    destruct (binary_round_aux_normal false a (Z.pos (digits2_pos M) - 53)
                loc_Exact ltac:(lia) ltac:(lia))
      as (m2 & e2 & -> & Hd2 & He2).
    rewrite (proj2 (Z.leb_le e2 971)) by lia.
    right. exists m2, e2. split; [done|]. split; [done|]. lia.
Qed.

Lemma SFsqrt_normal (m : positive) (e : Z) :
  Z.pos (digits2_pos m) = 53%Z → (-52 ≤ e ≤ 971)%Z →
  ∃ m2 e2, SFsqrt prec emax (S754_finite false m e) = S754_finite false m2 e2 ∧
           Z.pos (digits2_pos m2) = 53%Z ∧ (-52 ≤ e2 ≤ 500)%Z.
Proof.
  intros Hd He. cbn [SFsqrt]. unfold SFsqrt_core_binary. cbn [Zdigits2].
  rewrite Hd, !Z.div2_div.
  rewrite fexp_normal by (Z.to_euclidean_division_equations; lia).
  set (e' := Z.min ((53 + e + 1) / 2 - 53) (e / 2)).
  assert (e - 2 * e' = 52 ∨ e - 2 * e' = 53)%Z as Hs
    by (unfold e'; Z.to_euclidean_division_equations; lia).
  assert (-52 ≤ e' ≤ 460)%Z as He'
    by (unfold e'; Z.to_euclidean_division_equations; lia).
  clearbody e'.
  pose proof (digits2_pos_bounds m) as [Hlo Hhi]. rewrite Hd in Hlo, Hhi.
  change (2 ^ (53 - 1))%Z with (2 ^ 52)%Z in Hlo.
  set (m' := match (e - 2 * e')%Z with
             | 0%Z => Z.pos m
             | Z.pos _ => Z.shiftl (Z.pos m) (e - 2 * e')
             | Z.neg _ => 0%Z
             end).
  assert (2 ^ 104 ≤ m' < 2 ^ 106)%Z as Hm'.
  { unfold m'. destruct Hs as [-> | ->]; rewrite Z.shiftl_mul_pow2 by lia;
      simpl in *; lia. }
  clearbody m'.
  pose proof (Z.sqrtrem_spec m' ltac:(lia)) as Hsr.
  pose proof (Z.sqrtrem_sqrt m') as Hsq.
  pose proof (Z.sqrt_nonneg m') as Hq0.
  destruct (Z.sqrtrem m') as [q r]. cbn [fst] in Hsq. subst q.
  destruct Hsr as [Hm Hr].
  assert (2 ^ 52 ≤ Z.sqrt m' < 2 ^ 53)%Z as Hq.
  { simpl in *. nia. }
  destruct (Z.sqrt m') as [|Q|Q] eqn:HQ; [simpl in Hq; lia| |lia].
  assert (Z.pos (digits2_pos Q) = 53%Z) as HdQ.
  { apply Z.le_antisymm.
    - apply digits2_pos_le; lia.
    - apply digits2_pos_ge. change (2 ^ (53 - 1))%Z with (2 ^ 52)%Z. lia. }
  match goal with
  | |- ∃ m2 e2, binary_round_aux _ _ _ _ _ ?l = _ ∧ _ =>
      destruct (binary_round_aux_normal false Q e' l ltac:(lia) ltac:(lia))
        as (m2 & e2 & -> & Hd2 & He2)
  end.
  rewrite (proj2 (Z.leb_le e2 971)) by lia.
  exists m2, e2. split; [done|]. split; [done|]. lia.
Qed.

Lemma sqrt_of_Z_spec (n : Z) :
  (0 ≤ n)%Z →
  h_spec (Prim2SF (PrimFloat.sqrt
                     (SF2Prim (binary_normalize prec emax n 0 false)))).
Proof.
  intros Hn. rewrite sqrt_spec. unfold SF64sqrt.
  destruct n as [|M|M]; [| |lia].
  - left. reflexivity.
  - destruct (binary_normalize_pos M) as [->|(m & e & -> & Hd & He)].
    + right; left. reflexivity.
    + rewrite Prim2SF_SF2Prim by (apply valid_normal; (done || lia)).
      destruct (SFsqrt_normal m e Hd He) as (m2 & e2 & -> & Hd2 & He2).
      right; right. exists m2, e2. done.
Qed.

(** *** On primitive floats *)

Lemma SFadd_half_g_h (X H : spec_float) :
  g_spec X → h_spec H →
  SFadd prec emax (SFhalf X) (SFhalf H) = SFhalf (SFadd prec emax X H).
Proof.
  intros [->|(m & e & -> & Hd & He & Hcase)]
         [->|[->|(mh & eh & -> & Hdh & Heh)]]; try done.
  apply SFadd_half; try done; lia.
Qed.

Lemma half_of_add_move (x x' c c' : float) :
  g_value x → half_of x x' → move_spec (Prim2SF c) → half_of c c' →
  g_value (x + c) ∧ half_of (x + c) (x' + c').
Proof.
  unfold g_value, half_of. intros Hg Hx Hc Hc'.
  rewrite !add_spec, Hx, Hc'. unfold SF64add.
  destruct (g_spec_add _ _ Hg Hc) as [? ->]. done.
Qed.

Lemma half_of_add_heuristic (x x' h h' : float) :
  g_value x → h_value h → half_of x x' → half_of h h' →
  half_of (x + h) (x' + h').
Proof.
  unfold g_value, h_value, half_of. intros Hg Hh Hx Hh'.
  rewrite !add_spec, Hx, Hh'. unfold SF64add.
  by apply SFadd_half_g_h.
Qed.

Lemma half_of_scaled (h w z : float) :
  h_value h →
  Prim2SF w = S754_finite false 4503599627370496 (-53) →
  Prim2SF z = S754_zero false →
  half_of h (h * w + z).
Proof.
  unfold h_value, half_of. intros Hh Hw Hz.
  rewrite add_spec, mul_spec, Hw, Hz. unfold SF64add, SF64mul.
  destruct Hh as [->|[->|(m & e & -> & Hd & He)]]; [done|done|].
  rewrite SFmul_half by (done || lia). done.
Qed.

Lemma half_of_compare (x x' y y' : float) :
  half_of x x' → half_of y y' →
  PrimFloat.ltb x' y' = PrimFloat.ltb x y ∧
  PrimFloat.leb x' y' = PrimFloat.leb x y.
Proof.
  unfold half_of. intros Hx Hy.
  rewrite !ltb_spec, !leb_spec. unfold SFltb, SFleb.
  by rewrite Hx, Hy, SFcompare_half.
Qed.

(** ** Routes compared under a zero risk map *)

(** With a uniformly-zero risk map every cell reads as 0.0 and the
    risk of any path adds up to 0.0. *)
Lemma py_index_elem {A} (l : list A) (i : Z) (a : A) :
  py_index l i = Done a → a ∈ l.
Proof.
  unfold py_index. case_match; [done|].
  destruct (l !! _) eqn:Hl; [|done].
  intros [= <-]. by eapply list_elem_of_lookup_2.
Qed.

Lemma risk_value_zero rm p : uniformly_zero rm → risk_value rm p = fzero.
Proof.
  intros Hz. unfold risk_value, risk_at.
  destruct (py_index rm p.1) as [row| |] eqn:Hrow; simpl; try done.
  destruct (py_index row p.2) as [v| |] eqn:Hv; simpl; try done.
  apply py_index_elem in Hrow, Hv.
  unfold uniformly_zero in Hz. rewrite Forall_forall in Hz.
  specialize (Hz row Hrow). rewrite Forall_forall in Hz. by apply Hz.
Qed.

Lemma path_risk_zero rm path : uniformly_zero rm → path_risk rm path = fzero.
Proof.
  intros Hz. unfold path_risk.
  induction (reverse path) as [|p l IH]; [done|].
  simpl. rewrite (risk_value_zero rm p Hz). exact IH.
Qed.

Lemma empty_iff_empty {A B} (l1 : list A) (l2 : list B) (P : Prop) :
  (l1 ≠ [] ↔ P) → (l2 ≠ [] ↔ P) → (l1 = [] ↔ l2 = []).
Proof. destruct l1, l2; naive_solver. Qed.

(** A start or goal outside the grid: both searches return their
    no-path result before the loop. *)
Lemma effective_risk_map_Done grid risk_map :
  ∃ rm, effective_risk_map grid risk_map = Done rm.
Proof.
  destruct risk_map as [rm|]; simpl; [eauto|].
  destruct (default_risk_map_covers grid) as (rm & ? & _). eauto.
Qed.

Lemma out_of_bounds_sentinel fuel grid start goal risk_map blocked
    safety_weight :
  in_bounds (rows_of grid) (cols_of grid) start = false ∨
  in_bounds (rows_of grid) (cols_of grid) goal = false →
  find_path fuel grid start goal blocked = Done ([], finf, 0%Z) ∧
  find_path_with_risk fuel grid start goal risk_map blocked safety_weight
    = Done ([], finf, finf, 0%Z).
Proof.
  intros Hout. unfold find_path, find_path_with_risk.
  destruct (effective_risk_map_Done grid risk_map) as [rm ->].
  cbn [mbind outcome_bind obind].
  case_bool_decide as Hrows; [done|].
  destruct grid as [|row0 rest]; [done|].
  change (py_index (row0 :: rest) 0) with (Done (A:=list Z) row0).
  cbn [mbind outcome_bind obind].
  change (Z.of_nat (length row0)) with (cols_of (row0 :: rest)).
  destruct (in_bounds _ _ start); cbn [negb]; [|done].
  destruct Hout as [? | ->]; done.
Qed.

(** ** [find_path_with_risk] at weight 0.5 on a zero risk map *)

(** What [heapq] does to a list depends on the comparison only through
    its values. *)
Section HeapqExt.
Context {A : Type}.
Variables lt1 lt2 : A → A → bool.
Hypothesis Hlt : ∀ a b, lt1 a b = lt2 a b.

Lemma siftdown_loop_ext n heap newitem startpos pos :
  Heapq.siftdown_loop lt1 n heap newitem startpos pos
    = Heapq.siftdown_loop lt2 n heap newitem startpos pos.
Proof.
  revert heap pos. induction n as [|n IH]; intros heap pos;
    cbn [Heapq.siftdown_loop]; [done|].
  case_decide; [|done]. destruct (heap !! _); [|done].
  rewrite Hlt. destruct (lt2 _ _); [apply IH|done].
Qed.

Lemma siftdown_ext heap startpos pos :
  Heapq.siftdown lt1 heap startpos pos = Heapq.siftdown lt2 heap startpos pos.
Proof.
  unfold Heapq.siftdown. destruct (heap !! pos); [|done].
  apply siftdown_loop_ext.
Qed.

Lemma siftup_loop_ext n heap pos :
  Heapq.siftup_loop lt1 n heap pos = Heapq.siftup_loop lt2 n heap pos.
Proof.
  revert heap pos. induction n as [|n IH]; intros heap pos;
    cbn [Heapq.siftup_loop]; [done|].
  case_decide; [|done].
  destruct (heap !! (2 * pos + 1)) as [c|]; [|by destruct (heap !! _)].
  destruct (heap !! (2 * pos + 1 + 1)) as [r|]; [|by destruct (heap !! _)].
  rewrite Hlt. by destruct (heap !! _).
Qed.

Lemma siftup_ext heap pos :
  Heapq.siftup lt1 heap pos = Heapq.siftup lt2 heap pos.
Proof.
  unfold Heapq.siftup. destruct (heap !! pos); [|done].
  rewrite siftup_loop_ext. destruct (Heapq.siftup_loop _ _ _ _).
  apply siftdown_ext.
Qed.

Lemma heappush_ext heap item :
  Heapq.heappush lt1 heap item = Heapq.heappush lt2 heap item.
Proof. unfold Heapq.heappush. apply siftdown_ext. Qed.

Lemma heappop_ext heap :
  Heapq.heappop lt1 heap = Heapq.heappop lt2 heap.
Proof.
  unfold Heapq.heappop. destruct (reverse heap); [done|].
  destruct (reverse _); [done|]. by rewrite siftup_ext.
Qed.
End HeapqExt.

Lemma half_of_zero : half_of fzero fzero.
Proof. reflexivity. Qed.

Lemma g_value_zero : g_value fzero.
Proof. by left. Qed.

Lemma node_g_halved st st' p :
  halved st st' →
  half_of (node_g (all_nodes st) p) (node_g (all_nodes st') p) ∧
  g_value (node_g (all_nodes st) p).
Proof.
  intros (_ & _ & Hn). specialize (Hn p). unfold node_g.
  destruct (all_nodes st !! p), (all_nodes st' !! p);
    [by destruct Hn as (_ & ? & _ & ?)|done|done|].
  split; [apply half_of_zero|apply g_value_zero].
Qed.

Lemma node_lt_halved st st' a b :
  halved st st' →
  node_lt (all_nodes st') a b = node_lt (all_nodes st) a b.
Proof.
  intros (_ & _ & Hn). unfold node_lt.
  assert (∀ p, half_of (node_f (all_nodes st) p) (node_f (all_nodes st') p))
    as Hf.
  { intros p. specialize (Hn p). unfold node_f.
    destruct (all_nodes st !! p), (all_nodes st' !! p);
      [by destruct Hn as (_ & _ & ? & _)|done|done|apply half_of_zero]. }
  by destruct (half_of_compare _ _ _ _ (Hf a) (Hf b)) as [-> _].
Qed.

Lemma parent_halved st st' p :
  halved st st' →
  all_nodes st' !! p ≫= parent = all_nodes st !! p ≫= parent.
Proof.
  intros (_ & _ & Hn). specialize (Hn p).
  destruct (all_nodes st !! p), (all_nodes st' !! p); [|done|done|done].
  simpl. by destruct Hn as (-> & _).
Qed.

Lemma risk_at_zero rm p v :
  uniformly_zero rm → risk_at rm p = Done v → v = fzero.
Proof.
  intros Hz Hv. pose proof (risk_value_zero rm p Hz) as Hrv.
  unfold risk_value in Hrv. by rewrite Hv in Hrv.
Qed.

Lemma calculate_cost_half x1 y1 x2 y2 :
  move_spec (Prim2SF (calculate_cost x1 y1 x2 y2)) ∧
  half_of (calculate_cost x1 y1 x2 y2)
    (calculate_cost x1 y1 x2 y2 * (1 - 0.5) + fzero * 0.5)%float.
Proof.
  unfold calculate_cost. destruct (_ && _).
  - split; [by right|reflexivity].
  - split; [by left|reflexivity].
Qed.

Lemma heuristic_h_value x1 y1 x2 y2 : h_value (heuristic x1 y1 x2 y2).
Proof.
  unfold h_value, heuristic, float_of_Z. apply sqrt_of_Z_spec.
  pose proof (Z.pow_even_nonneg (x2 - x1) 2) as H1.
  pose proof (Z.pow_even_nonneg (y2 - y1) 2) as H2.
  assert (Z.Even 2) as He by (by exists 1%Z). specialize (H1 He).
  specialize (H2 He). lia.
Qed.

Lemma risk_heuristic_half rm rows cols x1 y1 x2 y2 h' :
  uniformly_zero rm →
  risk_heuristic rm rows cols 0.5%float x1 y1 x2 y2 = Done h' →
  half_of (heuristic x1 y1 x2 y2) h'.
Proof.
  intros Hz. unfold risk_heuristic.
  intros (avg & Havg & [= <-])%bind_Done.
  assert (avg = fzero) as ->.
  { destruct (_ && _); [|by injection Havg].
    apply bind_Done in Havg as (r1 & Hr1%(risk_at_zero _ _ _ Hz) & Havg).
    apply bind_Done in Havg as (r2 & Hr2%(risk_at_zero _ _ _ Hz) & [= <-]).
    by subst. }
  apply (half_of_scaled (heuristic x1 y1 x2 y2));
    [apply heuristic_h_value|reflexivity|reflexivity].
Qed.

(** One neighbour: the two searches skip it together, or update its
    node together. *)
Lemma relax_halved rm rows cols goal current st st' n st2' :
  uniformly_zero rm → halved st st' →
  relax_risk rm rows cols 0.5%float goal current st' n = Done st2' →
  halved (relax goal current st n) st2'.
Proof.
  intros Hz Hh. pose proof Hh as (Hopen & Hclosed & Hnodes).
  unfold relax_risk, relax. rewrite Hclosed.
  case_bool_decide; [by intros [= <-]|].
  intros (rc & Hrc & Hrest)%bind_Done.
  assert (rc = fzero) as ->.
  { destruct (in_bounds rows cols n); [|by injection Hrc].
    apply bind_Done in Hrc as (r & ->%(risk_at_zero _ _ _ Hz) & [= <-]).
    reflexivity. }
  destruct (node_g_halved st st' current Hh) as [Hgc Hgv].
  destruct (calculate_cost_half current.1 current.2 n.1 n.2) as [Hmv Hmv'].
  destruct (half_of_add_move _ _ _ _ Hgv Hgc Hmv Hmv') as [Htv Ht].
  set (tg := (node_g (all_nodes st) current +
              calculate_cost current.1 current.2 n.1 n.2)%float) in *.
  set (tg' := (node_g (all_nodes st') current +
               (calculate_cost current.1 current.2 n.1 n.2 * (1 - 0.5) +
                fzero * 0.5))%float) in *.
  assert (match all_nodes st' !! n with
          | Some nb => fge tg' (g nb)
          | None => false
          end
          = match all_nodes st !! n with
            | Some nb => fge tg (g nb)
            | None => false
            end) as Hskip.
  { specialize (Hnodes n).
    destruct (all_nodes st !! n) as [nb|], (all_nodes st' !! n) as [nb'|];
      try done.
    destruct Hnodes as (_ & Hgn & _). unfold fge.
    by destruct (half_of_compare _ _ _ _ Hgn Ht) as [_ ->]. }
  rewrite Hskip in Hrest.
  destruct (match all_nodes st !! n with
            | Some nb => fge tg (g nb)
            | None => false
            end); [by injection Hrest as <-|].
  apply bind_Done in Hrest as (h' & Hh'%(risk_heuristic_half _ _ _ _ _ _ _ _ Hz)
                               & [= <-]).
  assert (∀ p,
    match <[n := {| g := tg; h := heuristic n.1 n.2 goal.1 goal.2;
                    f := (tg + heuristic n.1 n.2 goal.1 goal.2)%float;
                    parent := Some current |}]> (all_nodes st) !! p,
          <[n := {| g := tg'; h := h'; f := (tg' + h')%float;
                    parent := Some current |}]> (all_nodes st') !! p with
    | Some m, Some m' => node_half m m'
    | None, None => True
    | _, _ => False
    end) as Hnew.
  { intros p. destruct (decide (n = p)) as [->|Hne].
    - rewrite !lookup_insert_eq. split; [done|]. split; [done|].
      split; [|done]. cbn [f].
      apply half_of_add_heuristic; [done|apply heuristic_h_value|done|done].
    - rewrite !lookup_insert_ne by done. apply Hnodes. }
  split; [|split; [done|exact Hnew]]. cbn [open_set]. rewrite Hopen.
  apply heappush_ext. intros a b.
  apply (node_lt_halved {| open_set := []; closed_set := ∅; all_nodes := _ |}
                        {| open_set := []; closed_set := ∅; all_nodes := _ |}).
  split; [done|]. split; [done|]. exact Hnew.
Qed.

Lemma relax_all_halved rm rows cols goal current ns st st' st2' :
  uniformly_zero rm → halved st st' →
  relax_risk_all rm rows cols 0.5%float goal current st' ns = Done st2' →
  halved (foldl (relax goal current) st ns) st2'.
Proof.
  intros Hz. revert st st'.
  induction ns as [|n ns IH]; intros st st' Hh; simpl.
  { by intros [= <-]. }
  intros (st1' & Hst1 & Hrest)%bind_Done.
  eapply IH; [|exact Hrest]. by eapply relax_halved.
Qed.

Lemma walk_parents_halved n rm rows cols nodes nodes' node acc total r t :
  (∀ p, nodes' !! p ≫= parent = nodes !! p ≫= parent) →
  walk_parents_risk n rm rows cols nodes' node acc total = Done (r, t) →
  walk_parents n nodes node acc = Done r.
Proof.
  intros Hpar. revert node acc total.
  induction n as [|n IH]; intros [p|] acc total; simpl; try done.
  - by intros [= <- <-].
  - intros (t' & _ & Hw)%bind_Done. rewrite Hpar in Hw. by eapply IH.
  - by intros [= <- <-].
Qed.

(** The loops run in lockstep: the risk search returns the path the
    distance search returns, at half its cost. *)
Lemma find_path_with_risk_loop_halved fuel budget grid rm rows cols blocked
    goal st st' path dist risk len :
  uniformly_zero rm → halved st st' →
  find_path_with_risk_loop fuel budget grid rm rows cols 0.5%float blocked
    goal st' = Done (path, dist, risk, len) →
  ∃ cost, find_path_loop fuel budget grid blocked goal st
            = Done (path, cost, len) ∧
          (path ≠ [] → half_of cost dist).
Proof.
  intros Hz. revert st st'.
  induction fuel as [|fuel IH]; intros st st' Hh; simpl; [done|].
  pose proof Hh as (Hopen & Hclosed & Hnodes).
  rewrite Hopen.
  rewrite (heappop_ext _ _ (fun a b => node_lt_halved st st' a b Hh)).
  destruct (Heapq.heappop _ _) as [[current open']|].
  2:{ intros [= <- <- <- <-]. by exists finf. }
  case_bool_decide as Hgoal.
  - intros ([rpath total] & Hwalk & [= <- <- <- <-])%bind_Done.
    eapply walk_parents_halved in Hwalk;
      [|intros p; by apply parent_halved].
    rewrite Hwalk. cbn [mbind outcome_bind obind].
    eexists. split; [done|]. intros _.
    by destruct (node_g_halved st st' current Hh).
  - intros (ns & Hns & (st2' & Hst2 & Hrec)%bind_Done)%bind_Done.
    rewrite Hns. cbn [mbind outcome_bind obind].
    eapply IH; [|exact Hrec].
    eapply relax_all_halved; [done| |exact Hst2].
    split; [done|]. split; [by rewrite Hclosed|done].
Qed.

(** With a risk map that is 0.0 everywhere and safety weight 0.5,
    [find_path_with_risk] returns the path of [find_path] whenever
    start and goal pass the validation of [find_path]. *)
Lemma find_path_with_risk_balanced fuel grid start goal rm blocked
    sp sc sl p d rk l :
  uniformly_zero rm →
  admissible grid (blocked_set_of blocked) start →
  admissible grid (blocked_set_of blocked) goal →
  find_path fuel grid start goal blocked = Done (sp, sc, sl) →
  find_path_with_risk fuel grid start goal (Some rm) blocked 0.5%float
    = Done (p, d, rk, l) →
  p = sp ∧ l = sl ∧ (p ≠ [] → half_of sc d).
Proof.
  intros Hz (Hibs & (vs & Hvs & Hvs1) & Hbs) (Hibg & (vg & Hvg & Hvg1) & Hbg).
  unfold find_path, find_path_with_risk.
  cbn [effective_risk_map mbind outcome_bind obind].
  case_bool_decide as Hrows.
  { apply in_bounds_spec in Hibs. lia. }
  destruct grid as [|row0 rest]; [done|].
  change (py_index (row0 :: rest) 0) with (Done (A:=list Z) row0).
  cbn [mbind outcome_bind obind].
  change (Z.of_nat (length row0)) with (cols_of (row0 :: rest)).
  rewrite Hibs, Hibg. cbn [negb].
  rewrite (bool_decide_eq_false_2 _ Hbs), (bool_decide_eq_false_2 _ Hbg).
  rewrite Hvs, Hvg. cbn [mbind outcome_bind obind].
  rewrite !bool_decide_eq_false_2 by done.
  intros Hfp (h0 & Hh0 & Hloop)%bind_Done.
  eapply find_path_with_risk_loop_halved in Hloop as (cost & Hrun & Hhalf);
    [|done|].
  - rewrite Hrun in Hfp. injection Hfp as <- <- <-. done.
  - unfold find_path_init. split; [done|]. split; [done|].
    intros q. cbn [all_nodes]. destruct (decide (start = q)) as [->|Hne].
    + rewrite !lookup_singleton_eq. split; [done|].
      split; [apply half_of_zero|]. split; [|apply g_value_zero]. cbn [f].
      apply half_of_add_heuristic;
        [apply g_value_zero|apply heuristic_h_value|apply half_of_zero|].
      by eapply risk_heuristic_half.
    + by rewrite !lookup_singleton_ne.
Qed.

(** C6, as the code has it: with a present, uniformly-zero risk map the
    balanced entry (weight 0.5) carries the path of the shortest entry
    whenever start and goal pass the validation of [find_path], or one
    of them lies outside the grid, or the map is the empty list: at
    weight 0.5 every cost of the risk search is exactly half the cost
    the distance search computes, so both make the same comparisons.
    The safest entry (weight 0.8) need not carry that path; it does
    when start or goal lies outside the grid or the map is the empty
    list.  Each non-empty path is a walk of 8-connected steps from
    start to goal reported with risk 0.0; the safest and balanced
    entries have a route or not together, and together with the
    shortest entry when start and goal pass the validation of
    [find_path]. *)
Theorem compare_routes_zero_risk fuel grid start goal rm blocked r calls :
  uniformly_zero rm →
  compare_routes fuel grid start goal (Some rm) blocked = Done (r, calls) →
  zero_risk_entry start goal (shortest r) ∧
  zero_risk_entry start goal (safest r) ∧
  zero_risk_entry start goal (balanced r) ∧
  (entry_path (safest r) = [] ↔ entry_path (balanced r) = []) ∧
  (admissible grid (blocked_set_of blocked) start →
   admissible grid (blocked_set_of blocked) goal →
   (entry_path (shortest r) = [] ↔ entry_path (safest r) = [])) ∧
  (admissible grid (blocked_set_of blocked) start →
   admissible grid (blocked_set_of blocked) goal →
   entry_path (balanced r) = entry_path (shortest r) ∧
   entry_length (balanced r) = entry_length (shortest r)) ∧
  (in_bounds (rows_of grid) (cols_of grid) start = false ∨
   in_bounds (rows_of grid) (cols_of grid) goal = false ∨ rm = [] →
   entry_path (balanced r) = entry_path (shortest r) ∧
   entry_path (safest r) = entry_path (shortest r)).
Proof.
  intros Hz. unfold compare_routes.
  intros ([[sp sc] sl] & Hsp & Hrest)%bind_Done.
  apply bind_Done in Hrest as ([[[p1 d1] r1] c1] & H1 & Hrest).
  apply bind_Done in Hrest as ([[[p2 d2] r2] c2] & H2 & Hrest).
  injection Hrest as <- <-.
  cbn [shortest safest balanced entry_path entry_length].
  assert (zero_risk_entry start goal
            {| entry_path := sp; entry_distance := py_round2 sc;
               entry_risk := fzero; entry_length := route_length sp |}) as Hs.
  { intros Hne. cbn [entry_path entry_risk] in Hne |- *.
    destruct (find_path_sound _ _ _ _ _ _ _ _ Hsp Hne)
      as (Hhd & Hlast & Hsteps & _).
    do 2 (split; [done|]). split; [|done].
    intros i p q Hp Hq. eapply neighbor_eight_connected, Hsteps; done. }
  assert (∀ w p d rk l,
            find_path_with_risk fuel grid start goal (Some rm) blocked w
              = Done (p, d, rk, l) →
            zero_risk_entry start goal
              {| entry_path := p; entry_distance := py_round2 d;
                 entry_risk := py_round2 rk; entry_length := route_length p |})
    as Hrisk.
  { intros w p d rk l Hfp Hne. cbn [entry_path entry_risk] in Hne |- *.
    destruct (find_path_with_risk_sound _ _ _ _ _ _ _ _ _ _ _ Hfp Hne)
      as (rm' & [= <-] & Hhd & Hlast & Hsteps & _ & ->).
    do 2 (split; [done|]). split.
    - intros i a b Ha Hb. eapply neighbor_eight_connected, Hsteps; done.
    - by rewrite path_risk_zero, py_round2_zero. }
  split; [done|].
  destruct (risk_map_truthy (Some rm)) eqn:Htruthy.
  - apply bind_Done in H1 as ([[[p d] rk] l] & Hfp1 & [= <- <- <- <-]).
    apply bind_Done in H2 as ([[[p' d'] rk'] l'] & Hfp2 & [= <- <- <- <-]).
    split; [by eapply Hrisk|]. split; [by eapply Hrisk|]. split.
    { eapply empty_iff_empty; by eapply find_path_with_risk_nonempty_iff. }
    split.
    { intros Has Hag. eapply empty_iff_empty.
      * by eapply find_path_nonempty_iff.
      * rewrite (find_path_with_risk_nonempty_iff _ _ _ _ _ _ _ _ _ _ _ Hfp1).
        pose proof Has as (Hibs & _). pose proof Hag as (Hibg & _). tauto. }
    split.
    { intros Has Hag.
      destruct (find_path_with_risk_balanced _ _ _ _ _ _ _ _ _ _ _ _ _
                  Hz Has Hag Hsp Hfp2) as (-> & _). done. }
    intros [Hout | [Hout | ->]]; [| |done].
    + destruct (out_of_bounds_sentinel fuel grid start goal (Some rm) blocked
                  0.5%float (or_introl Hout)) as [Hf Hb].
      destruct (out_of_bounds_sentinel fuel grid start goal (Some rm) blocked
                  0.8%float (or_introl Hout)) as [_ Hsf].
      rewrite Hf in Hsp. rewrite Hb in Hfp2. rewrite Hsf in Hfp1.
      injection Hsp as <- _ _. injection Hfp2 as <- _ _ _.
      injection Hfp1 as <- _ _ _. done.
    + destruct (out_of_bounds_sentinel fuel grid start goal (Some rm) blocked
                  0.5%float (or_intror Hout)) as [Hf Hb].
      destruct (out_of_bounds_sentinel fuel grid start goal (Some rm) blocked
                  0.8%float (or_intror Hout)) as [_ Hsf].
      rewrite Hf in Hsp. rewrite Hb in Hfp2. rewrite Hsf in Hfp1.
      injection Hsp as <- _ _. injection Hfp2 as <- _ _ _.
      injection Hfp1 as <- _ _ _. done.
  - injection H1 as <- <- <- <-. injection H2 as <- <- <- <-.
    split; [intros Hne; rewrite py_round2_zero; exact (Hs Hne)|].
    split; [intros Hne; rewrite py_round2_zero; exact (Hs Hne)|]. done.
Qed.

Lemma compare_routes_zero_risk_witness :
  uniformly_zero zero_risk_5x5 ∧
  admissible grid_ties (blocked_set_of None) (4, 0)%Z ∧
  admissible grid_ties (blocked_set_of None) (0, 4)%Z ∧
  ∃ r calls,
    compare_routes 100 grid_ties (4, 0)%Z (0, 4)%Z (Some zero_risk_5x5) None
      = Done (r, calls) ∧
    entry_path (shortest r)
      = [(4, 0); (3, 1); (3, 2); (2, 3); (1, 4); (0, 4)]%Z ∧
    entry_path (balanced r)
      = [(4, 0); (3, 1); (3, 2); (2, 3); (1, 4); (0, 4)]%Z ∧
    zero_risk_entry (4, 0)%Z (0, 4)%Z (shortest r) ∧
    zero_risk_entry (4, 0)%Z (0, 4)%Z (safest r) ∧
    zero_risk_entry (4, 0)%Z (0, 4)%Z (balanced r) ∧
    (entry_path (safest r) = [] ↔ entry_path (balanced r) = []) ∧
    (admissible grid_ties (blocked_set_of None) (4, 0)%Z →
     admissible grid_ties (blocked_set_of None) (0, 4)%Z →
     (entry_path (shortest r) = [] ↔ entry_path (safest r) = [])) ∧
    (admissible grid_ties (blocked_set_of None) (4, 0)%Z →
     admissible grid_ties (blocked_set_of None) (0, 4)%Z →
     entry_path (balanced r) = entry_path (shortest r) ∧
     entry_length (balanced r) = entry_length (shortest r)) ∧
    (in_bounds (rows_of grid_ties) (cols_of grid_ties) (4, 0)%Z = false ∨
     in_bounds (rows_of grid_ties) (cols_of grid_ties) (0, 4)%Z = false ∨
     zero_risk_5x5 = [] →
     entry_path (balanced r) = entry_path (shortest r) ∧
     entry_path (safest r) = entry_path (shortest r)).
Proof.
  assert (uniformly_zero zero_risk_5x5) as Hz by (repeat constructor).
  split; [exact Hz|].
  split.
  { split; [reflexivity|]. split; [|apply not_elem_of_empty].
    exists 0%Z. split; [reflexivity|discriminate]. }
  split.
  { split; [reflexivity|]. split; [|apply not_elem_of_empty].
    exists 0%Z. split; [reflexivity|discriminate]. }
  eexists _, _. split; [vm_compute; reflexivity|].
  split; [reflexivity|]. split; [reflexivity|].
  eapply (compare_routes_zero_risk 100 grid_ties (4, 0)%Z (0, 4)%Z
            zero_risk_5x5 None); [exact Hz|].
  vm_compute; reflexivity.
Defined.

(** The claim as first stated fails in two ways.  On [grid_ties], from
    (4,0) to (0,4) with the zero risk map, the safest path leaves the
    shortest one at its third cell although start and goal are free
    cells (both routes have three diagonal and two straight steps).
    And from the obstacle cell (4,4) to (0,0), [find_path] rejects the
    start and the shortest path is empty, while [find_path_with_risk]
    checks only the bounds, so the balanced and safest entries carry a
    route. *)
Lemma compare_routes_zero_risk_paths_differ :
  uniformly_zero zero_risk_5x5 ∧
  (∃ r calls,
    compare_routes 100 grid_ties (4, 0)%Z (0, 4)%Z (Some zero_risk_5x5) None
      = Done (r, calls) ∧
    entry_path (shortest r)
      = [(4, 0); (3, 1); (3, 2); (2, 3); (1, 4); (0, 4)]%Z ∧
    entry_path (safest r)
      = [(4, 0); (3, 1); (2, 2); (2, 3); (1, 4); (0, 4)]%Z ∧
    entry_path (balanced r) = entry_path (shortest r) ∧
    entry_path (shortest r) ≠ entry_path (safest r)) ∧
  (∃ r calls,
    compare_routes 100 grid_ties (4, 4)%Z (0, 0)%Z (Some zero_risk_5x5) None
      = Done (r, calls) ∧
    grid_at grid_ties (4, 4)%Z = Done 1%Z ∧
    entry_path (shortest r) = [] ∧
    entry_path (balanced r)
      = [(4, 4); (3, 3); (2, 2); (1, 1); (0, 0)]%Z ∧
    entry_path (safest r)
      = [(4, 4); (3, 3); (2, 2); (1, 1); (0, 0)]%Z).
Proof.
  split; [repeat constructor|]. split.
  - eexists _, _. split; [vm_compute; reflexivity|].
    cbn. repeat split; discriminate.
  - eexists _, _. split; [vm_compute; reflexivity|].
    repeat split.
Qed.

(** ** Where the code departs from the specification *)

(** C4 on the code: around any cell the four straight moves cost 1.0
    and the four diagonal moves cost the constant 1.414, so the four
    diagonal steps across the free 5×5 grid cost 5.656 = 4 × 1.414,
    which is below 4 × 1.41421356. *)
Theorem diagonal_cost_on_code :
  (∀ x y : Z,
     (fun d : Z * Z => calculate_cost x y (x + d.1) (y + d.2)) <$> directions
       = [1.414; 1.0; 1.414; 1.0; 1.0; 1.414; 1.0; 1.414]%float) ∧
  find_path 100 grid_5x5_free (0, 0)%Z (4, 4)%Z None
    = Done ([(0, 0); (1, 1); (2, 2); (3, 3); (4, 4)]%Z, 5.656%float, 4%Z) ∧
  (4 * 1.414 = 5.656)%float ∧
  PrimFloat.ltb 5.656 (4 * 1.41421356) = true.
Proof.
  split.
  - intros x y. unfold calculate_cost, directions. cbn [fmap list_fmap fst snd].
    rewrite !Z.add_simpl_l. reflexivity.
  - repeat split; vm_compute; reflexivity.
Qed.

(** [find_path_iterate] runs the very loop of [find_path]: whatever the
    loop returns from the state it reaches, it returns from the state it
    started in. *)
Lemma find_path_iterate_loop n budget grid blocked goal st st' :
  find_path_iterate n grid blocked goal st = Done st' →
  ∀ fuel r, find_path_loop fuel budget grid blocked goal st' = Done r →
  ∃ fuel', find_path_loop fuel' budget grid blocked goal st = Done r.
Proof.
  revert st. induction n as [|n IH]; intros st; simpl.
  { intros [= <-] fuel r Hrun. eauto. }
  destruct (Heapq.heappop _ _) as [[current open']|] eqn:Hpop.
  2:{ intros [= <-] fuel r Hrun. eauto. }
  case_bool_decide as Hgoal.
  { intros [= <-] fuel r Hrun. eauto. }
  intros (ns & Hns & Hrec)%bind_Done fuel r Hrun.
  destruct (IH _ Hrec fuel r Hrun) as [fuel' Hrun'].
  exists (S fuel'). simpl. rewrite Hpop.
  rewrite bool_decide_eq_false_2 by done. rewrite Hns. exact Hrun'.
Qed.

(** After ten iterations on [grid_detour] the heap no longer yields its
    minimum: [heappop] returns (1,0) with f ≈ 5.6562 while the entry
    (0,2), whose node has f = 5.414, stays in the heap. *)
Lemma heappop_misses_minimum :
  ∃ st rest,
    find_path_iterate 10 grid_detour ∅ (0, 1)%Z
      (find_path_init (4, 3)%Z (0, 1)%Z) = Done st ∧
    Heapq.heappop (node_lt (all_nodes st)) (open_set st)
      = Some ((1, 0)%Z, rest) ∧
    (0, 2)%Z ∈ rest ∧
    node_lt (all_nodes st) (0, 2)%Z (1, 0)%Z = true.
Proof.
  eexists _, _. split; [vm_compute; reflexivity|].
  split; [vm_compute; reflexivity|].
  split; [|vm_compute; reflexivity].
  apply list_elem_of_In. vm_compute. tauto.
Qed.

(** C1 on the code: on [grid_detour], from (4,3) to (0,1), [find_path]
    returns the four-diagonal route of cost 5.656 although the route
    through (1,3) and (0,2) is a valid walk of cost 5.414.  The node
    (0,2), whose [f] was lowered in place while it sat in the heap, is
    still below the root when the goal is popped. *)
Theorem find_path_returns_costlier_route :
  find_path 100 grid_detour (4, 3)%Z (0, 1)%Z None
    = Done ([(4, 3); (3, 2); (2, 1); (1, 0); (0, 1)]%Z, 5.656%float, 4%Z) ∧
  (∀ i p q,
     [(4, 3); (3, 3); (2, 3); (1, 3); (0, 2); (0, 1)]%Z !! i = Some p →
     [(4, 3); (3, 3); (2, 3); (1, 3); (0, 2); (0, 1)]%Z !! S i = Some q →
     neighbor_of grid_detour (blocked_set_of None) p q) ∧
  path_cost [(4, 3); (3, 3); (2, 3); (1, 3); (0, 2); (0, 1)]%Z = 5.414%float ∧
  PrimFloat.ltb 5.414 5.656 = true.
Proof.
  split; [vm_compute; reflexivity|].
  split; [|split; vm_compute; reflexivity].
  apply is_walk_b_true. vm_compute; reflexivity.
Qed.

(** [find_path] does validate its endpoints: an in-bounds start or goal
    that is blocked or an obstacle yields the sentinel, at any fuel. *)
Lemma find_path_rejects_obstructed fuel grid start goal blocked :
  rectangular grid →
  in_bounds (rows_of grid) (cols_of grid) start = true →
  in_bounds (rows_of grid) (cols_of grid) goal = true →
  obstructed grid (blocked_set_of blocked) start ∨
  obstructed grid (blocked_set_of blocked) goal →
  find_path fuel grid start goal blocked = Done ([], finf, 0%Z).
Proof.
  intros Hrect Hbs Hbg Hbad. unfold find_path.
  destruct grid as [|row0 rest]; [done|].
  rewrite bool_decide_eq_false_2 by (unfold rows_of; simpl; lia).
  change (py_index (row0 :: rest) 0) with (Done (A:=list Z) row0).
  cbn [mbind outcome_bind obind].
  change (Z.of_nat (length row0)) with (cols_of (row0 :: rest)).
  rewrite Hbs, Hbg. cbn [negb].
  destruct (rectangular_grid_at _ _ Hrect Hbs) as [vs Hvs].
  destruct (rectangular_grid_at _ _ Hrect Hbg) as [vg Hvg].
  unfold obstructed in Hbad. rewrite Hvs, Hvg in Hbad |- *.
  cbn [mbind outcome_bind obind].
  repeat (case_bool_decide; cbn [mbind outcome_bind obind]); try done.
  exfalso. destruct Hbad as [[?|?]|[?|?]]; try done; congruence.
Qed.

(** C3 on the code: [find_path] rejects a start on an obstacle or on a
    blocked cell, [find_path_with_risk] only checks the bounds and
    returns a route that begins on that cell. *)
Theorem find_path_with_risk_accepts_bad_start :
  find_path 100 grid_wall_start (0, 0)%Z (0, 1)%Z None = Done ([], finf, 0%Z) ∧
  find_path_with_risk 100 grid_wall_start (0, 0)%Z (0, 1)%Z None None 0.5
    = Done ([(0, 0); (0, 1)]%Z, 0.5%float, fzero, 1%Z) ∧
  find_path 100 [[0; 0]]%Z (0, 0)%Z (0, 1)%Z (Some [(0, 0)%Z])
    = Done ([], finf, 0%Z) ∧
  find_path_with_risk 100 [[0; 0]]%Z (0, 0)%Z (0, 1)%Z None
    (Some [(0, 0)%Z]) 0.5
    = Done ([(0, 0); (0, 1)]%Z, 0.5%float, fzero, 1%Z).
Proof. repeat split; vm_compute; reflexivity. Qed.

(** * Further properties of the planner *)

(** ** [_get_neighbors], [_calculate_cost] and [_heuristic] *)

Lemma get_neighbors_from_sublist dirs node grid blocked ns :
  get_neighbors_from dirs node grid blocked = Done ns →
  ns `sublist_of`
    ((fun d : Z * Z => ((node.1 + d.1)%Z, (node.2 + d.2)%Z)) <$> dirs).
Proof.
  revert ns. induction dirs as [|[dx dy] dirs IH]; intros ns; simpl.
  { intros [= <-]. constructor. }
  intros (keep & _ & (rest & Hrest & [= <-])%bind_Done)%bind_Done.
  destruct keep; [apply sublist_skip|apply sublist_cons]; by apply IH.
Qed.

Lemma offsets_NoDup (node : pos) :
  NoDup ((fun d : Z * Z => ((node.1 + d.1)%Z, (node.2 + d.2)%Z))
           <$> directions).
Proof.
  apply NoDup_fmap_2_strong.
  - intros [a b] [c d] _ _ [= H1 H2]. f_equal; lia.
  - unfold directions. repeat (apply NoDup_cons; split; [set_solver|]).
    constructor.
Qed.

(** X1: on an R×C grid [_get_neighbors] returns, without raising, exactly
    the cells among the eight around [node] that are in bounds, not
    blocked and hold 0: each once, never [node] itself, at most eight. *)
Theorem get_neighbors_exact node grid blocked :
  rectangular grid →
  ∃ ns, get_neighbors node grid blocked = Done ns ∧
        (∀ p, p ∈ ns ↔ neighbor_of grid blocked node p) ∧
        NoDup ns ∧ (node ∉ ns) ∧ length ns ≤ 8.
Proof.
  intros Hrect.
  destruct (rectangular_get_neighbors_from directions node grid blocked Hrect)
    as [ns Hns].
  exists ns. split; [exact Hns|].
  pose proof (get_neighbors_spec _ _ _ _ Hns) as Hsound.
  rewrite Forall_forall in Hsound.
  pose proof (get_neighbors_from_sublist _ _ _ _ _ Hns) as Hsub.
  split; [|split; [|split]].
  - intros p. split; [apply Hsound|]. intros Hp.
    by eapply get_neighbors_complete.
  - exact (sublist_NoDup _ _ (offsets_NoDup node) Hsub).
  - intros Hin. apply Hsound, neighbor_eight_connected in Hin.
    destruct Hin as (_ & _ & Hne). by apply Hne.
  - apply sublist_length in Hsub. by rewrite length_fmap in Hsub.
Qed.

Lemma get_neighbors_exact_witness :
  rectangular grid_5x5_free ∧
  ∃ ns, get_neighbors (0, 0)%Z grid_5x5_free ∅ = Done ns ∧
        (∀ p, p ∈ ns ↔ neighbor_of grid_5x5_free ∅ (0, 0)%Z p) ∧
        NoDup ns ∧ ((0, 0)%Z ∉ ns) ∧ length ns ≤ 8.
Proof.
  split; [exact rectangular_5x5_free|].
  exact (get_neighbors_exact (0, 0)%Z grid_5x5_free ∅ rectangular_5x5_free).
Defined.


(** X2: moves are undirected for the cost model: the cost of a move and
    the heuristic are the same in both directions, and the heuristic of
    a cell to itself is 0. *)
Theorem cost_and_heuristic_symmetric x1 y1 x2 y2 :
  calculate_cost x1 y1 x2 y2 = calculate_cost x2 y2 x1 y1 ∧
  heuristic x1 y1 x2 y2 = heuristic x2 y2 x1 y1 ∧
  heuristic x1 y1 x1 y1 = fzero.
Proof.
  split; [|split].
  - unfold calculate_cost.
    replace (Z.abs (x1 - x2)) with (Z.abs (x2 - x1)) by lia.
    by replace (Z.abs (y1 - y2)) with (Z.abs (y2 - y1)) by lia.
  - unfold heuristic. do 2 f_equal. nia.
  - unfold heuristic. rewrite !Z.sub_diag. reflexivity.
Qed.

(** X3: towards an adjacent goal the heuristic is 1.0 on the four
    straight moves, which is their cost, and sqrt(2) on the four
    diagonal moves, which is more than their cost 1.414: the heuristic
    overestimates every single diagonal step. *)
Theorem heuristic_exceeds_diagonal_cost (x y : Z) :
  (fun d : Z * Z => heuristic x y (x + d.1) (y + d.2)) <$> directions
    = [PrimFloat.sqrt 2; 1; PrimFloat.sqrt 2; 1;
       1; PrimFloat.sqrt 2; 1; PrimFloat.sqrt 2]%float ∧
  (fun d : Z * Z =>
     PrimFloat.ltb (calculate_cost x y (x + d.1) (y + d.2))
                   (heuristic x y (x + d.1) (y + d.2))) <$> directions
    = [true; false; true; false; false; true; false; true].
Proof.
  unfold heuristic, calculate_cost, directions.
  cbn [fmap list_fmap fst snd]. rewrite !Z.add_simpl_l.
  split; reflexivity.
Qed.

(** ** Invalid endpoints *)

(** X4: a start or goal outside the grid makes both searches return
    their no-path sentinel before the loop, whatever the grid, risk map
    and weight are, when start, goal and every blocked entry have the
    two coordinates the searches read; nothing is raised. *)
Theorem out_of_bounds_no_path fuel grid start goal s g risk_map blocked
    safety_weight :
  Forall (fun b => 2 ≤ length b) (default [] blocked) →
  endpoint start = Done s → endpoint goal = Done g →
  in_bounds (rows_of grid) (cols_of grid) s = false ∨
  in_bounds (rows_of grid) (cols_of grid) g = false →
  find_path_call fuel grid start goal blocked = Done ([], finf, 0%Z) ∧
  find_path_with_risk_call fuel grid start goal risk_map blocked
    safety_weight = Done ([], finf, finf, 0%Z).
Proof.
  intros Hbl Hs Hg Hout.
  destruct (blocked_entries_Done _ Hbl) as [bs Hbs].
  unfold find_path_call, find_path_with_risk_call. rewrite Hbs, Hs, Hg.
  cbn [mbind outcome_bind obind].
  case_bool_decide; [done|]. by apply out_of_bounds_sentinel.
Qed.

Lemma out_of_bounds_no_path_witness :
  Forall (fun b : list Z => 2 ≤ length b) (default [] (Some [[1; 1; 7]%Z])) ∧
  endpoint [0; 0]%Z = Done (0, 0)%Z ∧ endpoint [5; 0]%Z = Done (5, 0)%Z ∧
  (in_bounds (rows_of grid_5x5_free) (cols_of grid_5x5_free) (0, 0)%Z = false ∨
   in_bounds (rows_of grid_5x5_free) (cols_of grid_5x5_free) (5, 0)%Z = false) ∧
  find_path_call 7 grid_5x5_free [0; 0]%Z [5; 0]%Z (Some [[1; 1; 7]%Z])
    = Done ([], finf, 0%Z) ∧
  find_path_with_risk_call 7 grid_5x5_free [0; 0]%Z [5; 0]%Z None
    (Some [[1; 1; 7]%Z]) 0.5 = Done ([], finf, finf, 0%Z).
Proof.
  assert (Forall (fun b : list Z => 2 ≤ length b)
            (default [] (Some [[1; 1; 7]%Z]))) as Hbl.
  { repeat constructor; simpl; lia. }
  split; [exact Hbl|]. do 2 (split; [reflexivity|]).
  split; [right; reflexivity|].
  apply (out_of_bounds_no_path 7 grid_5x5_free [0; 0]%Z [5; 0]%Z (0, 0)%Z
           (5, 0)%Z None (Some [[1; 1; 7]%Z]) 0.5%float Hbl);
    [reflexivity|reflexivity|right; reflexivity].
Defined.

(** X5: on an R×C grid [find_path] answers with its sentinel, at any
    fuel, whenever the in-bounds start or goal is in the blocked list or
    holds an obstacle (value 1). *)
Theorem obstructed_endpoint_no_path fuel grid start goal blocked :
  rectangular grid →
  in_bounds (rows_of grid) (cols_of grid) start = true →
  in_bounds (rows_of grid) (cols_of grid) goal = true →
  obstructed grid (blocked_set_of blocked) start ∨
  obstructed grid (blocked_set_of blocked) goal →
  find_path fuel grid start goal blocked = Done ([], finf, 0%Z).
Proof. apply find_path_rejects_obstructed. Qed.

Lemma obstructed_endpoint_no_path_witness :
  rectangular grid_detour ∧
  in_bounds (rows_of grid_detour) (cols_of grid_detour) (1, 1)%Z = true ∧
  in_bounds (rows_of grid_detour) (cols_of grid_detour) (0, 0)%Z = true ∧
  (obstructed grid_detour (blocked_set_of None) (1, 1)%Z ∨
   obstructed grid_detour (blocked_set_of None) (0, 0)%Z) ∧
  find_path 3 grid_detour (1, 1)%Z (0, 0)%Z None = Done ([], finf, 0%Z).
Proof.
  split; [exact rectangular_detour|]. do 2 (split; [reflexivity|]).
  assert (obstructed grid_detour (blocked_set_of None) (1, 1)%Z) as Hob
    by (right; reflexivity).
  split; [by left|].
  apply (obstructed_endpoint_no_path 3 grid_detour (1, 1)%Z (0, 0)%Z None
           rectangular_detour); [reflexivity|reflexivity|by left].
Defined.


(** ** The shape of a returned path *)

Lemma chain_suffix nodes p l x :
  chain nodes p l → x ∈ l →
  ∃ l', chain nodes x l' ∧ length l' ≤ length l.
Proof.
  induction 1 as [p n Hp Hn|p n q l Hp Hn Hc IH]; intros Hx.
  - apply list_elem_of_singleton in Hx as ->.
    exists [p]. split; [by eapply chain_root|done].
  - apply elem_of_cons in Hx as [->|Hx].
    + exists (p :: l). split; [by eapply chain_link|done].
    + destruct (IH Hx) as (l' & Hl' & Hlen). exists l'. split; [done|].
      simpl. lia.
Qed.

(** A parent walk never meets a cell twice. *)
Lemma chain_NoDup nodes p l : chain nodes p l → NoDup l.
Proof.
  induction 1 as [p n Hp Hn|p n q l Hp Hn Hc IH].
  - apply NoDup_singleton.
  - apply NoDup_cons. split; [|done]. intros Hin.
    destruct (chain_suffix _ _ _ _ Hc Hin) as (l' & Hl' & Hlen).
    assert (chain nodes p (p :: l)) as Hpl by (by eapply chain_link).
    rewrite (chain_functional _ _ _ _ Hl' Hpl) in Hlen. simpl in Hlen. lia.
Qed.

Lemma cells_list_length (rows cols : Z) :
  Z.of_nat (length (x ← seqZ 0 rows; (fun y => (x, y)) <$> seqZ 0 cols))
    = (Z.max 0 rows * Z.max 0 cols)%Z.
Proof.
  assert (∀ (xs : list Z),
            length (x ← xs; (fun y => (x, y)) <$> seqZ 0 cols)
              = length xs * Z.to_nat cols) as Hbind.
  { induction xs as [|x xs IH]; [done|].
    cbn [mbind list_bind]. rewrite length_app, length_fmap, length_seqZ.
    fold (mbind (M:=list) (fun x0 : Z => (fun y : Z => (x0, y)) <$> seqZ 0 cols) xs).
    rewrite IH. simpl. lia. }
  rewrite Hbind, length_seqZ. lia.
Qed.

Lemma NoDup_in_bounds_length grid (path : list pos) :
  NoDup path →
  (∀ p, p ∈ path → in_bounds (rows_of grid) (cols_of grid) p = true) →
  (Z.of_nat (length path) ≤ rows_of grid * cols_of grid)%Z.
Proof.
  intros Hnd Hin.
  assert (path ⊆+ (x ← seqZ 0 (rows_of grid);
                   (fun y => (x, y)) <$> seqZ 0 (cols_of grid))) as Hsub.
  { apply NoDup_submseteq; [done|]. intros p Hp.
    specialize (Hin p Hp). apply in_bounds_all_cells in Hin.
    unfold all_cells in Hin. by apply elem_of_list_to_set in Hin. }
  apply submseteq_length in Hsub.
  pose proof (cells_list_length (rows_of grid) (cols_of grid)) as Hlen.
  assert (0 ≤ rows_of grid)%Z by (unfold rows_of; lia).
  assert (0 ≤ cols_of grid)%Z by (unfold cols_of; destruct grid; lia).
  rewrite !Z.max_r in Hlen by done. rewrite <- Hlen.
  by apply Nat2Z.inj_le.
Qed.


(** ** What [find_path_with_risk] returns as its distance *)

Section RiskCost.
Variables (grid : grid_t) (blocked : gset pos) (start goal : pos).
Variables (risk_map : risk_map_t) (safety_weight : float).

Local Abbreviation inv :=
  (search_inv grid blocked start (risk_edge risk_map safety_weight)).
Local Abbreviation rows := (rows_of grid).
Local Abbreviation cols := (cols_of grid).

Lemma inv_any_edge st : inv st → search_inv grid blocked start any_edge st.
Proof.
  intros [Ho Hr Hl Hc]. split; [done|done| |done].
  intros p n q Hp Hn. destruct (Hl p n q Hp Hn) as (? & ? & nq & ? & _).
  do 2 (split; [done|]). by exists nq.
Qed.

Lemma relax_risk_eq_cost current st n st' :
  in_bounds rows cols n = true →
  relax_risk risk_map rows cols safety_weight goal current st n = Done st' →
  st' = st ∨
  (n ∉ closed_set st) ∧
  ∃ node', parent node' = Some current ∧
           g node' = (node_g (all_nodes st) current +
                      combined_cost risk_map safety_weight current n)%float ∧
           st' = push_update st n node'.
Proof.
  intros Hib. unfold relax_risk. rewrite Hib.
  case_bool_decide as Hcl; [intros [= <-]; by left|].
  intros (risk_cost & (r & Hr & [= <-])%bind_Done & Hrest)%bind_Done.
  assert (risk_value risk_map n = r) as Hrv.
  { unfold risk_value. by rewrite Hr. }
  unfold combined_cost. rewrite Hrv.
  destruct (all_nodes st !! n) as [neighbor_node|] eqn:Hn.
  - destruct (fge _ _); [injection Hrest as <-; by left|].
    apply bind_Done in Hrest as (h' & _ & [= <-]).
    right. split; [done|]. eexists. split; [|split; [|reflexivity]]; done.
  - apply bind_Done in Hrest as (h' & _ & [= <-]).
    right. split; [done|]. eexists. split; [|split; [|reflexivity]]; done.
Qed.

Lemma relax_risk_inv_cost current nc st n st' :
  inv st → current ∈ closed_set st →
  all_nodes st !! current = Some nc →
  neighbor_of grid blocked current n →
  relax_risk risk_map rows cols safety_weight goal current st n = Done st' →
  inv st' ∧ closed_set st' = closed_set st ∧
  all_nodes st' !! current = Some nc.
Proof.
  intros Hinv Hcur Hnc Hnb Hrel.
  assert (in_bounds rows cols n = true) as Hib by (by destruct Hnb as (_ & ? & _)).
  destruct (relax_risk_eq_cost _ _ _ _ Hib Hrel)
    as [->|(Hn & node' & Hpar & Hg & ->)]; [done|].
  split; [|split].
  - eapply inv_push_update; try done.
    unfold risk_edge. rewrite Hg. unfold node_g. by rewrite Hnc.
  - done.
  - simpl. rewrite lookup_insert_ne; [done|]. by intros ->.
Qed.

Lemma relax_risk_all_inv_cost current nc neighbors st st' :
  inv st → current ∈ closed_set st →
  all_nodes st !! current = Some nc →
  Forall (neighbor_of grid blocked current) neighbors →
  relax_risk_all risk_map rows cols safety_weight goal current st neighbors
    = Done st' →
  inv st'.
Proof.
  intros Hinv Hcur Hnc Hall. revert st Hinv Hcur Hnc.
  induction Hall as [|n ns Hn Hns IH]; intros st Hinv Hcur Hnc; simpl.
  { by intros [= <-]. }
  intros (st1 & Hst1 & Hrest)%bind_Done.
  destruct (relax_risk_inv_cost current nc st n st1) as (? & Hcl & ?);
    try done.
  eapply IH; [done| |done|done]. by rewrite Hcl.
Qed.

Lemma path_combined_cost_snoc (l : list pos) (q p : pos) :
  path_combined_cost risk_map safety_weight ((l ++ [q]) ++ [p]) =
  (path_combined_cost risk_map safety_weight (l ++ [q]) +
   combined_cost risk_map safety_weight q p)%float.
Proof. unfold path_combined_cost. by rewrite edges_of_snoc, foldl_snoc. Qed.

(** Along a parent walk of [find_path_with_risk], [g] is the accumulated
    combined cost of the path walked backwards. *)
Lemma chain_combined_cost st p l :
  inv st → chain (all_nodes st) p l →
  node_g (all_nodes st) p
    = path_combined_cost risk_map safety_weight (reverse l).
Proof.
  intros Hinv. induction 1 as [p n Hp Hn|p n q l Hp Hn Hc IH].
  - destruct (inv_root _ _ _ _ _ Hinv p n Hp Hn) as [_ Hg].
    unfold node_g. by rewrite Hp, Hg.
  - destruct (inv_link _ _ _ _ _ Hinv p n q Hp Hn) as (_ & _ & nq & Hq & Hg).
    destruct (chain_head _ _ _ Hc) as [l' ->].
    rewrite !reverse_cons, path_combined_cost_snoc, <- reverse_cons, <- IH.
    unfold node_g. rewrite Hp, Hq. exact Hg.
Qed.

Lemma find_path_with_risk_loop_cost fuel budget st path dist risk len :
  inv st →
  in_bounds rows cols start = true →
  find_path_with_risk_loop fuel budget grid risk_map rows cols
    safety_weight blocked goal st = Done (path, dist, risk, len) →
  path ≠ [] →
  ∃ st' l, inv st' ∧ chain (all_nodes st') goal l ∧ path = reverse l ∧
           dist = node_g (all_nodes st') goal ∧
           len = (Z.of_nat (length path) - 1)%Z.
Proof.
  intros Hinv Hstart. revert st Hinv.
  induction fuel as [|fuel IH]; intros st Hinv; simpl; [done|].
  destruct (Heapq.heappop _ _) as [[current open']|] eqn:Hpop.
  2:{ intros [= <- <- <- <-]. done. }
  apply HeapqFacts.heappop_perm in Hpop.
  assert (current ∈ open_set st) as Hcur by (rewrite Hpop; by left).
  destruct (inv_open _ _ _ _ _ Hinv current Hcur) as [nc Hnc].
  case_bool_decide as Hgoal.
  - subst current. intros ([rpath total] & Hwalk & Heq)%bind_Done Hne.
    destruct (inv_chain _ _ _ _ _ Hinv goal) as (l & Hl & _); [eauto|].
    eapply walk_parents_risk_chain in Hwalk as (Hr & _ & _);
      [|exact Hl|].
    + simpl in Hr. subst rpath. injection Heq as <- <- <- <-.
      by exists st, l.
    + eapply chain_in_bounds; [exact Hstart|by apply inv_any_edge|done].
  - intros (neighbors & Hnb & (st2 & Hst2 & Hrec)%bind_Done)%bind_Done Hne.
    apply get_neighbors_spec in Hnb.
    eapply IH; [|exact Hrec|done].
    eapply relax_risk_all_inv_cost; [..|exact Hnb|exact Hst2]; simpl.
    + apply inv_close; [done|]. intros p Hp. rewrite Hpop. by right.
    + apply elem_of_union_r. by apply elem_of_singleton.
    + done.
Qed.
End RiskCost.


(** X6: a non-empty path returned by [find_path] starts at the start,
    ends at the goal and visits no cell twice; the returned length is
    its number of steps, which is below the number of cells of the grid. *)
Theorem find_path_route_shape fuel grid start goal blocked path cost len :
  find_path fuel grid start goal blocked = Done (path, cost, len) →
  path ≠ [] →
  head path = Some start ∧ last path = Some goal ∧ NoDup path ∧
  len = (Z.of_nat (length path) - 1)%Z ∧
  (0 ≤ len < rows_of grid * cols_of grid)%Z.
Proof.
  intros Hfp Hne.
  destruct (find_path_enters_loop _ _ _ _ _ _ _ _ Hfp Hne)
    as (Hs & _ & node0 & Hpar & Hg0 & Hloop).
  eapply find_path_loop_sound in Hloop
    as (st' & l & Hinv & Hch & -> & _ & ->); [|by apply inv_init|done].
  destruct (path_of_chain _ _ _ _ _ _ _ Hinv Hch) as (Hhd & Hlast & Hsteps).
  assert (NoDup (reverse l)) as Hnd.
  { rewrite reverse_Permutation. by eapply chain_NoDup. }
  do 4 (split; [done|]).
  assert (Z.of_nat (length (reverse l)) ≤ rows_of grid * cols_of grid)%Z.
  { apply NoDup_in_bounds_length; [done|]. intros p Hp.
    by destruct (path_cells_admissible _ _ _ _ Hhd Hs Hsteps p Hp). }
  destruct (reverse l); [done|]. simpl length in *. lia.
Qed.

Lemma find_path_route_shape_witness :
  ∃ path cost len,
    find_path 100 grid_detour (4, 3)%Z (0, 1)%Z None = Done (path, cost, len) ∧
    path ≠ [] ∧
    head path = Some (4, 3)%Z ∧ last path = Some (0, 1)%Z ∧ NoDup path ∧
    len = (Z.of_nat (length path) - 1)%Z ∧
    (0 ≤ len < rows_of grid_detour * cols_of grid_detour)%Z.
Proof.
  eexists _, _, _. split; [vm_compute; reflexivity|]. split; [done|].
  eapply (find_path_route_shape 100 grid_detour (4, 3)%Z (0, 1)%Z None);
    [vm_compute; reflexivity|done].
Defined.

(** X7: a non-empty path returned by [find_path_with_risk] runs from
    the start to the goal by 8-connected steps without visiting a cell
    twice; all its cells are in bounds and every cell after the first is
    free and not blocked; the returned length is its number of steps. *)
Theorem find_path_with_risk_path_valid fuel grid start goal risk_map blocked
    safety_weight path dist risk len :
  find_path_with_risk fuel grid start goal risk_map blocked safety_weight
    = Done (path, dist, risk, len) →
  path ≠ [] →
  head path = Some start ∧ last path = Some goal ∧ NoDup path ∧
  (∀ i p q, path !! i = Some p → path !! S i = Some q →
            eight_connected p q ∧
            traversable grid (blocked_set_of blocked) q) ∧
  (∀ p, p ∈ path → in_bounds (rows_of grid) (cols_of grid) p = true) ∧
  len = (Z.of_nat (length path) - 1)%Z.
Proof.
  intros Hfp Hne.
  destruct (find_path_with_risk_enters_loop _ _ _ _ _ _ _ _ _ _ _ Hfp Hne)
    as (rm & node0 & Hrm & Hbs & Hpar & Hg0 & Hloop).
  eapply find_path_with_risk_loop_cost in Hloop
    as (st' & l & Hinv & Hch & -> & _ & ->);
    [|by apply inv_init|done|done].
  destruct (path_of_chain _ _ _ _ _ _ _ Hinv Hch) as (Hhd & Hlast & Hsteps).
  do 2 (split; [done|]).
  split; [rewrite reverse_Permutation; by eapply chain_NoDup|].
  split; [|split; [|done]].
  - intros i p q Hp Hq. specialize (Hsteps i p q Hp Hq). split.
    + by eapply neighbor_eight_connected.
    + by destruct Hsteps.
  - intros p Hp. rewrite elem_of_reverse in Hp.
    eapply chain_in_bounds in Hch; [|exact Hbs|by eapply inv_any_edge].
    rewrite Forall_forall in Hch. by apply Hch.
Qed.

Lemma find_path_with_risk_path_valid_witness :
  ∃ path dist risk len,
    find_path_with_risk 100 grid_wall_start (0, 0)%Z (0, 1)%Z None None
      0.5%float = Done (path, dist, risk, len) ∧
    path ≠ [] ∧
    head path = Some (0, 0)%Z ∧ last path = Some (0, 1)%Z ∧ NoDup path ∧
    (∀ i p q, path !! i = Some p → path !! S i = Some q →
              eight_connected p q ∧
              traversable grid_wall_start (blocked_set_of None) q) ∧
    (∀ p, p ∈ path →
          in_bounds (rows_of grid_wall_start) (cols_of grid_wall_start) p
            = true) ∧
    len = (Z.of_nat (length path) - 1)%Z.
Proof.
  eexists _, _, _, _. split; [vm_compute; reflexivity|]. split; [done|].
  eapply (find_path_with_risk_path_valid 100 grid_wall_start (0, 0)%Z
            (0, 1)%Z None None 0.5%float); [vm_compute; reflexivity|done].
Defined.

(** X8: the second component [find_path_with_risk] returns with a
    non-empty path, its [distance_cost], is the goal's [g]: the sum over
    the steps of the path of [move_cost * (1 - safety_weight) +
    risk_map[cell] * 10.0 * safety_weight], accumulated from the start
    in float arithmetic, with the caller's [risk_map] (the all-zero
    default when the caller gave none); it is not the distance cost of
    the path. *)
Theorem find_path_with_risk_distance_cost fuel grid start goal risk_map
    blocked safety_weight path dist risk len :
  find_path_with_risk fuel grid start goal risk_map blocked safety_weight
    = Done (path, dist, risk, len) →
  path ≠ [] →
  ∃ rm, (risk_map = Some rm ∨
         risk_map = None ∧ default_risk_map grid = Done rm) ∧
        dist = path_combined_cost rm safety_weight path.
Proof.
  intros Hfp Hne.
  destruct (find_path_with_risk_enters_loop _ _ _ _ _ _ _ _ _ _ _ Hfp Hne)
    as (rm & node0 & Hrm & Hbs & Hpar & Hg0 & Hloop).
  eapply (find_path_with_risk_loop_cost grid (blocked_set_of blocked) start
            goal rm safety_weight) in Hloop
    as (st' & l & Hinv & Hch & -> & -> & _);
    [|by apply inv_init|done|done].
  exists rm. split; [by apply effective_risk_map_cases|].
  by eapply chain_combined_cost.
Qed.

(** On the free 5×5 grid with risk 0.9 on the diagonal and weight 0.8
    the distance returned is 8.4484, of which 7.2 is the risk of the
    goal cell; the distance cost of the route is 6.242. *)
Lemma find_path_with_risk_distance_cost_witness :
  find_path_with_risk 100 grid_5x5_free (0, 0)%Z (4, 4)%Z
    (Some risk_diagonal_5x5) None 0.8%float
    = Done ([(0, 0); (0, 1); (1, 2); (2, 3); (3, 4); (4, 4)]%Z,
            8.4483999999999995%float, 1.8%float, 5%Z) ∧
  [(0, 0); (0, 1); (1, 2); (2, 3); (3, 4); (4, 4)]%Z ≠ [] ∧
  path_cost [(0, 0); (0, 1); (1, 2); (2, 3); (3, 4); (4, 4)]%Z
    = 6.2419999999999991%float ∧
  ∃ rm, (Some risk_diagonal_5x5 = Some rm ∨
         Some risk_diagonal_5x5 = None ∧
         default_risk_map grid_5x5_free = Done rm) ∧
        8.4483999999999995%float
          = path_combined_cost rm 0.8%float
              [(0, 0); (0, 1); (1, 2); (2, 3); (3, 4); (4, 4)]%Z.
Proof.
  split; [vm_compute; reflexivity|]. split; [done|].
  split; [vm_compute; reflexivity|].
  apply (find_path_with_risk_distance_cost 100 grid_5x5_free (0, 0)%Z
           (4, 4)%Z (Some risk_diagonal_5x5) None 0.8%float _ _
           1.8%float 5%Z);
    [vm_compute; reflexivity|done].
Defined.

(** X9: on an R×C grid [find_path] returns, and its path is non-empty
    exactly when start and goal pass the validation and the goal can be
    reached from the start by neighbour steps. *)
Theorem find_path_decides_reachability grid start goal blocked :
  rectangular grid →
  ∃ fuel path cost len,
    (∀ fuel', fuel ≤ fuel' →
       find_path fuel' grid start goal blocked = Done (path, cost, len)) ∧
    (path ≠ [] ↔
     admissible grid (blocked_set_of blocked) start ∧
     admissible grid (blocked_set_of blocked) goal ∧
     reachable grid (blocked_set_of blocked) start goal).
Proof.
  intros Hrect.
  destruct (find_path_terminates grid start goal blocked Hrect)
    as (fuel & [[path cost] len] & Hrun).
  exists fuel, path, cost, len. split; [done|].
  eapply find_path_nonempty_iff. by apply (Hrun fuel).
Qed.

Lemma find_path_decides_reachability_witness :
  rectangular grid_5x5_free ∧
  ∃ fuel path cost len,
    (∀ fuel', fuel ≤ fuel' →
       find_path fuel' grid_5x5_free (0, 0)%Z (4, 4)%Z None
         = Done (path, cost, len)) ∧
    (path ≠ [] ↔
     admissible grid_5x5_free (blocked_set_of None) (0, 0)%Z ∧
     admissible grid_5x5_free (blocked_set_of None) (4, 4)%Z ∧
     reachable grid_5x5_free (blocked_set_of None) (0, 0)%Z (4, 4)%Z).
Proof.
  split; [exact rectangular_5x5_free|].
  exact (find_path_decides_reachability grid_5x5_free (0, 0)%Z (4, 4)%Z None
           rectangular_5x5_free).
Defined.

(** X10: on an R×C grid, with a risk map that is absent or covers the
    grid, [find_path_with_risk] returns, and its path is non-empty
    exactly when start and goal are in bounds and the goal can be
    reached from the start by neighbour steps; start and goal themselves
    may be obstacles or blocked. *)
Theorem find_path_with_risk_decides_reachability grid start goal risk_map
    blocked safety_weight :
  rectangular grid → risk_map_ok grid risk_map →
  ∃ fuel path dist risk len,
    (∀ fuel', fuel ≤ fuel' →
       find_path_with_risk fuel' grid start goal risk_map blocked
         safety_weight = Done (path, dist, risk, len)) ∧
    (path ≠ [] ↔
     in_bounds (rows_of grid) (cols_of grid) start = true ∧
     in_bounds (rows_of grid) (cols_of grid) goal = true ∧
     reachable grid (blocked_set_of blocked) start goal).
Proof.
  intros Hrect Hok.
  destruct (find_path_with_risk_terminates grid start goal risk_map blocked
              safety_weight Hrect Hok)
    as (fuel & [[[path dist] risk] len] & Hrun).
  exists fuel, path, dist, risk, len. split; [done|].
  eapply find_path_with_risk_nonempty_iff. by apply (Hrun fuel).
Qed.

Lemma find_path_with_risk_decides_reachability_witness :
  rectangular grid_5x5_free ∧ risk_map_ok grid_5x5_free None ∧
  ∃ fuel path dist risk len,
    (∀ fuel', fuel ≤ fuel' →
       find_path_with_risk fuel' grid_5x5_free (0, 0)%Z (4, 4)%Z None None
         0.5%float = Done (path, dist, risk, len)) ∧
    (path ≠ [] ↔
     in_bounds (rows_of grid_5x5_free) (cols_of grid_5x5_free) (0, 0)%Z = true ∧
     in_bounds (rows_of grid_5x5_free) (cols_of grid_5x5_free) (4, 4)%Z = true ∧
     reachable grid_5x5_free (blocked_set_of None) (0, 0)%Z (4, 4)%Z).
Proof.
  split; [exact rectangular_5x5_free|]. split; [exact I|].
  exact (find_path_with_risk_decides_reachability grid_5x5_free (0, 0)%Z
           (4, 4)%Z None None 0.5%float rectangular_5x5_free I).
Defined.


(** ** The bookkeeping of the loop of [find_path] *)

Lemma relax_keeps_closed goal current st n :
  closed_set (relax goal current st n) = closed_set st ∧
  (∀ p, p ∈ closed_set st →
        all_nodes (relax goal current st n) !! p = all_nodes st !! p) ∧
  (∀ p, is_Some (all_nodes st !! p) →
        is_Some (all_nodes (relax goal current st n) !! p)).
Proof.
  destruct (relax_eq goal current st n)
    as [[-> _]|(Hn & node' & _ & _ & ->)]; [done|].
  split; [done|]. simpl. split.
  - intros p Hp. rewrite lookup_insert_ne; [done|]. by intros ->.
  - intros p Hp. destruct (decide (n = p)) as [->|Hne].
    + rewrite lookup_insert_eq. eauto.
    + by rewrite lookup_insert_ne.
Qed.

Lemma relax_all_keeps_closed goal current ns st :
  closed_set (foldl (relax goal current) st ns) = closed_set st ∧
  (∀ p, p ∈ closed_set st →
        all_nodes (foldl (relax goal current) st ns) !! p
          = all_nodes st !! p) ∧
  (∀ p, is_Some (all_nodes st !! p) →
        is_Some (all_nodes (foldl (relax goal current) st ns) !! p)).
Proof.
  revert st. induction ns as [|n ns IH]; intros st; [done|]. simpl.
  destruct (relax_keeps_closed goal current st n) as (Hc & Hn & Hs).
  destruct (IH (relax goal current st n)) as (Hc' & Hn' & Hs').
  split; [congruence|]. split.
  - intros p Hp. rewrite Hn' by (by rewrite Hc). by apply Hn.
  - intros p Hp. by apply Hs', Hs.
Qed.

(** X11: what the loop of [find_path] has closed stays as it is.  Over
    any number of further passes through the loop body the closed set
    only grows, cells with a node keep having one, and the node of a
    closed cell ([g], [h], [f] and parent) is never written again. *)
Theorem closed_nodes_final n grid blocked goal st st' :
  find_path_iterate n grid blocked goal st = Done st' →
  closed_set st ⊆ closed_set st' ∧
  (∀ p, p ∈ closed_set st → all_nodes st' !! p = all_nodes st !! p) ∧
  (∀ p, is_Some (all_nodes st !! p) → is_Some (all_nodes st' !! p)).
Proof.
  revert st. induction n as [|n IH]; intros st; simpl.
  { by intros [= <-]. }
  destruct (Heapq.heappop _ _) as [[current open']|] eqn:Hpop.
  2:{ by intros [= <-]. }
  case_bool_decide as Hgoal; [by intros [= <-]|].
  intros (ns & _ & Hrec)%bind_Done.
  apply IH in Hrec as (Hsub & Hnodes & Hsome).
  match type of Hsub with
  | closed_set (foldl _ ?s1 _) ⊆ _ =>
      destruct (relax_all_keeps_closed goal current ns s1) as (Hc & Hn & Hs)
  end.
  rewrite Hc in Hsub, Hnodes. simpl in *.
  split; [set_solver|]. split.
  - intros p Hp. rewrite Hnodes by set_solver. apply Hn. set_solver.
  - intros p Hp. by apply Hsome, Hs.
Qed.

Lemma closed_nodes_final_witness :
  ∃ st st',
    find_path_iterate 3 grid_detour ∅ (0, 1)%Z
      (find_path_init (4, 3)%Z (0, 1)%Z) = Done st ∧
    find_path_iterate 5 grid_detour ∅ (0, 1)%Z st = Done st' ∧
    closed_set st ⊆ closed_set st' ∧
    (∀ p, p ∈ closed_set st → all_nodes st' !! p = all_nodes st !! p) ∧
    (∀ p, is_Some (all_nodes st !! p) → is_Some (all_nodes st' !! p)).
Proof.
  eexists _, _. split; [vm_compute; reflexivity|].
  split; [vm_compute; reflexivity|].
  eapply (closed_nodes_final 5 grid_detour ∅ (0, 1)%Z).
  vm_compute; reflexivity.
Defined.

Lemma find_path_iterate_inv n grid blocked start goal c st st' :
  search_inv grid blocked start distance_edge st →
  frontier_inv grid blocked start goal c [] st →
  find_path_iterate n grid blocked goal st = Done st' →
  search_inv grid blocked start distance_edge st' ∧
  ∃ c', frontier_inv grid blocked start goal c' [] st'.
Proof.
  revert c st. induction n as [|n IH]; intros c st Hinv Hfr; simpl.
  { intros [= <-]. eauto. }
  destruct (Heapq.heappop _ _) as [[current open']|] eqn:Hpop.
  2:{ intros [= <-]. eauto. }
  apply HeapqFacts.heappop_perm in Hpop.
  assert (current ∈ open_set st) as Hcur by (rewrite Hpop; by left).
  pose proof (inv_open _ _ _ _ _ Hinv current Hcur) as [nc Hnc].
  case_bool_decide as Hgoal; [intros [= <-]; eauto|].
  intros (ns & Hns & Hrec)%bind_Done.
  eapply (IH current); [| |exact Hrec].
  - eapply relax_all_inv; simpl; [..|exact (get_neighbors_spec _ _ _ _ Hns)].
    + apply inv_close; [done|]. intros p Hp. rewrite Hpop. by right.
    + apply elem_of_union_r. by apply elem_of_singleton.
    + done.
  - apply frontier_relax_all. eapply frontier_close; eauto.
    intros p Hp. by eapply get_neighbors_complete.
Qed.

(** X12: the state of [find_path] after any number of passes through
    its loop.  Every heap entry has a node; every cell with a node is
    closed or in the heap and can be reached from the start by neighbour
    steps; closed cells have a node, are not the goal, and all their
    neighbours have nodes; a node's parent is a closed cell of which it
    is a neighbour, and its [g] is the parent's [g] plus the move cost;
    only the start node has no parent, and its [g] is 0. *)
Theorem find_path_iterate_invariants n grid blocked start goal st :
  find_path_iterate n grid blocked goal (find_path_init start goal) = Done st →
  (∀ p, p ∈ open_set st → is_Some (all_nodes st !! p)) ∧
  (∀ p, is_Some (all_nodes st !! p) →
        (p ∈ closed_set st ∨ p ∈ open_set st) ∧
        reachable grid blocked start p) ∧
  (∀ q, q ∈ closed_set st →
        is_Some (all_nodes st !! q) ∧ q ≠ goal ∧
        ∀ p, neighbor_of grid blocked q p → is_Some (all_nodes st !! p)) ∧
  (∀ p n q, all_nodes st !! p = Some n → parent n = Some q →
            q ∈ closed_set st ∧ neighbor_of grid blocked q p ∧
            g n = (node_g (all_nodes st) q +
                   calculate_cost q.1 q.2 p.1 p.2)%float) ∧
  (∀ p n, all_nodes st !! p = Some n → parent n = None →
          p = start ∧ g n = fzero).
Proof.
  unfold find_path_init. rewrite HeapqFacts.heapify_singleton. intros Hrun.
  eapply (find_path_iterate_inv n grid blocked start goal start) in Hrun
    as (Hinv & c' & Hfr); [|by apply inv_init|by apply frontier_init].
  split; [exact (inv_open _ _ _ _ _ Hinv)|].
  split; [|split; [|split]].
  - intros p Hp. split; [by apply (fr_open _ _ _ _ _ _ _ Hfr)|].
    destruct (inv_chain _ _ _ _ _ Hinv p Hp) as (l & Hl & _).
    destruct (path_of_chain _ _ _ _ _ _ _ Hinv Hl) as (Hhd & Hlast & Hsteps).
    eapply walk_reachable; [exact Hhd|exact Hsteps|by apply last_elem_of].
  - intros q Hq. split; [by apply (fr_closed _ _ _ _ _ _ _ Hfr)|]. split.
    + intros ->. by apply (fr_goal _ _ _ _ _ _ _ Hfr).
    + intros p Hp.
      destruct (fr_neighbors _ _ _ _ _ _ _ Hfr q p Hq Hp) as [|[_ Hin]];
        [done|]. by apply elem_of_nil in Hin.
  - intros p m q Hp Hm.
    destruct (inv_link _ _ _ _ _ Hinv p m q Hp Hm) as (? & ? & nq & Hq & Hg).
    do 2 (split; [done|]). unfold node_g. rewrite Hq. exact Hg.
  - exact (inv_root _ _ _ _ _ Hinv).
Qed.

Lemma find_path_iterate_invariants_witness :
  ∃ st,
    find_path_iterate 4 grid_detour ∅ (0, 1)%Z
      (find_path_init (4, 3)%Z (0, 1)%Z) = Done st ∧
    (∀ p, p ∈ open_set st → is_Some (all_nodes st !! p)) ∧
    (∀ p, is_Some (all_nodes st !! p) →
          (p ∈ closed_set st ∨ p ∈ open_set st) ∧
          reachable grid_detour ∅ (4, 3)%Z p) ∧
    (∀ q, q ∈ closed_set st →
          is_Some (all_nodes st !! q) ∧ q ≠ (0, 1)%Z ∧
          ∀ p, neighbor_of grid_detour ∅ q p → is_Some (all_nodes st !! p)) ∧
    (∀ p n q, all_nodes st !! p = Some n → parent n = Some q →
              q ∈ closed_set st ∧ neighbor_of grid_detour ∅ q p ∧
              g n = (node_g (all_nodes st) q +
                     calculate_cost q.1 q.2 p.1 p.2)%float) ∧
    (∀ p n, all_nodes st !! p = Some n → parent n = None →
            p = (4, 3)%Z ∧ g n = fzero).
Proof.
  eexists. split; [vm_compute; reflexivity|].
  apply (find_path_iterate_invariants 4 grid_detour ∅ (4, 3)%Z (0, 1)%Z).
  vm_compute; reflexivity.
Defined.


(** ** The lengths [compare_routes] reports *)

Lemma walk_parents_grows n nodes node acc r :
  walk_parents n nodes node acc = Done r → length acc ≤ length r.
Proof.
  revert node acc.
  induction n as [|n IH]; intros [p|] acc; simpl; try done.
  - by intros [= <-].
  - intros Hw%IH. rewrite length_app in Hw. simpl in Hw. lia.
  - by intros [= <-].
Qed.

Lemma route_length_reverse (r : list pos) :
  r ≠ [] → (Z.of_nat (length (reverse r)) - 1)%Z = route_length (reverse r).
Proof.
  intros Hr. unfold route_length.
  destruct (reverse r) eqn:Heq; [|done].
  apply (f_equal reverse) in Heq. rewrite reverse_involutive in Heq. done.
Qed.

Lemma find_path_loop_length fuel budget grid blocked goal st path cost len :
  find_path_loop fuel budget grid blocked goal st = Done (path, cost, len) →
  len = route_length path.
Proof.
  revert st. induction fuel as [|fuel IH]; intros st; simpl; [done|].
  destruct (Heapq.heappop _ _) as [[current open']|]; [|by intros [= <- <- <-]].
  case_bool_decide.
  - intros (rpath & Hwalk & [= <- <- <-])%bind_Done.
    apply route_length_reverse. intros ->.
    destruct budget; simpl in Hwalk; [done|].
    apply walk_parents_grows in Hwalk. simpl in Hwalk. lia.
  - intros (ns & _ & Hrec)%bind_Done. by eapply IH.
Qed.

Lemma find_path_length fuel grid start goal blocked path cost len :
  find_path fuel grid start goal blocked = Done (path, cost, len) →
  len = route_length path.
Proof.
  unfold find_path.
  case_bool_decide; [by intros [= <- <- <-]|].
  intros (row0 & _ & Hrest)%bind_Done. revert Hrest.
  destruct (negb _); [by intros [= <- <- <-]|].
  destruct (negb _); [by intros [= <- <- <-]|].
  intros ([] & _ & Hrest)%bind_Done; [by injection Hrest as <- <- <-|].
  apply bind_Done in Hrest as ([] & _ & Hrest);
    [by injection Hrest as <- <- <-|].
  by eapply find_path_loop_length.
Qed.

Lemma find_path_with_risk_loop_length fuel budget grid risk_map rows cols
    safety_weight blocked goal st path dist risk len :
  find_path_with_risk_loop fuel budget grid risk_map rows cols safety_weight
    blocked goal st = Done (path, dist, risk, len) →
  len = route_length path.
Proof.
  revert st. induction fuel as [|fuel IH]; intros st; simpl; [done|].
  destruct (Heapq.heappop _ _) as [[current open']|];
    [|by intros [= <- <- <- <-]].
  case_bool_decide.
  - intros ([rpath total] & Hwalk & [= <- <- <- <-])%bind_Done.
    apply route_length_reverse.
    by eapply walk_parents_risk_nonempty.
  - intros (ns & _ & (st2 & _ & Hrec)%bind_Done)%bind_Done. by eapply IH.
Qed.

Lemma find_path_with_risk_length fuel grid start goal risk_map blocked
    safety_weight path dist risk len :
  find_path_with_risk fuel grid start goal risk_map blocked safety_weight
    = Done (path, dist, risk, len) →
  len = route_length path.
Proof.
  unfold find_path_with_risk.
  intros (rm & _ & Hrest)%bind_Done. revert Hrest.
  case_bool_decide; [by intros [= <- <- <- <-]|].
  intros (row0 & _ & Hrest)%bind_Done. revert Hrest.
  destruct (negb _); [by intros [= <- <- <- <-]|].
  destruct (negb _); [by intros [= <- <- <- <-]|].
  intros (h0 & _ & Hrest)%bind_Done.
  by eapply find_path_with_risk_loop_length.
Qed.

(** X13: the entries of [compare_routes] are the results of the
    searches.  The shortest entry carries the path of [find_path], its
    cost rounded, and as length the very path length [find_path]
    returned; with a risk map that is neither absent nor empty the
    safest and balanced entries carry path, rounded distance, rounded
    risk and returned path length of [find_path_with_risk] at safety
    weights 0.8 and 0.5; otherwise both repeat the shortest entry. *)
Theorem compare_routes_entries fuel grid start goal risk_map blocked r calls :
  compare_routes fuel grid start goal risk_map blocked = Done (r, calls) →
  ∃ sp sc sl,
    find_path fuel grid start goal blocked = Done (sp, sc, sl) ∧
    shortest r = mkEntry sp (py_round2 sc) fzero sl ∧
    if risk_map_truthy risk_map then
      ∃ p1 d1 r1 l1 p2 d2 r2 l2,
        find_path_with_risk fuel grid start goal risk_map blocked 0.8%float
          = Done (p1, d1, r1, l1) ∧
        find_path_with_risk fuel grid start goal risk_map blocked 0.5%float
          = Done (p2, d2, r2, l2) ∧
        safest r = mkEntry p1 (py_round2 d1) (py_round2 r1) l1 ∧
        balanced r = mkEntry p2 (py_round2 d2) (py_round2 r2) l2
    else safest r = shortest r ∧ balanced r = shortest r.
Proof.
  unfold compare_routes.
  intros ([[sp sc] sl] & Hsp & Hrest)%bind_Done.
  exists sp, sc, sl. split; [done|].
  rewrite (find_path_length _ _ _ _ _ _ _ _ Hsp).
  destruct (risk_map_truthy risk_map).
  - apply bind_Done in Hrest
      as ([[[q1 e1] s1] c1] & ([[[p1 d1] r1] l1] & H1 & [= <- <- <- <-])%bind_Done
          & Hrest).
    apply bind_Done in Hrest
      as ([[[q2 e2] s2] c2] & ([[[p2 d2] r2] l2] & H2 & [= <- <- <- <-])%bind_Done
          & Hrest).
    injection Hrest as <- <-. split; [done|].
    exists p1, d1, r1, l1, p2, d2, r2, l2. do 2 (split; [done|]).
    rewrite (find_path_with_risk_length _ _ _ _ _ _ _ _ _ _ _ H1).
    rewrite (find_path_with_risk_length _ _ _ _ _ _ _ _ _ _ _ H2). done.
  - cbn [mbind outcome_bind obind] in Hrest. injection Hrest as <- <-.
    cbn [shortest safest balanced]. by rewrite py_round2_zero.
Qed.

Lemma compare_routes_entries_witness :
  ∃ r calls,
    compare_routes 100 grid_5x5_free (0, 0)%Z (4, 4)%Z
      (Some risk_diagonal_5x5) None = Done (r, calls) ∧
    ∃ sp sc sl,
      find_path 100 grid_5x5_free (0, 0)%Z (4, 4)%Z None = Done (sp, sc, sl) ∧
      shortest r = mkEntry sp (py_round2 sc) fzero sl ∧
      ∃ p1 d1 r1 l1 p2 d2 r2 l2,
        find_path_with_risk 100 grid_5x5_free (0, 0)%Z (4, 4)%Z
          (Some risk_diagonal_5x5) None 0.8%float = Done (p1, d1, r1, l1) ∧
        find_path_with_risk 100 grid_5x5_free (0, 0)%Z (4, 4)%Z
          (Some risk_diagonal_5x5) None 0.5%float = Done (p2, d2, r2, l2) ∧
        safest r = mkEntry p1 (py_round2 d1) (py_round2 r1) l1 ∧
        balanced r = mkEntry p2 (py_round2 d2) (py_round2 r2) l2.
Proof.
  eexists _, _. split; [vm_compute; reflexivity|].
  eapply (compare_routes_entries 100 grid_5x5_free (0, 0)%Z (4, 4)%Z
            (Some risk_diagonal_5x5) None).
  vm_compute; reflexivity.
Defined.


(** ** The route endpoint *)

Lemma py_falsy_false {A} (x : option (list A)) :
  py_falsy x = false → ∃ a l, x = Some (a :: l).
Proof. destruct x as [[|a l]|]; try done. eauto. Qed.

(** X14: a request without grid, start or goal (absent, null or an
    empty list) is answered with status 500: the [HTTPException] with
    status 400 that the handler raises for it is raised inside the
    [try] block, caught by [except Exception] and replaced by one with
    status 500. *)
Theorem route_missing_field_500 fuel req :
  py_falsy (req_grid req) = true ∨ py_falsy (req_start req) = true ∨
  py_falsy (req_goal req) = true →
  route_body fuel req = Done (inl 400%Z) ∧
  plan_escape_route fuel req = Done (Raised 500%Z).
Proof.
  intros H. unfold plan_escape_route, route_body.
  destruct H as [->|[->| ->]]; rewrite ?orb_true_r; done.
Qed.

Lemma route_missing_field_500_witness :
  (py_falsy (Some (@nil (list Z))) = true ∨ py_falsy (Some [0; 0]%Z) = true ∨
   py_falsy (Some [4; 4]%Z) = true) ∧
  route_body 100 (mkRequest (Some []) (Some [0; 0]%Z) (Some [4; 4]%Z)
                    (Some []) None None false) = Done (inl 400%Z) ∧
  plan_escape_route 100 (mkRequest (Some []) (Some [0; 0]%Z) (Some [4; 4]%Z)
                           (Some []) None None false)
    = Done (Raised 500%Z).
Proof.
  split; [by left|].
  apply (route_missing_field_500 100
           (mkRequest (Some []) (Some [0; 0]%Z) (Some [4; 4]%Z)
              (Some []) None None false)).
  by left.
Defined.

(** X15: the handler returns a dictionary (which the framework sends
    with status 200 when it can serialise it) or lets an
    [HTTPException] with status 500 out, and nothing else; in
    particular a start or goal that has a single coordinate, which
    makes the planner raise [IndexError], gives 500. *)
Theorem route_status_200_or_500 fuel req :
  (∀ r, plan_escape_route fuel req = Done r →
        (∃ body, r = Returned body) ∨ r = Raised 500%Z) ∧
  (∀ x, req_start req = Some [x] ∨ req_goal req = Some [x] →
        plan_escape_route fuel req = Done (Raised 500%Z)).
Proof.
  split.
  - intros r. unfold plan_escape_route.
    destruct (route_body fuel req) as [[s|body]| |]; intros [= <-]; eauto.
  - intros x Hx. unfold plan_escape_route, route_body.
    destruct (py_falsy (req_grid req) || py_falsy (req_start req)
              || py_falsy (req_goal req)); [done|].
    destruct (blocked_entries_cases (default [] (req_blocked req)))
      as [[bs ->]| ->]; [|done].
    destruct Hx as [-> | ->]; simpl.
    + done.
    + destruct (endpoint_cases (default [] (req_start req))) as [[p ->]| ->];
        reflexivity.
Qed.

(** X16: on a well-formed request the handler returns a dictionary,
    whichever of its three branches is taken: nothing is raised and the
    planner call terminates.  Well-formed: a non-empty R×C grid, start
    and goal of at least two coordinates, blocked entries of at least
    two coordinates, and a risk map that is absent or covers the grid.
    (The dictionary may be a no-path one, which holds [float('inf')];
    what the framework makes of it is outside the handler.) *)
Theorem route_well_formed_returns req grid sx sy srest gx gy grest :
  req_grid req = Some grid → grid ≠ [] → rectangular grid →
  req_start req = Some (sx :: sy :: srest) →
  req_goal req = Some (gx :: gy :: grest) →
  Forall (fun b => 2 ≤ length b) (default [] (req_blocked req)) →
  risk_map_ok grid (req_risk_map req) →
  ∃ fuel body, ∀ fuel', fuel ≤ fuel' →
    plan_escape_route fuel' req = Done (Returned body).
Proof.
  intros Hg Hne Hrect Hs Hgo Hbl Hok.
  destruct (blocked_entries_Done _ Hbl) as [bs Hbs].
  assert (∀ fuel, route_body fuel req =
    if req_compare_routes req then
      '(c, _) ← compare_routes fuel grid (sx, sy) (gx, gy) (req_risk_map req)
                  (Some bs);
      Done (inr (RespComparison c))
    else if risk_map_truthy (req_risk_map req) then
      '(path, distance, risk_cost, length) ←
        find_path_with_risk fuel grid (sx, sy) (gx, gy) (req_risk_map req)
          (Some bs) (default 0.5%float (req_safety_weight req));
      match path with
      | [] => Done (inr RespRiskNoPath)
      | _ => Done (inr (RespRisk path (py_round2 distance)
                          (py_round2 risk_cost) length
                          (default 0.5%float (req_safety_weight req))))
      end
    else
      '(path, cost, length) ←
        find_path fuel grid (sx, sy) (gx, gy) (Some bs);
      match path with
      | [] => Done (inr RespNoPath)
      | _ => Done (inr (RespPath path (py_round2 cost) length))
      end) as Hbody.
  { intros fuel. unfold route_body. rewrite Hg, Hs, Hgo, Hbs.
    destruct grid; [done|]. reflexivity. }
  unfold plan_escape_route. setoid_rewrite Hbody.
  destruct (req_compare_routes req).
  - destruct (compare_routes_terminates grid (sx, sy) (gx, gy)
                (req_risk_map req) (Some bs) Hrect Hok)
      as (fuel & [c calls] & Hrun).
    exists fuel, (RespComparison c). intros fuel' Hle.
    by rewrite (Hrun fuel' Hle).
  - destruct (risk_map_truthy (req_risk_map req)).
    + destruct (find_path_with_risk_terminates grid (sx, sy) (gx, gy)
                  (req_risk_map req) (Some bs)
                  (default 0.5%float (req_safety_weight req)) Hrect Hok)
        as (fuel & [[[path dist] risk] len] & Hrun).
      exists fuel. destruct path as [|p path].
      * exists RespRiskNoPath. intros fuel' Hle. by rewrite (Hrun fuel' Hle).
      * eexists. intros fuel' Hle. by rewrite (Hrun fuel' Hle).
    + destruct (find_path_terminates grid (sx, sy) (gx, gy)
                  (Some bs) Hrect)
        as (fuel & [[path cost] len] & Hrun).
      exists fuel. destruct path as [|p path].
      * exists RespNoPath. intros fuel' Hle. by rewrite (Hrun fuel' Hle).
      * eexists. intros fuel' Hle. by rewrite (Hrun fuel' Hle).
Qed.

Lemma route_well_formed_returns_witness :
  Some grid_detour = Some grid_detour ∧ grid_detour ≠ [] ∧
  rectangular grid_detour ∧
  Some [4; 3]%Z = Some [4; 3]%Z ∧ Some [0; 1]%Z = Some [0; 1]%Z ∧
  Forall (fun b => 2 ≤ length b) (default [] (Some [[3; 2]%Z])) ∧
  risk_map_ok grid_detour None ∧
  ∃ fuel body, ∀ fuel', fuel ≤ fuel' →
    plan_escape_route fuel'
      (mkRequest (Some grid_detour) (Some [4; 3]%Z) (Some [0; 1]%Z)
         (Some [[3; 2]%Z]) None None false) = Done (Returned body).
Proof.
  assert (Forall (fun b : list Z => 2 ≤ length b)
            (default [] (Some [[3; 2]%Z]))) as Hbl.
  { repeat constructor. }
  do 2 (split; [done|]). split; [exact rectangular_detour|].
  do 2 (split; [done|]). split; [exact Hbl|]. split; [exact I|].
  exact (route_well_formed_returns
           (mkRequest (Some grid_detour) (Some [4; 3]%Z) (Some [0; 1]%Z)
              (Some [[3; 2]%Z]) None None false)
           grid_detour 4%Z 3%Z [] 0%Z 1%Z []
           eq_refl ltac:(done) rectangular_detour eq_refl eq_refl Hbl I).
Defined.

Lemma route_status_200_or_500_witness :
  (Some [0%Z] = Some [0%Z] ∨ Some [4; 4]%Z = Some [0%Z]) ∧
  plan_escape_route 100
    (mkRequest (Some grid_5x5_free) (Some [0%Z]) (Some [4; 4]%Z)
       (Some []) None None false) = Done (Raised 500%Z) ∧
  ((∃ body, Raised 500%Z = Returned body) ∨
   Raised 500%Z = Raised 500%Z).
Proof.
  split; [by left|]. split.
  - apply (proj2 (route_status_200_or_500 100
             (mkRequest (Some grid_5x5_free) (Some [0%Z]) (Some [4; 4]%Z)
                (Some []) None None false)) 0%Z).
    by left.
  - apply (proj1 (route_status_200_or_500 100
             (mkRequest (Some grid_5x5_free) (Some [0%Z]) (Some [4; 4]%Z)
                (Some []) None None false)) (Raised 500%Z)).
    vm_compute; reflexivity.
Defined.

(** What the body does once grid, start and goal are there. *)
Lemma route_body_unfold fuel req grid sl gl :
  req_grid req = Some grid → req_start req = Some sl →
  req_goal req = Some gl →
  ∀ body, route_body fuel req = Done (inr body) →
  ∃ bs s g,
    blocked_entries (default [] (req_blocked req)) = Done bs ∧
    endpoint sl = Done s ∧ endpoint gl = Done g ∧
    (if req_compare_routes req then
       '(c, _) ← compare_routes fuel grid s g (req_risk_map req) (Some bs);
       Done (inr (RespComparison c))
     else if risk_map_truthy (req_risk_map req) then
       '(path, distance, risk_cost, length) ←
         find_path_with_risk fuel grid s g (req_risk_map req)
           (Some bs) (default 0.5%float (req_safety_weight req));
       match path with
       | [] => Done (inr RespRiskNoPath)
       | _ => Done (inr (RespRisk path (py_round2 distance)
                           (py_round2 risk_cost) length
                           (default 0.5%float (req_safety_weight req))))
       end
     else
       '(path, cost, length) ← find_path fuel grid s g (Some bs);
       match path with
       | [] => Done (inr RespNoPath)
       | _ => Done (inr (RespPath path (py_round2 cost) length))
       end) = Done (@inr Z _ body).
Proof.
  intros Hg Hs Hgo body. unfold route_body. rewrite Hg, Hs, Hgo.
  destruct (_ || _); [done|]. cbn [default].
  intros (bs & Hbs & (s & Hs' & (g & Hg' & Hrest)%bind_Done)%bind_Done)%bind_Done.
  exists bs, s, g. done.
Qed.

(** X17: a route in the answer of the standard branch.  When the
    handler answers with path, cost and length, the request asked for no
    comparison and carried no risk map (or an empty one); the path is
    the one [find_path] returned for the first two coordinates of start
    and goal: it runs from start to goal by 8-connected steps over
    cells that pass the validation, without visiting a cell twice; the
    cost is the accumulated distance cost of the path rounded to two
    decimals, and the length is the number of steps. *)
Theorem route_standard_response fuel req grid sl gl path cost length :
  req_grid req = Some grid → req_start req = Some sl →
  req_goal req = Some gl →
  plan_escape_route fuel req = Done (Returned (RespPath path cost length)) →
  req_compare_routes req = false ∧
  risk_map_truthy (req_risk_map req) = false ∧
  ∃ bs s g,
    blocked_entries (default [] (req_blocked req)) = Done bs ∧
    (∃ rest, sl = s.1 :: s.2 :: rest) ∧ (∃ rest, gl = g.1 :: g.2 :: rest) ∧
    head path = Some s ∧ last path = Some g ∧ NoDup path ∧
    (∀ i p q, path !! i = Some p → path !! S i = Some q →
              eight_connected p q) ∧
    (∀ p, p ∈ path → admissible grid (blocked_set_of (Some bs)) p) ∧
    cost = py_round2 (path_cost path) ∧
    length = (Z.of_nat (List.length path) - 1)%Z.
Proof.
  intros Hg Hs Hgo Hplan.
  assert (route_body fuel req = Done (inr (RespPath path cost length)))
    as Hbody.
  { unfold plan_escape_route in Hplan.
    destruct (route_body fuel req) as [[?|?]| |]; congruence. }
  destruct (route_body_unfold _ _ _ _ _ Hg Hs Hgo _ Hbody)
    as (bs & s & g & Hbs & Hs' & Hg' & Hrun).
  destruct (req_compare_routes req).
  { apply bind_Done in Hrun as ([c calls] & _ & [=]). }
  split; [done|].
  destruct (risk_map_truthy (req_risk_map req)).
  { apply bind_Done in Hrun as ([[[p d] r] l] & _ & Hr).
    destruct p; by injection Hr. }
  split; [done|].
  apply bind_Done in Hrun as ([[p c] l] & Hfp & Hr).
  assert (p = path ∧ py_round2 c = cost ∧ l = length ∧ path ≠ [])
    as (-> & <- & -> & Hne).
  { destruct p; [done|]. by injection Hr as <- <- <-. }
  exists bs, s, g. apply endpoint_Done in Hs', Hg'.
  do 3 (split; [done|]).
  destruct (find_path_sound _ _ _ _ _ _ _ _ Hfp Hne)
    as (Hhd & Hlast & Hsteps & Hadm & Hcost & Hlen).
  do 2 (split; [done|]).
  destruct (find_path_enters_loop _ _ _ _ _ _ _ _ Hfp Hne)
    as (_ & _ & node0 & Hpar & Hg0 & Hloop).
  eapply find_path_loop_sound in Hloop
    as (st' & l & Hinv & Hch & Hpath & _ & _); [|by apply inv_init|done].
  split.
  { rewrite Hpath, reverse_Permutation. by eapply chain_NoDup. }
  split.
  { intros i a b Ha Hb. eapply neighbor_eight_connected, Hsteps; done. }
  split; [|by rewrite Hcost].
  intros a Ha. eapply path_cells_admissible; done.
Qed.

Lemma route_standard_response_witness :
  ∃ path cost length,
    plan_escape_route 100
      (mkRequest (Some grid_detour) (Some [4; 3]%Z) (Some [0; 1]%Z)
         (Some [[3; 2]%Z]) None None false)
      = Done (Returned (RespPath path cost length)) ∧
    false = false ∧ risk_map_truthy None = false ∧
    ∃ bs s g,
      blocked_entries (default [] (Some [[3; 2]%Z])) = Done bs ∧
      (∃ rest, [4; 3]%Z = s.1 :: s.2 :: rest) ∧
      (∃ rest, [0; 1]%Z = g.1 :: g.2 :: rest) ∧
      head path = Some s ∧ last path = Some g ∧ NoDup path ∧
      (∀ i p q, path !! i = Some p → path !! S i = Some q →
                eight_connected p q) ∧
      (∀ p, p ∈ path →
            admissible grid_detour (blocked_set_of (Some bs)) p) ∧
      cost = py_round2 (path_cost path) ∧
      length = (Z.of_nat (List.length path) - 1)%Z.
Proof.
  eexists _, _, _. split; [vm_compute; reflexivity|].
  apply (route_standard_response 100
           (mkRequest (Some grid_detour) (Some [4; 3]%Z) (Some [0; 1]%Z)
              (Some [[3; 2]%Z]) None None false)
           grid_detour [4; 3]%Z [0; 1]%Z); [done|done|done|].
  vm_compute; reflexivity.
Defined.

Lemma find_path_with_risk_route fuel grid start goal risk_map blocked
    safety_weight path dist risk len :
  find_path_with_risk fuel grid start goal risk_map blocked safety_weight
    = Done (path, dist, risk, len) →
  path ≠ [] →
  ∃ rm, effective_risk_map grid risk_map = Done rm ∧
        head path = Some start ∧ last path = Some goal ∧ NoDup path ∧
        dist = path_combined_cost rm safety_weight path ∧
        risk = path_risk rm path ∧
        len = (Z.of_nat (length path) - 1)%Z.
Proof.
  intros Hfp Hne.
  destruct (find_path_with_risk_sound _ _ _ _ _ _ _ _ _ _ _ Hfp Hne)
    as (rm & Hrm & Hhd & Hlast & _ & _ & Hrisk).
  destruct (find_path_with_risk_enters_loop _ _ _ _ _ _ _ _ _ _ _ Hfp Hne)
    as (rm' & node0 & Hrm' & Hbs & Hpar & Hg0 & Hloop).
  assert (rm' = rm) as -> by congruence.
  eapply find_path_with_risk_loop_cost in Hloop
    as (st' & l & Hinv & Hch & Hpath & Hdist & Hlen);
    [|by apply inv_init|done|done].
  exists rm. do 3 (split; [done|]).
  split; [rewrite Hpath, reverse_Permutation; by eapply chain_NoDup|].
  split; [|done].
  rewrite Hdist, Hpath. by eapply chain_combined_cost.
Qed.

(** X18: a route in the answer of the risk branch.  When the handler
    answers with path, distance, risk, length and safety weight, the
    request asked for no comparison and carried a non-empty risk map;
    the weight is the one of the request, 0.5 if it gave none; the path
    runs from start to goal without visiting a cell twice; the distance
    is the accumulated combined cost of the path and the risk the sum
    of its cells' risk entries, both rounded to two decimals; the length
    is the number of steps. *)
Theorem route_risk_response fuel req grid sl gl path distance risk length w :
  req_grid req = Some grid → req_start req = Some sl →
  req_goal req = Some gl →
  plan_escape_route fuel req
    = Done (Returned (RespRisk path distance risk length w)) →
  req_compare_routes req = false ∧
  w = default 0.5%float (req_safety_weight req) ∧
  ∃ rm s g,
    req_risk_map req = Some rm ∧ rm ≠ [] ∧
    (∃ rest, sl = s.1 :: s.2 :: rest) ∧ (∃ rest, gl = g.1 :: g.2 :: rest) ∧
    head path = Some s ∧ last path = Some g ∧ NoDup path ∧
    distance = py_round2 (path_combined_cost rm w path) ∧
    risk = py_round2 (path_risk rm path) ∧
    length = (Z.of_nat (List.length path) - 1)%Z.
Proof.
  intros Hg Hs Hgo Hplan.
  assert (route_body fuel req
            = Done (inr (RespRisk path distance risk length w))) as Hbody.
  { unfold plan_escape_route in Hplan.
    destruct (route_body fuel req) as [[?|?]| |]; congruence. }
  destruct (route_body_unfold _ _ _ _ _ Hg Hs Hgo _ Hbody)
    as (bs & s & g & Hbs & Hs' & Hg' & Hrun).
  destruct (req_compare_routes req).
  { apply bind_Done in Hrun as ([c calls] & _ & [=]). }
  split; [done|].
  destruct (risk_map_truthy (req_risk_map req)) eqn:Htruthy.
  2:{ apply bind_Done in Hrun as ([[p c] l] & _ & Hr).
      destruct p; by injection Hr. }
  apply bind_Done in Hrun as ([[[p d] r] l] & Hfp & Hr).
  assert (p = path ∧ py_round2 d = distance ∧ py_round2 r = risk ∧
          l = length ∧ default 0.5%float (req_safety_weight req) = w ∧
          path ≠ []) as (-> & <- & <- & -> & Hw & Hne).
  { destruct p; [done|]. by injection Hr as <- <- <- <- <-. }
  split; [done|]. rewrite Hw in Hfp.
  destruct (req_risk_map req) as [[|row rm]|] eqn:Hrm; try done.
  exists (row :: rm), s, g. apply endpoint_Done in Hs', Hg'.
  do 4 (split; [done|]).
  destruct (find_path_with_risk_route _ _ _ _ _ _ _ _ _ _ _ Hfp Hne)
    as (rm1 & [= <-] & Hhd & Hlast & Hnd & Hdist & Hrisk & Hlen).
  do 3 (split; [done|]). by rewrite Hdist, Hrisk.
Qed.

Lemma route_risk_response_witness :
  ∃ path distance risk length w,
    plan_escape_route 100
      (mkRequest (Some grid_5x5_free) (Some [0; 0]%Z) (Some [4; 4]%Z)
         (Some []) (Some risk_diagonal_5x5) (Some 0.8%float) false)
      = Done (Returned (RespRisk path distance risk length w)) ∧
    false = false ∧ w = default 0.5%float (Some 0.8%float) ∧
    ∃ rm s g,
      Some risk_diagonal_5x5 = Some rm ∧ rm ≠ [] ∧
      (∃ rest, [0; 0]%Z = s.1 :: s.2 :: rest) ∧
      (∃ rest, [4; 4]%Z = g.1 :: g.2 :: rest) ∧
      head path = Some s ∧ last path = Some g ∧ NoDup path ∧
      distance = py_round2 (path_combined_cost rm w path) ∧
      risk = py_round2 (path_risk rm path) ∧
      length = (Z.of_nat (List.length path) - 1)%Z.
Proof.
  eexists _, _, _, _, _. split; [vm_compute; reflexivity|].
  apply (route_risk_response 100
           (mkRequest (Some grid_5x5_free) (Some [0; 0]%Z) (Some [4; 4]%Z)
              (Some []) (Some risk_diagonal_5x5) (Some 0.8%float) false)
           grid_5x5_free [0; 0]%Z [4; 4]%Z); [done|done|done|].
  vm_compute; reflexivity.
Defined.

(** X19: the ["No path found"] answers.  The standard branch gives it
    exactly when start or goal fails the validation of [find_path] or
    the goal cannot be reached from the start; the risk branch exactly
    when start or goal is out of bounds or the goal cannot be reached. *)
Theorem route_no_path_response fuel req grid sl gl :
  req_grid req = Some grid → req_start req = Some sl →
  req_goal req = Some gl →
  (plan_escape_route fuel req = Done (Returned RespNoPath) →
   ∃ bs s g,
     blocked_entries (default [] (req_blocked req)) = Done bs ∧
     endpoint sl = Done s ∧ endpoint gl = Done g ∧
     ¬ (admissible grid (blocked_set_of (Some bs)) s ∧
        admissible grid (blocked_set_of (Some bs)) g ∧
        reachable grid (blocked_set_of (Some bs)) s g)) ∧
  (plan_escape_route fuel req = Done (Returned RespRiskNoPath) →
   ∃ bs s g,
     blocked_entries (default [] (req_blocked req)) = Done bs ∧
     endpoint sl = Done s ∧ endpoint gl = Done g ∧
     ¬ (in_bounds (rows_of grid) (cols_of grid) s = true ∧
        in_bounds (rows_of grid) (cols_of grid) g = true ∧
        reachable grid (blocked_set_of (Some bs)) s g)).
Proof.
  intros Hg Hs Hgo.
  assert (∀ body, plan_escape_route fuel req = Done (Returned body) →
                  route_body fuel req = Done (inr body)) as Hb.
  { intros body. unfold plan_escape_route.
    destruct (route_body fuel req) as [[?|?]| |]; congruence. }
  split; intros Hbody%Hb;
    destruct (route_body_unfold _ _ _ _ _ Hg Hs Hgo _ Hbody)
      as (bs & s & g & Hbs & Hs' & Hg' & Hrun);
    exists bs, s, g; do 3 (split; [done|]);
    (destruct (req_compare_routes req);
       [by apply bind_Done in Hrun as ([c calls] & _ & [=])|]);
    destruct (risk_map_truthy (req_risk_map req)).
  - apply bind_Done in Hrun as ([[[p d] r] l] & _ & Hr).
    destruct p; by injection Hr.
  - apply bind_Done in Hrun as ([[p c] l] & Hfp & Hr).
    destruct p; [|by injection Hr].
    intros H. by apply (find_path_nonempty_iff _ _ _ _ _ _ _ _ Hfp) in H.
  - apply bind_Done in Hrun as ([[[p d] r] l] & Hfp & Hr).
    destruct p; [|by injection Hr].
    intros H.
    by apply (find_path_with_risk_nonempty_iff _ _ _ _ _ _ _ _ _ _ _ Hfp) in H.
  - apply bind_Done in Hrun as ([[p c] l] & _ & Hr).
    destruct p; by injection Hr.
Qed.

Lemma route_no_path_response_witness :
  plan_escape_route 100
    (mkRequest (Some grid_wall_start) (Some [0; 0]%Z) (Some [0; 1]%Z)
       (Some []) None None false) = Done (Returned RespNoPath) ∧
  ∃ bs s g,
    blocked_entries (default [] (Some [])) = Done bs ∧
    endpoint [0; 0]%Z = Done s ∧ endpoint [0; 1]%Z = Done g ∧
    ¬ (admissible grid_wall_start (blocked_set_of (Some bs)) s ∧
       admissible grid_wall_start (blocked_set_of (Some bs)) g ∧
       reachable grid_wall_start (blocked_set_of (Some bs)) s g).
Proof.
  split; [vm_compute; reflexivity|].
  apply (proj1 (route_no_path_response 100
           (mkRequest (Some grid_wall_start) (Some [0; 0]%Z) (Some [0; 1]%Z)
              (Some []) None None false)
           grid_wall_start [0; 0]%Z [0; 1]%Z eq_refl eq_refl eq_refl)).
  vm_compute; reflexivity.
Defined.

(** X20: the safety weight of a request matters in the risk branch
    only: with a comparison requested, or with a risk map that is
    absent or empty, the answer does not depend on it. *)
Theorem route_safety_weight_ignored fuel grid start goal blocked risk_map
    w1 w2 compare :
  compare = true ∨ risk_map_truthy risk_map = false →
  plan_escape_route fuel
    (mkRequest grid start goal blocked risk_map w1 compare)
  = plan_escape_route fuel
      (mkRequest grid start goal blocked risk_map w2 compare).
Proof.
  intros H. unfold plan_escape_route, route_body.
  cbn [req_grid req_start req_goal req_blocked req_risk_map
       req_safety_weight req_compare_routes].
  destruct H as [-> | ->]; [done|]. by destruct compare.
Qed.

Lemma route_safety_weight_ignored_witness :
  (false = true ∨ risk_map_truthy (Some []) = false) ∧
  plan_escape_route 100
    (mkRequest (Some grid_5x5_free) (Some [0; 0]%Z) (Some [4; 4]%Z)
       (Some []) (Some []) (Some 0.1%float) false)
  = plan_escape_route 100
      (mkRequest (Some grid_5x5_free) (Some [0; 0]%Z) (Some [4; 4]%Z)
         (Some []) (Some []) (Some 0.9%float) false).
Proof.
  split; [by right|].
  apply (route_safety_weight_ignored 100 (Some grid_5x5_free)
           (Some [0; 0]%Z) (Some [4; 4]%Z) (Some []) (Some [])
           (Some 0.1%float) (Some 0.9%float) false).
  by right.
Defined.


(** ** Further degenerate searches *)

(** X21: with start = goal = p in bounds, [find_path_with_risk] returns
    the one-cell path [p] with distance 0, the risk entry of p (added
    to 0.0) as risk and length 0, whether or not p is an obstacle or
    blocked; it needs the risk map to have an entry for p. *)
Theorem find_path_with_risk_start_is_goal fuel grid p risk_map rm blocked
    safety_weight v :
  in_bounds (rows_of grid) (cols_of grid) p = true →
  effective_risk_map grid risk_map = Done rm →
  risk_at rm p = Done v →
  find_path_with_risk (S fuel) grid p p risk_map blocked safety_weight
    = Done ([p], fzero, (fzero + v)%float, 0%Z).
Proof.
  intros Hib Hrm Hv. unfold find_path_with_risk. rewrite Hrm.
  cbn [mbind outcome_bind obind].
  destruct grid as [|row0 rest].
  { apply in_bounds_spec in Hib as [Hx _]. unfold rows_of in Hx.
    simpl in Hx. lia. }
  rewrite bool_decide_eq_false_2 by (unfold rows_of; simpl; lia).
  change (py_index (row0 :: rest) 0) with (Done (A:=list Z) row0).
  cbn [mbind outcome_bind obind].
  change (Z.of_nat (length row0)) with (cols_of (row0 :: rest)).
  rewrite Hib. cbn [negb].
  unfold risk_heuristic. rewrite <- (surjective_pairing p), Hib, Hv.
  cbn [andb mbind outcome_bind obind find_path_with_risk_loop].
  rewrite HeapqFacts.heapify_singleton.
  cbn [open_set all_nodes]. rewrite HeapqFacts.heappop_singleton.
  rewrite bool_decide_eq_true_2 by done.
  cbn [walk_parents_risk]. rewrite Hib, Hv, lookup_singleton_eq.
  cbn [mbind option_bind parent outcome_bind obind].
  unfold node_g. rewrite lookup_singleton_eq. by destruct fuel.
Qed.

Lemma find_path_with_risk_start_is_goal_witness :
  in_bounds (rows_of grid_wall_start) (cols_of grid_wall_start) (0, 0)%Z
    = true ∧
  effective_risk_map grid_wall_start (Some [[0.7; 0.2]%float])
    = Done [[0.7; 0.2]%float] ∧
  risk_at [[0.7; 0.2]%float] (0, 0)%Z = Done 0.7%float ∧
  find_path_with_risk 1 grid_wall_start (0, 0)%Z (0, 0)%Z
    (Some [[0.7; 0.2]%float]) (Some [(0, 0)%Z]) 0.5%float
    = Done ([(0, 0)%Z], fzero, (fzero + 0.7)%float, 0%Z).
Proof.
  do 3 (split; [reflexivity|]).
  apply (find_path_with_risk_start_is_goal 0 grid_wall_start (0, 0)%Z
           (Some [[0.7; 0.2]%float]) [[0.7; 0.2]%float] (Some [(0, 0)%Z])
           0.5%float 0.7%float); reflexivity.
Defined.

Lemma foldl_ext_combined {A B} (f1 f2 : A → B → A) (a : A) (l : list B) :
  (∀ acc e, f1 acc e = f2 acc e) → foldl f1 a l = foldl f2 a l.
Proof.
  intros Hext. revert a. induction l as [|e l IH]; intros a; [done|].
  simpl. by rewrite Hext, IH.
Qed.

Lemma uniformly_zero_repeat (rows cols : nat) :
  uniformly_zero (repeat (repeat fzero cols) rows).
Proof.
  apply Forall_forall. intros row Hrow%list_elem_of_In%repeat_spec. subst row.
  apply Forall_forall. by intros r Hr%list_elem_of_In%repeat_spec.
Qed.

Lemma default_risk_map_zero grid rm :
  default_risk_map grid = Done rm → uniformly_zero rm.
Proof.
  unfold default_risk_map. destruct grid as [|row0 rest].
  { intros [= <-]. constructor. }
  rewrite default_risk_rows_covers. intros [= <-].
  apply (uniformly_zero_repeat (length (row0 :: rest)) (length row0)).
Qed.

(** X22: without a risk map [find_path_with_risk] builds the all-zero
    map of the grid's size; the risk it returns with a non-empty path
    is then 0.0, and its distance is the sum over the steps of
    [move_cost * (1 - safety_weight) + 0.0 * 10.0 * safety_weight]. *)
Theorem find_path_with_risk_default_map fuel grid start goal blocked
    safety_weight path dist risk len :
  find_path_with_risk fuel grid start goal None blocked safety_weight
    = Done (path, dist, risk, len) →
  path ≠ [] →
  risk = fzero ∧
  dist = foldl (fun acc e =>
                  (acc + (calculate_cost e.1.1 e.1.2 e.2.1 e.2.2 *
                            (1 - safety_weight) +
                          fzero * 10.0 * safety_weight))%float)
               fzero (edges_of path).
Proof.
  intros Hfp Hne.
  destruct (find_path_with_risk_route _ _ _ _ _ _ _ _ _ _ _ Hfp Hne)
    as (rm & Hrm & _ & _ & _ & Hdist & Hrisk & _).
  apply default_risk_map_zero in Hrm.
  split; [by rewrite Hrisk, path_risk_zero|].
  rewrite Hdist. unfold path_combined_cost.
  apply foldl_ext_combined. intros acc e.
  unfold combined_cost. by rewrite (risk_value_zero rm e.2 Hrm).
Qed.

Lemma find_path_with_risk_default_map_witness :
  ∃ path dist risk len,
    find_path_with_risk 100 grid_detour (4, 3)%Z (0, 1)%Z None None 0.5%float
      = Done (path, dist, risk, len) ∧
    path ≠ [] ∧ risk = fzero ∧
    dist = foldl (fun acc e =>
                    (acc + (calculate_cost e.1.1 e.1.2 e.2.1 e.2.2 *
                              (1 - 0.5) +
                            fzero * 10.0 * 0.5))%float)
                 fzero (edges_of path).
Proof.
  eexists _, _, _, _. split; [vm_compute; reflexivity|]. split; [done|].
  eapply (find_path_with_risk_default_map 100 grid_detour (4, 3)%Z (0, 1)%Z
            None 0.5%float); [vm_compute; reflexivity|done].
Defined.
